(** * libwave rigid-body transformations: a shallow embedding

    Source: wave_geometry/include/wave/geometry/impl/transformation_impl.hpp
    (class template [Transformation<Derived, approximate>]).

    The C++ code computes on [double] through Eigen fixed-size matrices.  The
    embedding is parametric in the scalar arithmetic (class [Scalar]): every
    function of the source is written with the operations, the literals and
    the evaluation order of its text, and nothing is assumed about them.  What
    is proved for every [Scalar] holds in particular for an arithmetic that
    rounds.  Two instances follow: the real numbers, in which the algebraic
    laws of the exponential and logarithm maps are proved exactly, and the real
    numbers extended with one non-finite value, in which the finiteness checks
    and the propagation of NaN are observed.

    Eigen routines that are decompositions (general inverse, matrix square
    root) and the constants of the class header are parameters. *)

From Stdlib Require Import Reals Lra Lia Bool Arith ZArith List RNsatz.
Import ListNotations.

Set Implicit Arguments.

(** ** Scalars *)

(** [dec m k] is the decimal literal [m * 10^(-k)] of the source text;
    [gtb] is the only comparison the source uses ([>]); [isFinite] is
    [std::isfinite]. *)
Class Scalar (T : Type) := {
  zero : T;
  one : T;
  add : T -> T -> T;
  sub : T -> T -> T;
  mul : T -> T -> T;
  div : T -> T -> T;
  opp : T -> T;
  fsqrt : T -> T;
  fsin : T -> T;
  fcos : T -> T;
  facos : T -> T;
  gtb : T -> T -> bool;
  isFinite : T -> bool;
  dec : Z -> nat -> T
}.

Declare Scope scalar_scope.
Delimit Scope scalar_scope with S.
Infix "+" := add : scalar_scope.
Infix "-" := sub : scalar_scope.
Infix "*" := mul : scalar_scope.
Infix "/" := div : scalar_scope.
Notation "- x" := (opp x) : scalar_scope.
Infix ">?" := gtb (at level 70, no associativity) : scalar_scope.

(** ** Errors *)

(** The only failure of the module is the exception thrown by the
    finiteness check of the setters. *)
Inductive error : Type := InvalidArgument.

Inductive result (A : Type) : Type :=
| Ok (a : A)
| Err (e : error).
Arguments Ok {A} a.
Arguments Err {A} e.

Definition bind {A B : Type} (m : result A) (k : A -> result B) : result B :=
  match m with
  | Ok a => k a
  | Err e => Err e
  end.

Notation "x <- m ;; k" := (bind m (fun x => k))
  (at level 61, m at next level, right associativity).
Notation "m ;;; k" := (bind m (fun _ => k))
  (at level 61, right associativity).

(** ** Fixed-size vectors and matrices *)

(** [vec A n] is the type of [n]-tuples; a matrix with [r] rows and [c]
    columns is an [r]-tuple of rows. *)
Fixpoint vec (A : Type) (n : nat) : Type :=
  match n with
  | O => unit
  | S n' => (A * vec A n')%type
  end.

Fixpoint vtab {A : Type} (n : nat) (f : nat -> A) : vec A n :=
  match n with
  | O => tt
  | S n' => (f O, vtab n' (fun i => f (S i)))
  end.

Fixpoint vget {A : Type} {n : nat} (d : A) : vec A n -> nat -> A :=
  match n with
  | O => fun _ _ => d
  | S n' => fun v i =>
      match i with
      | O => fst v
      | S i' => vget d (snd v) i'
      end
  end.

Fixpoint vall {A : Type} {n : nat} (p : A -> bool) : vec A n -> bool :=
  match n with
  | O => fun _ => true
  | S n' => fun v => p (fst v) && vall p (snd v)
  end.

Definition Vec (T : Type) (n : nat) : Type := vec T n.
Definition Mat (T : Type) (r c : nat) : Type := vec (vec T c) r.

Section Linear.

Context {T : Type} {SC : Scalar T}.
Local Open Scope scalar_scope.

Local Abbreviation Vec := (Vec T).
Local Abbreviation Mat := (Mat T).

Definition vtabulate (n : nat) (f : nat -> T) : Vec n := vtab n f.
Definition mtab (r c : nat) (f : nat -> nat -> T) : Mat r c :=
  vtab r (fun i => vtab c (fun j => f i j)).

(** [v(i)] and [M(i,j)]. *)
Definition vcoeff {n} (v : Vec n) (i : nat) : T := vget zero v i.
Definition coeff {r c} (M : Mat r c) (i j : nat) : T :=
  vget zero (vget (vtab c (fun _ => zero)) M i) j.

Definition vzero (n : nat) : Vec n := vtabulate n (fun _ => zero).
Definition mzero (r c : nat) : Mat r c := mtab r c (fun _ _ => zero).
Definition identity (n : nat) : Mat n n :=
  mtab n n (fun i j => if Nat.eqb i j then one else zero).

(** Coefficient-wise operations. *)
Definition madd {r c} (A B : Mat r c) : Mat r c :=
  mtab r c (fun i j => coeff A i j + coeff B i j).
Definition msub {r c} (A B : Mat r c) : Mat r c :=
  mtab r c (fun i j => coeff A i j - coeff B i j).
Definition mopp {r c} (A : Mat r c) : Mat r c :=
  mtab r c (fun i j => - coeff A i j).
Definition smul {r c} (s : T) (A : Mat r c) : Mat r c :=
  mtab r c (fun i j => s * coeff A i j).
Definition transpose {r c} (A : Mat r c) : Mat c r :=
  mtab c r (fun i j => coeff A j i).
Definition vadd {n} (u v : Vec n) : Vec n :=
  vtabulate n (fun i => vcoeff u i + vcoeff v i).

(** Sums are accumulated from the first term on, left to right. *)
Fixpoint sum_acc (acc : T) (n : nat) (f : nat -> T) : T :=
  match n with
  | O => acc
  | S n' => sum_acc (acc + f O) n' (fun i => f (S i))
  end.
Definition sumn (n : nat) (f : nat -> T) : T :=
  match n with
  | O => zero
  | S n' => sum_acc (f O) n' (fun i => f (S i))
  end.

Definition mmul {r k c} (A : Mat r k) (B : Mat k c) : Mat r c :=
  mtab r c (fun i j => sumn k (fun l => coeff A i l * coeff B l j)).
Definition mvmul {r k} (A : Mat r k) (v : Vec k) : Vec r :=
  vtabulate r (fun i => sumn k (fun l => coeff A i l * vcoeff v l)).

Definition trace {n} (A : Mat n n) : T := sumn n (fun i => coeff A i i).
Definition squaredNorm {n} (v : Vec n) : T := sumn n (fun i => vcoeff v i * vcoeff v i).
Definition norm {n} (v : Vec n) : T := fsqrt (squaredNorm v).

(** Determinant of a 3x3 matrix by expansion along the first row. *)
Definition det3_helper (m : Mat 3 3) (a b c : nat) : T :=
  coeff m 0 a * (coeff m 1 b * coeff m 2 c - coeff m 1 c * coeff m 2 b).
Definition determinant (m : Mat 3 3) : T :=
  det3_helper m 0 1 2 - det3_helper m 1 0 2 + det3_helper m 2 0 1.

(** Blocks: [M.block<p,q>(i0,j0)] read and written, a column block
    [M.block<p,1>(i0,j0)] as a vector, a segment [v.block<p,1>(i0,0)]. *)
Definition inBlock (p q i0 j0 i j : nat) : bool :=
  (i0 <=? i) && (i <? i0 + p) && (j0 <=? j) && (j <? j0 + q).
Definition block {r c} (p q i0 j0 : nat) (M : Mat r c) : Mat p q :=
  mtab p q (fun i j => coeff M (i0 + i) (j0 + j)).
Definition setBlock {r c p q} (i0 j0 : nat) (B : Mat p q) (M : Mat r c) : Mat r c :=
  mtab r c (fun i j =>
    if inBlock p q i0 j0 i j then coeff B (i - i0) (j - j0) else coeff M i j).
Definition colBlock {r c} (p i0 j0 : nat) (M : Mat r c) : Vec p :=
  vtabulate p (fun i => coeff M (i0 + i) j0).
Definition setColBlock {r c p} (i0 j0 : nat) (v : Vec p) (M : Mat r c) : Mat r c :=
  mtab r c (fun i j =>
    if inBlock p 1 i0 j0 i j then vcoeff v (i - i0) else coeff M i j).
Definition segment {n} (p i0 : nat) (v : Vec n) : Vec p :=
  vtabulate p (fun i => vcoeff v (i0 + i)).
Definition setSegment {n p} (i0 : nat) (u : Vec p) (v : Vec n) : Vec n :=
  vtabulate n (fun i =>
    if (i0 <=? i) && (i <? i0 + p) then vcoeff u (i - i0) else vcoeff v i).
Definition setCoeff {r c} (i0 j0 : nat) (x : T) (M : Mat r c) : Mat r c :=
  mtab r c (fun i j => if Nat.eqb i i0 && Nat.eqb j j0 then x else coeff M i j).
Definition setVCoeff {n} (i0 : nat) (x : T) (v : Vec n) : Vec n :=
  vtabulate n (fun i => if Nat.eqb i i0 then x else vcoeff v i).

Definition allFinite {r c} (M : Mat r c) : bool := vall (vall isFinite) M.
Definition vallFinite {n} (v : Vec n) : bool := vall isFinite v.

End Linear.

Declare Scope mat_scope.
Delimit Scope mat_scope with M.
Infix "+m" := madd (at level 50, left associativity) : mat_scope.
Infix "-m" := msub (at level 50, left associativity) : mat_scope.
Infix "*m" := mmul (at level 40, left associativity) : mat_scope.
Infix "*v" := mvmul (at level 40, left associativity) : mat_scope.
Infix "*:" := smul (at level 40, left associativity) : mat_scope.
Infix "+v" := vadd (at level 50, left associativity) : mat_scope.

(** ** The Transformation class *)

(** Constants declared in the class header (transformation.hpp): the member
    [TOL] and the default argument of [logMap]. *)
Class Constants (T : Type) := {
  TOL : T;
  logMap_default_tolerance : T
}.

(** Eigen routines that are decompositions rather than formulas: the
    general inverse [M.inverse()] of a 6x6 or 3x3 matrix and the matrix square
    root [M.sqrt()]. *)
Class Backend (T : Type) (SC : Scalar T) := {
  inverse6 : Mat T 6 6 -> Mat T 6 6;
  inverse3 : Mat T 3 3 -> Mat T 3 3;
  sqrt3 : Mat T 3 3 -> Mat T 3 3
}.

Section Transformation.

Context {T : Type} {SC : Scalar T} {CST : Constants T} {BE : Backend SC}.
Local Open Scope scalar_scope.
Local Open Scope mat_scope.

Local Abbreviation Vec := (Vec T).
Local Abbreviation Mat := (Mat T).
Local Abbreviation Vec3 := (Vec 3).
Local Abbreviation Vec6 := (Vec 6).
Local Abbreviation Mat3 := (Mat 3 3).
Local Abbreviation Mat4 := (Mat 4 4).
Local Abbreviation Mat6 := (Mat 6 6).

(** The stored matrix: rotation in [block<3,3>(0,0)], translation in
    [block<3,1>(0,3)]. *)
Definition Transformation : Type := Mat 3 4.

Definition getRotationMatrix (t : Transformation) : Mat3 := block 3 3 0 0 t.
Definition getTranslation (t : Transformation) : Vec3 := colBlock 3 0 3 t.

Definition getMatrix (t : Transformation) : Mat4 :=
  setBlock 0 0 t (identity 4).

(** Default constructor and [setIdentity]. *)
Definition setIdentity (t : Transformation) : Transformation :=
  setColBlock 0 3 (vzero 3) (setBlock 0 0 (identity 3) t).
Definition Transformation_default : Transformation :=
  setIdentity (mzero 3 4).

Definition deepCopy (self other : Transformation) : Transformation := other.

(** Modelled from the spec: [checkMatrixFinite] of exception_helpers.hpp,
    which is not part of the sources at hand; a non-finite entry is a
    precondition violation reported to the caller. *)
Definition checkMatrixFinite {r c} (M : Mat r c) : result unit :=
  if allFinite M then Ok tt else Err InvalidArgument.
Definition checkVectorFinite {n} (v : Vec n) : result unit :=
  if vallFinite v then Ok tt else Err InvalidArgument.

(** [Eigen::AngleAxisd(angle, axis)] for the three unit axes, as the
    rotation matrix it denotes. *)
Definition angleAxisX (a : T) : Mat3 :=
  ((one, (zero, (zero, tt))),
   ((zero, (fcos a, (- fsin a, tt))),
    ((zero, (fsin a, (fcos a, tt))), tt))).
Definition angleAxisY (a : T) : Mat3 :=
  ((fcos a, (zero, (fsin a, tt))),
   ((zero, (one, (zero, tt))),
    ((- fsin a, (zero, (fcos a, tt))), tt))).
Definition angleAxisZ (a : T) : Mat3 :=
  ((fcos a, (- fsin a, (zero, tt))),
   ((fsin a, (fcos a, (zero, tt))),
    ((zero, (zero, (one, tt))), tt))).

Definition setFromEulerXYZ (self : Transformation) (eulers translation : Vec3)
  : result Transformation :=
  checkVectorFinite eulers ;;;
  checkVectorFinite translation ;;;
  let rotation_matrix :=
    angleAxisZ (vcoeff eulers 2) *m angleAxisY (vcoeff eulers 1)
      *m angleAxisX (vcoeff eulers 0) in
  Ok (setColBlock 0 3 translation (setBlock 0 0 rotation_matrix self)).

Definition setFromMatrix (self : Transformation) (input_matrix : Mat4)
  : result Transformation :=
  checkMatrixFinite input_matrix ;;;
  Ok (block 3 4 0 0 input_matrix).

Definition skewSymmetric3 (V : Vec3) : Mat3 :=
  ((zero, (- vcoeff V 2, (vcoeff V 1, tt))),
   ((vcoeff V 2, (zero, (- vcoeff V 0, tt))),
    ((- vcoeff V 1, (vcoeff V 0, (zero, tt))), tt))).

Definition skewSymmetric6 (W : Vec6) : Mat6 :=
  let retval := mzero 6 6 in
  let retval := setBlock 0 0 (skewSymmetric3 (segment 3 0 W)) retval in
  let retval := setBlock 3 3 (skewSymmetric3 (segment 3 0 W)) retval in
  let retval := setBlock 3 0 (skewSymmetric3 (segment 3 3 W)) retval in
  retval.

(** [Adjoint(twist, retval)] writes its result into [retval]. *)
Definition Adjoint (twist : Vec6) (retval : Mat6) : Mat6 :=
  let retval := mzero 6 6 in
  let retval := setCoeff 0 1 (- vcoeff twist 2) retval in
  let retval := setCoeff 0 2 (vcoeff twist 1) retval in
  let retval := setCoeff 1 0 (vcoeff twist 2) retval in
  let retval := setCoeff 1 2 (- vcoeff twist 0) retval in
  let retval := setCoeff 2 0 (- vcoeff twist 1) retval in
  let retval := setCoeff 2 1 (vcoeff twist 0) retval in
  let retval := setCoeff 3 4 (- vcoeff twist 2) retval in
  let retval := setCoeff 3 5 (vcoeff twist 1) retval in
  let retval := setCoeff 4 3 (vcoeff twist 2) retval in
  let retval := setCoeff 4 5 (- vcoeff twist 0) retval in
  let retval := setCoeff 5 3 (- vcoeff twist 1) retval in
  let retval := setCoeff 5 4 (vcoeff twist 0) retval in
  let retval := setCoeff 3 1 (- vcoeff twist 5) retval in
  let retval := setCoeff 3 2 (vcoeff twist 4) retval in
  let retval := setCoeff 4 0 (vcoeff twist 5) retval in
  let retval := setCoeff 4 2 (- vcoeff twist 3) retval in
  let retval := setCoeff 5 0 (- vcoeff twist 4) retval in
  let retval := setCoeff 5 1 (vcoeff twist 3) retval in
  retval.

(** [expMap(W, TOL)]: the 4x4 homogeneous matrix of [exp(W)]. *)
Definition expMap (approximate : bool) (W : Vec6) (TOL : T) : Mat4 :=
  let retval := identity 4 in
  let wx := skewSymmetric3 (segment 3 0 W) in
  let wn := norm (segment 3 0 W) in
  if approximate then
    (* 2nd order taylor expansion *)
    let retval := setBlock 0 0
      (identity 3
       +m (dec 10 1 - dec 16666666666666667 17 * (wn * wn)) *: wx
       +m (dec 5 1 - dec 4166666666666666667 20 * (wn * wn)) *: wx *m wx) retval in
    let retval := setColBlock 0 3
      ((identity 3
        +m (dec 5 1 - dec 4166666666666666667 20 * (wn * wn)) *: wx
        +m (dec 16666666666666667 17 - dec 833333333333333333 20 * (wn * wn)) *: wx *m wx)
       *v segment 3 3 W) retval in
    retval
  else
    let '(A, B, C) :=
      if wn >? TOL then
        let A := fsin wn / wn in
        let B := (dec 10 1 - fcos wn) / (wn * wn) in
        let C := (dec 10 1 - A) / (wn * wn) in
        (A, B, C)
      else
        (* Use taylor expansion *)
        let A := dec 10 1 - dec 16666666666666667 17 * (wn * wn)
                 + dec 833333333333333333 20 * (wn * wn * wn * wn) in
        let B := dec 5 1 - dec 4166666666666666667 20 * (wn * wn)
                 + dec 138888888888888888889 23 * (wn * wn * wn * wn) in
        let C := dec 16666666666666667 17 - dec 833333333333333333 20 * (wn * wn)
                 + dec 1984126984126984 19 * (wn * wn * wn * wn) in
        (A, B, C) in
    let retval := setBlock 0 0 (identity 3 +m A *: wx +m B *: wx *m wx) retval in
    let retval := setColBlock 0 3
      ((identity 3 +m B *: wx +m C *: wx *m wx) *v segment 3 3 W) retval in
    retval.

Definition setFromExpMap (approximate : bool) (self : Transformation) (se3_vector : Vec6)
  : result Transformation :=
  checkVectorFinite se3_vector ;;;
  let transform := expMap approximate se3_vector TOL in
  Ok (block 3 4 0 0 transform).

(** The [adj] matrix that the three Jacobian routines assemble. *)
Definition adjBlocks (W : Vec6) : Mat6 :=
  let wx := skewSymmetric3 (segment 3 0 W) in
  let adj := mzero 6 6 in
  let adj := setBlock 0 0 wx adj in
  let adj := setBlock 3 3 wx adj in
  let adj := setBlock 3 0 (skewSymmetric3 (segment 3 3 W)) adj in
  adj.

Definition SE3LeftJacobian (W : Vec6) (TOL : T) : Mat6 :=
  let wn := norm (segment 3 0 W) in
  let adj := adjBlocks W in
  if wn >? TOL then
    let A := (dec 40 1 - wn * fsin wn - dec 40 1 * fcos wn) / (dec 20 1 * wn * wn) in
    let B := (dec 40 1 * wn - dec 50 1 * fsin wn + wn * fcos wn)
             / (dec 20 1 * wn * wn * wn) in
    let C := (dec 20 1 - wn * fsin wn - dec 20 1 * fcos wn)
             / (dec 20 1 * wn * wn * wn * wn) in
    let D := (dec 20 1 * wn - dec 30 1 * fsin wn + wn * fcos wn)
             / (dec 20 1 * wn * wn * wn * wn * wn) in
    identity 6 +m A *: adj +m B *: adj *m adj +m C *: adj *m adj *m adj
      +m D *: adj *m adj *m adj *m adj
  else
    (* First order taylor expansion *)
    identity 6 +m dec 5 1 *: adj.

Definition SE3ApproxLeftJacobian (W : Vec6) : Mat6 :=
  let adj := adjBlocks W in
  identity 6 +m dec 5 1 *: adj +m dec 1666666666666666666666 22 *: adj *m adj.

Definition SE3ApproxInvLeftJacobian (W : Vec6) : Mat6 :=
  let adj := adjBlocks W in
  identity 6 -m dec 5 1 *: adj +m dec 833333333333333333 19 *: adj *m adj.

(** [logMap(tolerance)].  The rotation angle is computed first; the rest of
    the body only reads it. *)
Definition logMap_arg (self : Transformation) : T :=
  (trace (block 3 3 0 0 self) - dec 10 1) / dec 20 1.

Definition logMap_angle (self : Transformation) : T :=
  (* Need to pander to ceres gradient checker a bit here *)
  if logMap_arg self >? dec 10 1 then zero
  else facos (logMap_arg self).

Definition logMap_from (approximate : bool) (wn : T) (self : Transformation) (tolerance : T)
  : Vec6 :=
  let retval := vzero 6 in
  let R := block 3 3 0 0 self in
  if approximate then
    (* 2nd order taylor expansion *)
    let skew := (dec 5 1 + wn * wn * dec 83333333333333 15) *: (R -m transpose R) in
    let retval := setVCoeff 0 (coeff skew 2 1) retval in
    let retval := setVCoeff 1 (coeff skew 0 2) retval in
    let retval := setVCoeff 2 (coeff skew 1 0) retval in
    let retval := setSegment 3
      ((identity 3 -m dec 5 1 *: skew) *v colBlock 3 0 3 self) retval in
    retval
  else
    let '(skew, Vinv) :=
      if wn >? tolerance then
        let A := wn / (dec 2 0 * fsin wn) in
        let B := (dec 1 0 - fcos wn) / (wn * wn) in
        let skew := A *: (R -m transpose R) in
        let Vinv := identity 3 -m dec 5 1 *: skew
                    +m (dec 1 0 / (wn * wn))
                       * (dec 1 0 - (dec 1 0 / (dec 4 0 * A * B))) *: skew *m skew in
        (skew, Vinv)
      else
        (* Third order taylor expansion *)
        let A := dec 5 1 + wn * wn / dec 120 1
                 + wn * wn * wn * wn * (dec 70 1 / dec 7200 1) in
        let B := dec 5 1 - wn * wn / dec 240 1
                 + wn * wn * wn * wn * (dec 70 1 / dec 7200 1) in
        let skew := A *: (R -m transpose R) in
        let Vinv := identity 3 -m dec 5 1 *: skew in
        (skew, Vinv) in
    let retval := setVCoeff 0 (coeff skew 2 1) retval in
    let retval := setVCoeff 1 (coeff skew 0 2) retval in
    let retval := setVCoeff 2 (coeff skew 1 0) retval in
    let retval := setSegment 3 (Vinv *v colBlock 3 0 3 self) retval in
    retval.

Definition logMap (approximate : bool) (self : Transformation) (tolerance : T) : Vec6 :=
  logMap_from approximate (logMap_angle self) self tolerance.

(** [operator*]. *)
Definition compose (self t : Transformation) : Transformation :=
  let composed := Transformation_default in
  let composed := setBlock 0 0 (block 3 3 0 0 self *m block 3 3 0 0 t) composed in
  let composed := setColBlock 0 3
    (block 3 3 0 0 self *v colBlock 3 0 3 t +v colBlock 3 0 3 self) composed in
  composed.

(** [invert()]: the rotation is transposed in place, then the translation
    is recomputed from the new rotation. *)
Definition invert (self : Transformation) : Transformation :=
  let self := setBlock 0 0 (transpose (block 3 3 0 0 self)) self in
  let self := setColBlock 0 3
    (mopp (block 3 3 0 0 self) *v colBlock 3 0 3 self) self in
  self.

(** [inverse()] goes through [getMatrix]-style padding and [setFromMatrix],
    hence through the finiteness check. *)
Definition inverse (self : Transformation) : result Transformation :=
  let inverse := Transformation_default in
  let t_matrix := setBlock 0 0 self (identity 4) in
  inverse <- setFromMatrix inverse t_matrix ;;
  Ok (invert inverse).

Definition manifoldPlus (approximate : bool) (self : Transformation) (omega : Vec6)
  : Transformation :=
  let incremental := expMap approximate omega TOL in
  let self := setColBlock 0 3
    (block 3 3 0 0 incremental *v colBlock 3 0 3 self +v colBlock 3 0 3 incremental)
    self in
  let self := setBlock 0 0 (block 3 3 0 0 incremental *m block 3 3 0 0 self) self in
  self.

Definition manifoldMinus (approximate : bool) (self t : Transformation) : result Vec6 :=
  tinv <- inverse t ;;
  Ok (logMap approximate (compose self tinv) logMap_default_tolerance).

(** [manifoldMinusAndJacobian]: the twist and the two output Jacobians
    [(J_left, J_right)].  [J_comp_inv] is declared without initialiser and
    its four blocks are then all assigned. *)
Definition J_comp_inv_blocks (J0 : Mat6) (self t T2inv : Transformation) : Mat6 :=
  let R1R2t := block 3 3 0 0 self *m transpose (block 3 3 0 0 t) in
  let t1 := colBlock 3 0 3 self in
  let J := setBlock 0 0 (mopp R1R2t) J0 in
  let J := setBlock 3 3 (mopp R1R2t) J in
  let J := setBlock 3 0
    (mopp (skewSymmetric3 t1) *m R1R2t
     -m block 3 3 0 0 self *m skewSymmetric3 (colBlock 3 0 3 T2inv)
          *m transpose (block 3 3 0 0 t)) J in
  let J := setBlock 0 3 (mzero 3 3) J in
  J.

Definition manifoldMinusAndJacobian (approximate : bool) (self t : Transformation)
  : result (Vec6 * Mat6 * Mat6) :=
  (* logmap(T1 * inv(T2)) *)
  tinv <- inverse t ;;
  let T2inv := deepCopy Transformation_default tinv in
  let diff := compose self T2inv in
  let manifold_difference := logMap approximate diff logMap_default_tolerance in
  let J_logm :=
    if approximate then SE3ApproxInvLeftJacobian manifold_difference
    else inverse6 (SE3LeftJacobian manifold_difference (dec 1 4)) in
  let J_comp_inv := J_comp_inv_blocks (mzero 6 6) self t T2inv in
  let J_left := J_logm in
  let J_right := J_logm *m J_comp_inv in
  Ok (manifold_difference, J_left, J_right).

(** [composeAndJacobian]: the product and [(J_left, J_right)]. *)
Definition composeAndJacobian (self T_right : Transformation) (J_left J_right : Mat6)
  : Transformation * Mat6 * Mat6 :=
  let J_left := identity 6 in
  let J_right := mzero 6 6 in
  let J_right := setBlock 0 0 (block 3 3 0 0 self) J_right in
  let J_right := setBlock 3 3 (block 3 3 0 0 self) J_right in
  let J_right := setBlock 3 0
    (skewSymmetric3 (colBlock 3 0 3 self) *m block 3 3 0 0 self) J_right in
  (compose self T_right, J_left, J_right).

Definition inverseAndJacobian (self : Transformation) (J_transformation : Mat6)
  : result (Transformation * Mat6) :=
  retval <- inverse self ;;
  let R := getRotationMatrix retval in
  let J := mzero 6 6 in
  let J := setBlock 0 0 (mopp R) J in
  let J := setBlock 3 3 (mopp R) J in
  let J := setBlock 3 0 (mopp (skewSymmetric3 (getTranslation retval)) *m R) J in
  Ok (retval, J).

Definition normalizeMaybe (self : Transformation) (tolerance : T) : Transformation :=
  (* Check if R has strayed too far outside SO(3) and if so normalize *)
  if (determinant (block 3 3 0 0 self) - dec 1 0) >? tolerance then
    let R := block 3 3 0 0 self in
    let temp := R *m transpose R in
    let temp := inverse3 (sqrt3 temp) in
    setBlock 0 0 (temp *m R) self
  else self.

(** [interpolate<approx>(T_k, T_kp1, twist_k, twist_kp1, hat, candle)];
    [approximate] is the mode of the operands' class, [approx] the mode of
    the returned object. *)
Definition interpolate (approximate approx : bool) (T_k T_kp1 : Transformation)
    (twist_k twist_kp1 : Vec6) (hat candle : Mat 6 12) : result Transformation :=
  let retval := Transformation_default in
  r <- manifoldMinusAndJacobian approximate T_kp1 T_k ;;
  let '(eps, J_left, J_right) := r in
  let retval := deepCopy retval T_k in
  let increment :=
    block 6 6 0 6 hat *v twist_k +v block 6 6 0 0 candle *v eps
    +v block 6 6 0 6 candle *m J_left *v twist_kp1 in
  let retval := manifoldPlus approx retval increment in
  Ok retval.

End Transformation.

(** ** Scalar instances *)

(** The same arithmetic with another [acos]: used to state that a result
    does not depend on what [acos] returns. *)
Definition withAcos {T : Type} (f : T -> T) (SC : Scalar T) : Scalar T :=
  {| zero := zero; one := one; add := add; sub := sub; mul := mul; div := div;
     opp := opp; fsqrt := fsqrt; fsin := fsin; fcos := fcos; facos := f;
     gtb := gtb; isFinite := isFinite; dec := dec |}.

(** *** Exact real arithmetic *)

Definition Rgtb (x y : R) : bool := if Rlt_dec y x then true else false.
Definition Rdec (m : Z) (k : nat) : R := (IZR m / IZR (10 ^ Z.of_nat k))%R.

#[export] Instance RScalar : Scalar R :=
  {| zero := 0%R; one := 1%R; add := Rplus; sub := Rminus; mul := Rmult;
     div := Rdiv; opp := Ropp; fsqrt := sqrt; fsin := sin; fcos := cos;
     facos := acos; gtb := Rgtb; isFinite := fun _ => true; dec := Rdec |}.

(** *** Real arithmetic with one non-finite value

    [None] stands for NaN: it is produced by a division by zero, by the
    square root of a negative number and by [acos] outside [[-1, 1]], it
    propagates through every operation and every comparison with it is
    false. *)
Definition xreal : Type := option R.

Definition xlift1 (f : R -> R) (x : xreal) : xreal :=
  match x with Some a => Some (f a) | None => None end.
Definition xlift2 (f : R -> R -> R) (x y : xreal) : xreal :=
  match x, y with Some a, Some b => Some (f a b) | _, _ => None end.
Definition xdiv (x y : xreal) : xreal :=
  match x, y with
  | Some a, Some b => if Req_dec_T b 0 then None else Some (a / b)%R
  | _, _ => None
  end.
Definition xsqrt (x : xreal) : xreal :=
  match x with
  | Some a => if Rlt_dec a 0 then None else Some (sqrt a)
  | None => None
  end.
Definition xacos (x : xreal) : xreal :=
  match x with
  | Some a => if Rlt_dec a (-1) then None else if Rlt_dec 1 a then None else Some (acos a)
  | None => None
  end.
Definition xgtb (x y : xreal) : bool :=
  match x, y with Some a, Some b => Rgtb a b | _, _ => false end.
Definition xisFinite (x : xreal) : bool :=
  match x with Some _ => true | None => false end.

#[export] Instance XScalar : Scalar xreal :=
  {| zero := Some 0%R; one := Some 1%R; add := xlift2 Rplus; sub := xlift2 Rminus;
     mul := xlift2 Rmult; div := xdiv; opp := xlift1 Ropp; fsqrt := xsqrt;
     fsin := xlift1 sin; fcos := xlift1 cos; facos := xacos; gtb := xgtb;
     isFinite := xisFinite; dec := fun m k => Some (Rdec m k) |}.

(** ** Statements of the specification *)

Section Specification.

Context {T : Type} {SC : Scalar T} {CST : Constants T} {BE : Backend SC}.
Local Open Scope scalar_scope.
Local Open Scope mat_scope.

(** The left Jacobian of the exponential map, as the module computes it in
    each mode, and what [manifoldMinusAndJacobian] stores in [J_logm]. *)
Definition leftJacobian (approximate : bool) (eps : Vec T 6) : Mat T 6 6 :=
  if approximate then SE3ApproxLeftJacobian eps
  else SE3LeftJacobian eps (dec 1 4).

Definition inverseLeftJacobian (approximate : bool) (eps : Vec T 6) : Mat T 6 6 :=
  if approximate then SE3ApproxInvLeftJacobian eps
  else inverse6 (SE3LeftJacobian eps (dec 1 4)).

(** Interpolation as section 4.6 words it, for a given Jacobian [J]:
    [eps = minus(T_kp1, T_k)],
    [Delta = hat_block twist_k + candle_block1 eps + candle_block2 J(eps) twist_kp1],
    result [plus(T_k, Delta)]. *)
Definition interpolate_with (J : Vec T 6 -> Mat T 6 6) (approximate approx : bool)
    (T_k T_kp1 : Transformation) (twist_k twist_kp1 : Vec T 6) (hat candle : Mat T 6 12)
  : result Transformation :=
  eps <- manifoldMinus approximate T_kp1 T_k ;;
  let Delta :=
    block 6 6 0 6 hat *v twist_k +v block 6 6 0 0 candle *v eps
    +v block 6 6 0 6 candle *m J eps *v twist_kp1 in
  Ok (manifoldPlus approx T_k Delta).

(** The adjoint representation as section 4.4 words it,
    [[[R, 0], [skew3(t) R, R]]], given block by block. *)
Definition adjoint_blocks (A : Transformation) : Mat T 6 6 :=
  let R := getRotationMatrix A in
  let tR := skewSymmetric3 (getTranslation A) *m R in
  mtab 6 6 (fun i j =>
    match i <? 3, j <? 3 with
    | true, true => coeff R i j
    | true, false => zero
    | false, true => coeff tR (i - 3) j
    | false, false => coeff R (i - 3) (j - 3)
    end).

(** The right Jacobian that [composeAndJacobian] writes, whatever the
    output arguments held. *)
Definition compose_J_right (A B : Transformation) : Mat T 6 6 :=
  snd (composeAndJacobian A B (mzero 6 6) (mzero 6 6)).

(** [manifoldMinusAndJacobian] as the claim words its right Jacobian: the
    inverse left Jacobian times the Jacobian of [compose(A, inverse(B))] with
    respect to the right operand of that composition. *)
Definition minus_J_right_claimed (approximate : bool) (A B : Transformation)
  : result (Mat T 6 6) :=
  Binv <- inverse B ;;
  let d := logMap approximate (compose A Binv) logMap_default_tolerance in
  Ok (inverseLeftJacobian approximate d *m compose_J_right A Binv).

(** The same with the chain rule through the inversion of [B]. *)
Definition minus_J_right_chain (approximate : bool) (A B : Transformation)
  : result (Mat T 6 6) :=
  r <- inverseAndJacobian B (mzero 6 6) ;;
  let '(Binv, J_inv) := r in
  let d := logMap approximate (compose A Binv) logMap_default_tolerance in
  Ok (inverseLeftJacobian approximate d *m (compose_J_right A Binv *m J_inv)).

End Specification.

(** ** Real vectors and rotations *)

Local Open Scope R_scope.

Definition v3 (x y z : R) : Vec R 3 := (x, (y, (z, tt))).

Definition cross (a b : Vec R 3) : Vec R 3 :=
  v3 (vcoeff a 1 * vcoeff b 2 - vcoeff a 2 * vcoeff b 1)
     (vcoeff a 2 * vcoeff b 0 - vcoeff a 0 * vcoeff b 2)
     (vcoeff a 0 * vcoeff b 1 - vcoeff a 1 * vcoeff b 0).

Definition scale3 (s : R) (a : Vec R 3) : Vec R 3 :=
  v3 (s * vcoeff a 0) (s * vcoeff a 1) (s * vcoeff a 2).

Definition normSq3 (a : Vec R 3) : R :=
  vcoeff a 0 * vcoeff a 0 + vcoeff a 1 * vcoeff a 1 + vcoeff a 2 * vcoeff a 2.

(** [x + p (w x x) + q (w x (w x x))]: the operator [I + p [w] + q [w]^2]
    applied to [x]. *)
Definition kop (p q : R) (w x : Vec R 3) : Vec R 3 :=
  let y := cross w x in
  let z := cross w y in
  v3 (vcoeff x 0 + p * vcoeff y 0 + q * vcoeff z 0)
     (vcoeff x 1 + p * vcoeff y 1 + q * vcoeff z 1)
     (vcoeff x 2 + p * vcoeff y 2 + q * vcoeff z 2).

(** [I + A [w] + B [w]^2]. *)
Definition rodrigues (A B : R) (w : Vec R 3) : Mat R 3 3 :=
  let w0 := vcoeff w 0 in
  let w1 := vcoeff w 1 in
  let w2 := vcoeff w 2 in
  ((1 - B * (w1 * w1 + w2 * w2), (B * w0 * w1 - A * w2, (B * w0 * w2 + A * w1, tt))),
   ((B * w0 * w1 + A * w2, (1 - B * (w0 * w0 + w2 * w2), (B * w1 * w2 - A * w0, tt))),
    ((B * w0 * w2 - A * w1, (B * w1 * w2 + A * w0, (1 - B * (w0 * w0 + w1 * w1), tt))),
     tt))).

(** The vector of the antisymmetric part [M - M^T]. *)
Definition vee (M : Mat R 3 3) : Vec R 3 :=
  v3 (coeff M 2 1 - coeff M 1 2) (coeff M 0 2 - coeff M 2 0) (coeff M 1 0 - coeff M 0 1).

(** A transformation from its two blocks and a twist from its two halves. *)
Definition mkT (M : Mat R 3 3) (t : Vec R 3) : Mat R 3 4 :=
  setColBlock 0 3 t (setBlock 0 0 M (mzero 3 4)).
Definition mkTwist (w v : Vec R 3) : Vec R 6 :=
  setSegment 3 v (setSegment 0 w (vzero 6)).

(** The coefficient of [skew * skew] in [Vinv] of [logMap]. *)
Definition logQ (th : R) : R :=
  1 / (th * th) * (1 - 1 / (4 * (th / (2 * sin th)) * ((1 - cos th) / (th * th)))).

(** A valid rotation block: orthonormal with determinant [+1]. *)
Definition isRotation (M : Mat R 3 3) : Prop :=
  mmul M (transpose M) = identity 3 /\ determinant M = 1.

(** The rotation angle that [logMap] reads off a rotation block [M]. *)
Definition cosAngle (M : Mat R 3 3) : R := (trace M - 1) / 2.
Definition angle (M : Mat R 3 3) : R := acos (cosAngle M).

(** ** Coefficients of the two maps in exact mode

    [expMap] builds [I + A [w] + B [w]^2] and [I + B [w] + C [w]^2] from
    three coefficients, [logMap] scales [R - R^T] by a coefficient and
    builds [Vinv = I - 1/2 skew + Q skew^2]; each coefficient has a closed
    form above the tolerance and a series at or below it. *)
Definition expA (th tol : R) : R :=
  if Rgtb th tol then sin th / th
  else Rdec 10 1 - Rdec 16666666666666667 17 * (th * th)
       + Rdec 833333333333333333 20 * (th * th * th * th).
Definition expB (th tol : R) : R :=
  if Rgtb th tol then (1 - cos th) / (th * th)
  else Rdec 5 1 - Rdec 4166666666666666667 20 * (th * th)
       + Rdec 138888888888888888889 23 * (th * th * th * th).
Definition expC (th tol : R) : R :=
  if Rgtb th tol then (1 - sin th / th) / (th * th)
  else Rdec 16666666666666667 17 - Rdec 833333333333333333 20 * (th * th)
       + Rdec 1984126984126984 19 * (th * th * th * th).
Definition logA (th tol : R) : R :=
  if Rgtb th tol then th / (2 * sin th)
  else Rdec 5 1 + th * th / Rdec 120 1 + th * th * th * th * (Rdec 70 1 / Rdec 7200 1).
Definition logV (th tol : R) : R :=
  if Rgtb th tol then logQ th else 0.

(** The Frobenius norm of a 3x3 matrix. *)
Definition frobenius (M : Mat R 3 3) : R := sqrt (trace (mmul M (transpose M))).

(** ** Concrete inputs *)

Definition diag3 (a b c : R) : Mat R 3 3 :=
  ((a, (0, (0, tt))), ((0, (b, (0, tt))), ((0, (0, (c, tt))), tt))).

(** Quarter turn about the z axis. *)
Definition rotZ90 : Mat R 3 3 :=
  ((0, (-1, (0, tt))), ((1, (0, (0, tt))), ((0, (0, (1, tt))), tt))).

(** Half turn about the x axis. *)
Definition rotX180 : Mat R 3 3 := diag3 1 (-1) (-1).

Definition T_identity : Mat R 3 4 := mkT (identity 3) (v3 0 0 0).
Definition T_halfTurn : Mat R 3 4 := mkT rotX180 (v3 0 0 0).
Definition T_quarterTurn : Mat R 3 4 := mkT rotZ90 (v3 1 2 3).
Definition T_shift : Mat R 3 4 := mkT (identity 3) (v3 1 0 0).
Definition T_shrunk : Mat R 3 4 := mkT (diag3 (1 / 2) 1 1) (v3 0 0 0).
Definition T_stretched : Mat R 3 4 := mkT (diag3 (11 / 10) (11 / 10) (11 / 10)) (v3 0 0 0).
Definition T_overturned : Mat R 3 4 := mkT (diag3 (-11 / 10) (-11 / 10) 1) (v3 0 0 0).

Definition twist_zero : Vec R 6 := mkTwist (v3 0 0 0) (v3 0 0 0).
Definition twist_ey : Vec R 6 := mkTwist (v3 0 1 0) (v3 0 0 0).
Definition twist_ex : Vec R 6 := mkTwist (v3 1 0 0) (v3 0 0 0).

(** Interpolation weights: [hat] is zero; [candle] has the single entry
    [candle(5, 11) = 1], so that [candle.block<6,6>(0,6)] selects the last
    coordinate. *)
Definition hat_zero : Mat R 6 12 := mzero 6 12.
Definition candle_last : Mat R 6 12 :=
  mtab 6 12 (fun i j => if Nat.eqb i 5 && Nat.eqb j 11 then 1 else 0).

(** Constants and backend for the closed statements below.  The results
    stated with them hold for every choice (the lemmas they rest on are proved
    for all constants and backends): the backend is not reached in approximate
    mode, and the tolerances do not change the branches taken. *)
Definition some_constants : Constants R :=
  {| TOL := Rdec 1 5; logMap_default_tolerance := Rdec 1 4 |}.
Definition some_backend : Backend RScalar :=
  {| inverse6 := fun M => M; inverse3 := fun M => M; sqrt3 := fun M => M |}.

Definition x_constants : Constants xreal :=
  {| TOL := Some (Rdec 1 5); logMap_default_tolerance := Some (Rdec 1 4) |}.
Definition x_twist_nan : Vec xreal 6 :=
  (None, (Some 0, (Some 0, (Some 0, (Some 0, (Some 0, tt)))))).
Definition x_twist_zero : Vec xreal 6 :=
  (Some 0, (Some 0, (Some 0, (Some 0, (Some 0, (Some 0, tt)))))).

(** ** Further functions of the class *)

Section MoreTransformation.

Context {T : Type} {SC : Scalar T} {CST : Constants T} {BE : Backend SC}.
Local Open Scope nat_scope.
Local Open Scope scalar_scope.
Local Open Scope mat_scope.

Definition vsub {n} (u v : Vec T n) : Vec T n :=
  vtabulate n (fun i => vcoeff u i - vcoeff v i).

(** [transform(input_vector)]. *)
Definition transform (self : Transformation) (input_vector : Vec T 3) : Vec T 3 :=
  block 3 3 0 0 self *v input_vector +v colBlock 3 0 3 self.

(** [transformAndJacobian]: the point and [(Jpoint, Jparam)]. *)
Definition transformAndJacobian (self : Transformation) (input_vector : Vec T 3)
    (Jpoint : Mat T 3 3) (Jparam : Mat T 3 6) : Vec T 3 * Mat T 3 3 * Mat T 3 6 :=
  let retval := transform self input_vector in
  let Jpoint := block 3 3 0 0 self in
  let Tpdonut := mzero 3 6 in
  let Tpdonut := setBlock 0 0 (mopp (skewSymmetric3 retval)) Tpdonut in
  let Tpdonut := setBlock 0 3 (identity 3) Tpdonut in
  let Jparam := Tpdonut in
  (retval, Jpoint, Jparam).

(** [inverseTransform(input_vector)]. *)
Definition inverseTransform (self : Transformation) (input_vector : Vec T 3) : Vec T 3 :=
  vsub (transpose (block 3 3 0 0 self) *v input_vector)
       (transpose (block 3 3 0 0 self) *v colBlock 3 0 3 self).

(** [isNear(other, comparison_threshold)]. *)
Definition isNear (approximate : bool) (self other : Transformation)
    (comparison_threshold : T) : result bool :=
  diff <- manifoldMinus approximate self other ;;
  Ok (if norm diff >? comparison_threshold then false else true).

(** [adjointRep()].  The local [retval] is declared without initialiser and
    three of its four blocks are assigned; [uninitialized] is what the
    storage held. *)
Definition adjointRep (uninitialized : Mat T 6 6) (self : Transformation) : Mat T 6 6 :=
  let retval := uninitialized in
  let retval := setBlock 0 0 (block 3 3 0 0 self) retval in
  let retval := setBlock 3 3 (block 3 3 0 0 self) retval in
  let retval := setBlock 3 0
    (skewSymmetric3 (colBlock 3 0 3 self) *m block 3 3 0 0 self) retval in
  retval.

(** [Jinterpolated(twist, alpha, retval)]. *)
Definition Jinterpolated (twist : Vec T 6) (alpha : T) (retval : Mat T 6 6) : Mat T 6 6 :=
  (* 3rd order approximation *)
  let A := (alpha * (alpha - dec 10 1)) * dec 5 1 in
  let B := (alpha * (alpha - dec 10 1) * (dec 20 1 * alpha - dec 10 1))
           * dec 833333333333333333 19 in
  let C := (alpha * alpha * (alpha - dec 1 0) * (alpha - dec 10 1))
           * dec 416666666666666667 19 in
  let adjoint := Adjoint twist (mzero 6 6) in
  alpha *: identity 6 +m A *: adjoint +m B *: adjoint *m adjoint
    +m C *: adjoint *m adjoint *m adjoint.

(** [J_lift(retval)]. *)
Definition J_lift (self : Transformation) (retval : Mat T 12 6) : Mat T 12 6 :=
  let retval := mzero 12 6 in
  let retval := setCoeff 0 1 (coeff self 2 0) retval in
  let retval := setCoeff 0 2 (- coeff self 1 0) retval in
  let retval := setCoeff 1 0 (- coeff self 2 0) retval in
  let retval := setCoeff 1 2 (coeff self 0 0) retval in
  let retval := setCoeff 2 0 (coeff self 1 0) retval in
  let retval := setCoeff 2 1 (- coeff self 0 0) retval in
  let retval := setCoeff 3 1 (coeff self 2 1) retval in
  let retval := setCoeff 3 2 (- coeff self 1 1) retval in
  let retval := setCoeff 4 0 (- coeff self 2 1) retval in
  let retval := setCoeff 4 2 (coeff self 0 1) retval in
  let retval := setCoeff 5 0 (coeff self 1 1) retval in
  let retval := setCoeff 5 1 (- coeff self 0 1) retval in
  let retval := setCoeff 6 1 (coeff self 2 2) retval in
  let retval := setCoeff 6 2 (- coeff self 1 2) retval in
  let retval := setCoeff 7 0 (- coeff self 2 2) retval in
  let retval := setCoeff 7 2 (coeff self 0 2) retval in
  let retval := setCoeff 8 0 (coeff self 1 2) retval in
  let retval := setCoeff 8 1 (- coeff self 0 2) retval in
  let retval := setCoeff 9 1 (coeff self 2 3) retval in
  let retval := setCoeff 9 2 (- coeff self 1 3) retval in
  let retval := setCoeff 10 0 (- coeff self 2 3) retval in
  let retval := setCoeff 10 2 (coeff self 0 3) retval in
  let retval := setCoeff 11 0 (coeff self 1 3) retval in
  let retval := setCoeff 11 1 (- coeff self 0 3) retval in
  let retval := setCoeff 9 3 (dec 1 0) retval in
  let retval := setCoeff 10 4 (dec 1 0) retval in
  let retval := setCoeff 11 5 (dec 1 0) retval in
  retval.

(** [expMapAdjoint(W, TOL)]. *)
Definition expMapAdjoint (W : Vec T 6) (TOL : T) : Mat T 6 6 :=
  let wn := norm (segment 3 0 W) in
  let skew := skewSymmetric6 W in
  let s := fsin wn in
  let c := fcos wn in
  if wn >? TOL then
    let A := (dec 30 1 * s - wn * c) / (dec 20 1 * wn) in
    let B := (dec 40 1 - wn * s - dec 40 1 * c) / (dec 20 1 * wn * wn) in
    let C := (s - wn * c) / (dec 20 1 * wn * wn * wn) in
    let D := (dec 20 1 - wn * s - dec 20 1 * c) / (dec 20 1 * wn * wn * wn * wn) in
    identity 6 +m A *: skew +m B *: skew *m skew +m C *: skew *m skew *m skew
      +m D *: skew *m skew *m skew *m skew
  else
    (* Fudge it *)
    identity 6 +m skew.

(** The matrix [bsfactor] of [interpolateAndJacobians], filled row by row. *)
Definition bsfactor (eps twist_kp1 : Vec T 6) : Mat T 6 6 :=
  (((vcoeff eps 1 * vcoeff twist_kp1 1) * dec 8333333333333333333 20 + (vcoeff eps 2 * vcoeff twist_kp1 2) * dec 8333333333333333333 20,
       ((vcoeff eps 0 * vcoeff twist_kp1 1) * dec 8333333333333333333 20 - vcoeff twist_kp1 2 * dec 5 1 - (vcoeff eps 1 * vcoeff twist_kp1 0) * dec 1666666666666666666666 22,
       (vcoeff twist_kp1 1 * dec 5 1 + (vcoeff eps 0 * vcoeff twist_kp1 2) * dec 8333333333333333333 20 - (vcoeff eps 2 * vcoeff twist_kp1 0) * dec 1666666666666666666666 22,
       (zero,
       (zero,
       (zero,
       tt)))))),
       ((vcoeff twist_kp1 2 * dec 5 1 - (vcoeff eps 0 * vcoeff twist_kp1 1) * dec 1666666666666666666666 22 + (vcoeff eps 1 * vcoeff twist_kp1 0) * dec 8333333333333333333 20,
       ((vcoeff eps 0 * vcoeff twist_kp1 0) * dec 8333333333333333333 20 + (vcoeff eps 2 * vcoeff twist_kp1 2) * dec 8333333333333333333 20,
       ((vcoeff eps 1 * vcoeff twist_kp1 2) * dec 8333333333333333333 20 - vcoeff twist_kp1 0 * dec 5 1 - (vcoeff eps 2 * vcoeff twist_kp1 1) * dec 1666666666666666666666 22,
       (zero,
       (zero,
       (zero,
       tt)))))),
       (((vcoeff eps 2 * vcoeff twist_kp1 0) * dec 8333333333333333333 20 - (vcoeff eps 0 * vcoeff twist_kp1 2) * dec 1666666666666666666666 22 - vcoeff twist_kp1 1 * dec 5 1,
       (vcoeff twist_kp1 0 * dec 5 1 - (vcoeff eps 1 * vcoeff twist_kp1 2) * dec 1666666666666666666666 22 + (vcoeff eps 2 * vcoeff twist_kp1 1) * dec 8333333333333333333 20,
       ((vcoeff eps 0 * vcoeff twist_kp1 0) * dec 8333333333333333333 20 + (vcoeff eps 1 * vcoeff twist_kp1 1) * dec 8333333333333333333 20,
       (zero,
       (zero,
       (zero,
       tt)))))),
       (((vcoeff eps 1 * vcoeff twist_kp1 4) * dec 8333333333333333333 20 + (vcoeff eps 4 * vcoeff twist_kp1 1) * dec 8333333333333333333 20 + (vcoeff eps 2 * vcoeff twist_kp1 5) * dec 8333333333333333333 20 + (vcoeff eps 5 * vcoeff twist_kp1 2) * dec 8333333333333333333 20,
       ((vcoeff eps 0 * vcoeff twist_kp1 4) * dec 8333333333333333333 20 - vcoeff twist_kp1 5 * dec 5 1 - (vcoeff eps 1 * vcoeff twist_kp1 3) * dec 1666666666666666666666 22 + (vcoeff eps 3 * vcoeff twist_kp1 1) * dec 8333333333333333333 20 - (vcoeff eps 4 * vcoeff twist_kp1 0) * dec 1666666666666666666666 22,
       (vcoeff twist_kp1 4 * dec 5 1 + (vcoeff eps 0 * vcoeff twist_kp1 5) * dec 8333333333333333333 20 - (vcoeff eps 2 * vcoeff twist_kp1 3) * dec 1666666666666666666666 22 + (vcoeff eps 3 * vcoeff twist_kp1 2) * dec 8333333333333333333 20 - (vcoeff eps 5 * vcoeff twist_kp1 0) * dec 1666666666666666666666 22,
       ((vcoeff eps 1 * vcoeff twist_kp1 1) * dec 8333333333333333333 20 + (vcoeff eps 2 * vcoeff twist_kp1 2) * dec 8333333333333333333 20,
       ((vcoeff eps 0 * vcoeff twist_kp1 1) * dec 8333333333333333333 20 - vcoeff twist_kp1 2 * dec 5 1 - (vcoeff eps 1 * vcoeff twist_kp1 0) * dec 1666666666666666666666 22,
       (vcoeff twist_kp1 1 * dec 5 1 + (vcoeff eps 0 * vcoeff twist_kp1 2) * dec 8333333333333333333 20 - (vcoeff eps 2 * vcoeff twist_kp1 0) * dec 1666666666666666666666 22,
       tt)))))),
       ((vcoeff twist_kp1 5 * dec 5 1 - (vcoeff eps 0 * vcoeff twist_kp1 4) * dec 1666666666666666666666 22 + (vcoeff eps 1 * vcoeff twist_kp1 3) * dec 8333333333333333333 20 - (vcoeff eps 3 * vcoeff twist_kp1 1) * dec 1666666666666666666666 22 + (vcoeff eps 4 * vcoeff twist_kp1 0) * dec 8333333333333333333 20,
       ((vcoeff eps 0 * vcoeff twist_kp1 3) * dec 8333333333333333333 20 + (vcoeff eps 3 * vcoeff twist_kp1 0) * dec 8333333333333333333 20 + (vcoeff eps 2 * vcoeff twist_kp1 5) * dec 8333333333333333333 20 + (vcoeff eps 5 * vcoeff twist_kp1 2) * dec 8333333333333333333 20,
       ((vcoeff eps 1 * vcoeff twist_kp1 5) * dec 8333333333333333333 20 - vcoeff twist_kp1 3 * dec 5 1 - (vcoeff eps 2 * vcoeff twist_kp1 4) * dec 1666666666666666666666 22 + (vcoeff eps 4 * vcoeff twist_kp1 2) * dec 8333333333333333333 20 - (vcoeff eps 5 * vcoeff twist_kp1 1) * dec 1666666666666666666666 22,
       (vcoeff twist_kp1 2 * dec 5 1 - (vcoeff eps 0 * vcoeff twist_kp1 1) * dec 1666666666666666666666 22 + (vcoeff eps 1 * vcoeff twist_kp1 0) * dec 8333333333333333333 20,
       ((vcoeff eps 0 * vcoeff twist_kp1 0) * dec 8333333333333333333 20 + (vcoeff eps 2 * vcoeff twist_kp1 2) * dec 8333333333333333333 20,
       ((vcoeff eps 1 * vcoeff twist_kp1 2) * dec 8333333333333333333 20 - vcoeff twist_kp1 0 * dec 5 1 - (vcoeff eps 2 * vcoeff twist_kp1 1) * dec 1666666666666666666666 22,
       tt)))))),
       (((vcoeff eps 2 * vcoeff twist_kp1 3) * dec 8333333333333333333 20 - (vcoeff eps 0 * vcoeff twist_kp1 5) * dec 1666666666666666666666 22 - vcoeff twist_kp1 4 * dec 5 1 - (vcoeff eps 3 * vcoeff twist_kp1 2) * dec 1666666666666666666666 22 + (vcoeff eps 5 * vcoeff twist_kp1 0) * dec 8333333333333333333 20,
       (vcoeff twist_kp1 3 * dec 5 1 - (vcoeff eps 1 * vcoeff twist_kp1 5) * dec 1666666666666666666666 22 + (vcoeff eps 2 * vcoeff twist_kp1 4) * dec 8333333333333333333 20 - (vcoeff eps 4 * vcoeff twist_kp1 2) * dec 1666666666666666666666 22 + (vcoeff eps 5 * vcoeff twist_kp1 1) * dec 8333333333333333333 20,
       ((vcoeff eps 0 * vcoeff twist_kp1 3) * dec 8333333333333333333 20 + (vcoeff eps 3 * vcoeff twist_kp1 0) * dec 8333333333333333333 20 + (vcoeff eps 1 * vcoeff twist_kp1 4) * dec 8333333333333333333 20 + (vcoeff eps 4 * vcoeff twist_kp1 1) * dec 8333333333333333333 20,
       ((vcoeff eps 2 * vcoeff twist_kp1 0) * dec 8333333333333333333 20 - (vcoeff eps 0 * vcoeff twist_kp1 2) * dec 1666666666666666666666 22 - vcoeff twist_kp1 1 * dec 5 1,
       (vcoeff twist_kp1 0 * dec 5 1 - (vcoeff eps 1 * vcoeff twist_kp1 2) * dec 1666666666666666666666 22 + (vcoeff eps 2 * vcoeff twist_kp1 1) * dec 8333333333333333333 20,
       ((vcoeff eps 0 * vcoeff twist_kp1 0) * dec 8333333333333333333 20 + (vcoeff eps 1 * vcoeff twist_kp1 1) * dec 8333333333333333333 20,
       tt)))))),
       tt)))))).

(** [interpolateAndJacobians<approx>(...)]: the pose and
    [(J_Tk, J_Tkp1, J_twist_k, J_twist_kp1)].  [approximate] is the mode of the
    class in which the function is called, [approximate_other] the mode of
    the operands, [approx] the mode of the returned object. *)
Definition interpolateAndJacobians (approximate approximate_other approx : bool)
    (T_k T_kp1 : Transformation) (twist_k twist_kp1 : Vec T 6) (hat candle : Mat T 6 12)
  : result (Transformation * (Mat T 6 6 * Mat T 6 6 * Mat T 6 6 * Mat T 6 6)) :=
  let retval := Transformation_default in
  r <- manifoldMinusAndJacobian approximate_other T_kp1 T_k ;;
  let '(eps, J_left, J_right) := r in
  retval <- setFromMatrix retval (getMatrix T_k) ;;
  let increment :=
    block 6 6 0 6 hat *v twist_k +v block 6 6 0 0 candle *v eps
    +v block 6 6 0 6 candle *m J_left *v twist_kp1 in
  let T_inc := Transformation_default in
  T_inc <- setFromExpMap approx T_inc increment ;;
  let '(retval, J_comp_left, J_comp_right) :=
    composeAndJacobian T_inc T_k (mzero 6 6) (mzero 6 6) in
  let Jexp :=
    if approximate then SE3ApproxLeftJacobian increment
    else SE3LeftJacobian increment (dec 1 4) in
  let bsfactor := bsfactor eps twist_kp1 in
  let J_Tk :=
    Jexp *m (block 6 6 0 0 candle *m J_right +m block 6 6 0 6 candle *m bsfactor *m J_right)
    +m J_comp_right in
  let J_Tkp1 :=
    Jexp *m (block 6 6 0 0 candle *m J_left +m block 6 6 0 6 candle *m bsfactor *m J_left) in
  let J_twist_k := Jexp *m block 6 6 0 6 hat in
  let J_twist_kp1 := Jexp *m block 6 6 0 6 candle *m J_left in
  Ok (retval, (J_Tk, J_Tkp1, J_twist_k, J_twist_kp1)).

(** The twelve entries of the stored matrix, column after column. *)
Definition columnMajor (t : Transformation) : Vec T 12 :=
  vtabulate 12 (fun k => coeff t (Nat.modulo k 3) (Nat.div k 3)).

End MoreTransformation.

(** ** The factor of the optimization examples

    Source: wave_optimization/tests/factor_graph/example_instances.hpp
    ([DistanceToLandmarkFactor::evaluate]).  A [Pose2D] views three values
    (position, then orientation), a [Landmark2D] two; an output Jacobian is
    written only when the caller asked for it. *)

Section DistanceFactor.

Context {T : Type} {SC : Scalar T}.
Local Open Scope nat_scope.
Local Open Scope scalar_scope.
Local Open Scope mat_scope.

Definition Pose2D_position (pose : Vec T 3) : Vec T 2 := segment 2 0 pose.
Definition Pose2D_orientation (pose : Vec T 3) : Vec T 1 := segment 1 2 pose.
Definition Landmark2D_position (landmark : Vec T 2) : Vec T 2 := segment 2 0 landmark.

Definition evaluate (meas : T) (pose : Vec T 3) (landmark : Vec T 2)
    (j_pose_requested j_landmark_requested : bool)
  : bool * Vec T 1 * option (Vec T 3) * option (Vec T 2) :=
  let diff := vsub (Pose2D_position pose) (Landmark2D_position landmark) in
  let distance := norm diff in
  let residual : Vec T 1 := (distance - meas, tt) in
  (* For each jacobian, check that optimizer requested it *)
  let j_pose :=
    if j_pose_requested
    then Some ((vcoeff diff 0 / distance, (vcoeff diff 1 / distance, (zero, tt))) : Vec T 3)
    else None in
  let j_landmark :=
    if j_landmark_requested
    then Some ((vcoeff diff 0 / distance, (vcoeff diff 1 / distance, tt)) : Vec T 2)
    else None in
  (true, residual, j_pose, j_landmark).

End DistanceFactor.

(** ** Further real definitions *)

(** The generator [delta^] of a twist applied to a transformation:
    [[skew3(w) R, skew3(w) t + v]]. *)
Definition hatTimes (delta : Vec R 6) (t : Mat R 3 4) : Mat R 3 4 :=
  mkT (mmul (skewSymmetric3 (segment 3 0 delta)) (getRotationMatrix t))
      (vadd (mvmul (skewSymmetric3 (segment 3 0 delta)) (getTranslation t))
            (segment 3 3 delta)).

(** The residual that [evaluate] writes, as a function of the pose
    [(x, y, th)] and of the landmark [(lx, ly)]. *)
Definition residual_at (meas x y th lx ly : R) : R :=
  vcoeff (snd (fst (fst (evaluate meas (x, (y, (th, tt))) (lx, (ly, tt)) false false)))) 0.

Definition x_pose : Vec xreal 3 := (Some 1, (Some 2, (Some 0, tt))).
Definition x_landmark : Vec xreal 2 := (Some 1, (Some 2, tt)).

(** * Properties *)

Unset Implicit Arguments.

(** Unfolding of the embedding down to the scalar operations. *)
Declare Reduction wave :=
  cbv beta iota zeta delta
    [ vec vtab vget vall Vec Mat vtabulate mtab vcoeff coeff vzero mzero identity
      madd msub mopp smul transpose vadd sum_acc sumn mmul mvmul trace squaredNorm norm
      det3_helper determinant inBlock block setBlock colBlock setColBlock segment
      setSegment setCoeff setVCoeff allFinite vallFinite
      Transformation getRotationMatrix getTranslation getMatrix setIdentity
      Transformation_default deepCopy checkMatrixFinite checkVectorFinite
      angleAxisX angleAxisY angleAxisZ setFromEulerXYZ setFromMatrix skewSymmetric3
      skewSymmetric6 Adjoint expMap setFromExpMap adjBlocks SE3LeftJacobian
      SE3ApproxLeftJacobian SE3ApproxInvLeftJacobian logMap_arg logMap_angle logMap_from
      logMap compose invert inverse manifoldPlus manifoldMinus J_comp_inv_blocks
      manifoldMinusAndJacobian composeAndJacobian inverseAndJacobian normalizeMaybe
      interpolate bind
      leftJacobian inverseLeftJacobian interpolate_with adjoint_blocks
      compose_J_right minus_J_right_claimed minus_J_right_chain
      zero one add sub mul div opp fsqrt fsin fcos facos gtb isFinite dec
      RScalar XScalar withAcos
      fst snd andb Nat.eqb Nat.leb Nat.ltb Nat.add Nat.sub ].

Ltac wave_unfold :=
  match goal with |- ?g => let g' := eval wave in g in change g' end.

Ltac wave_unfold_in H :=
  let t := type of H in let t' := eval wave in t in change t' in H.

Ltac destruct_T t :=
  let a := fresh t "00" in let b := fresh t "01" in let c := fresh t "02" in
  let d := fresh t "03" in let e := fresh t "10" in let f := fresh t "11" in
  let g := fresh t "12" in let h := fresh t "13" in let i := fresh t "20" in
  let j := fresh t "21" in let k := fresh t "22" in let l := fresh t "23" in
  destruct t as [[a [b [c [d []]]]] [[e [f [g [h []]]]] [[i [j [k [l []]]]] []]]].

(** ** Properties that hold in every scalar arithmetic *)

Section Generic.

Context {T : Type} {SC : Scalar T} {CST : Constants T} {BE : Backend SC}.
Local Open Scope nat_scope.
Local Open Scope scalar_scope.
Local Open Scope mat_scope.

Lemma vall_false_iff {A : Type} (p : A -> bool) (d : A) (n : nat) (v : vec A n) :
  vall p v = false <-> exists i, (i < n)%nat /\ p (vget d v i) = false.
Proof.
  induction n as [|n IH]; simpl.
  - split; [discriminate | intros [i [Hi _]]; lia].
  - destruct v as [a v]; simpl. rewrite andb_false_iff. split.
    + intros [Ha | Hv].
      * exists O. split; [lia | exact Ha].
      * apply IH in Hv. destruct Hv as [i [Hi Hp]]. exists (S i). split; [lia | exact Hp].
    + intros [[|i] [Hi Hp]].
      * left; exact Hp.
      * right. apply IH. exists i. split; [lia | exact Hp].
Qed.

Lemma vall_true_iff {A : Type} (p : A -> bool) (d : A) (n : nat) (v : vec A n) :
  vall p v = true <-> forall i, (i < n)%nat -> p (vget d v i) = true.
Proof.
  induction n as [|n IH]; simpl.
  - split; [intros _ i Hi; lia | reflexivity].
  - destruct v as [a v]; simpl. rewrite andb_true_iff. split.
    + intros [Ha Hv] [|i] Hi; [exact Ha | apply IH; [exact Hv | lia]].
    + intros H. split; [apply (H O); lia | apply IH; intros i Hi; apply (H (S i)); lia].
Qed.

Lemma vallFinite_false_iff n (v : Vec T n) :
  vallFinite v = false <-> exists i, (i < n)%nat /\ isFinite (vcoeff v i) = false.
Proof. apply vall_false_iff. Qed.

Lemma vallFinite_true_iff n (v : Vec T n) :
  vallFinite v = true <-> forall i, (i < n)%nat -> isFinite (vcoeff v i) = true.
Proof. apply vall_true_iff. Qed.

Lemma allFinite_false_iff r c (M : Mat T r c) :
  allFinite M = false <->
  exists i j, (i < r)%nat /\ (j < c)%nat /\ isFinite (coeff M i j) = false.
Proof.
  unfold allFinite. rewrite (vall_false_iff _ (vtab c (fun _ => zero))). split.
  - intros [i [Hi H]]. apply (vall_false_iff _ zero) in H. destruct H as [j [Hj H]].
    exists i, j. repeat split; assumption.
  - intros [i [j [Hi [Hj H]]]]. exists i. split; [exact Hi|].
    apply (vall_false_iff _ zero). exists j. split; assumption.
Qed.

Lemma allFinite_true_iff r c (M : Mat T r c) :
  allFinite M = true <->
  forall i j, (i < r)%nat -> (j < c)%nat -> isFinite (coeff M i j) = true.
Proof.
  unfold allFinite. rewrite (vall_true_iff _ (vtab c (fun _ => zero))). split.
  - intros H i j Hi Hj. specialize (H i Hi). rewrite (vall_true_iff _ zero) in H.
    apply H; exact Hj.
  - intros H i Hi. apply (vall_true_iff _ zero). intros j Hj. apply H; assumption.
Qed.

(** The write-only output arguments do not influence the results. *)
Lemma J_comp_inv_blocks_init (J0 J1 : Mat T 6 6) (self t T2inv : Transformation) :
  J_comp_inv_blocks J0 self t T2inv = J_comp_inv_blocks J1 self t T2inv.
Proof. reflexivity. Qed.

(** [manifoldPlus] is the composition with [exp(omega)] on the left. *)
Lemma manifoldPlus_compose (approximate : bool) (self : Transformation) (omega : Vec T 6) :
  manifoldPlus approximate self omega
  = compose (block 3 4 0 0 (expMap approximate omega TOL)) self.
Proof.
  destruct_T self. reflexivity.
Qed.

(** The twist returned by [manifoldMinusAndJacobian] is [manifoldMinus]. *)
Lemma manifoldMinusAndJacobian_twist (approximate : bool) (A B : Transformation) :
  bind (manifoldMinusAndJacobian approximate A B) (fun r => Ok (fst (fst r)))
  = manifoldMinus approximate A B.
Proof.
  unfold manifoldMinusAndJacobian, manifoldMinus.
  destruct (inverse B); reflexivity.
Qed.

(** C9. The two implementations of the [ad] operator agree: for every
    twist [W], [skewSymmetric6(W)], assembled from 3x3 skew blocks, is
    the matrix that [Adjoint(W, retval)] writes entry by entry, whatever
    [retval] held before. *)
Theorem skewSymmetric6_Adjoint_agree (W : Vec T 6) (retval : Mat T 6 6) :
  skewSymmetric6 W = Adjoint W retval.
Proof. reflexivity. Qed.

(** C6. For every pair of group elements [A], [B], the composition has
    rotation [A.R * B.R] and translation [A.R * B.t + A.t], and
    [composeAndJacobian] returns it with the identity as Jacobian with respect
    to the left operand and the adjoint representation of [A] (rotation on
    both diagonal blocks, [skew3(A.t) * A.R] in the lower-left block, zero
    upper-right block) as Jacobian with respect to the right operand. *)
Theorem compose_and_jacobians (A B : Transformation) (J_left J_right : Mat T 6 6) :
  getRotationMatrix (compose A B) = getRotationMatrix A *m getRotationMatrix B /\
  getTranslation (compose A B)
    = getRotationMatrix A *v getTranslation B +v getTranslation A /\
  composeAndJacobian A B J_left J_right = (compose A B, identity 6, adjoint_blocks A).
Proof.
  repeat split; reflexivity.
Qed.

(** [interpolate] in the terms of section 4.6. *)
Lemma interpolate_unfold (approximate approx : bool)
    (T_k T_kp1 : Transformation) (twist_k twist_kp1 : Vec T 6) (hat candle : Mat T 6 12) :
  interpolate approximate approx T_k T_kp1 twist_k twist_kp1 hat candle
  = interpolate_with (inverseLeftJacobian approximate) approximate approx
      T_k T_kp1 twist_k twist_kp1 hat candle.
Proof.
  unfold interpolate, interpolate_with, manifoldMinusAndJacobian, manifoldMinus.
  destruct (inverse T_k) as [tinv | e]; reflexivity.
Qed.

(** C1 (amended). [interpolate] computes [eps = minus(T_kp1, T_k)], forms
    [Delta = hat_block * twist_k + candle_block1 * eps
             + candle_block2 * J * twist_kp1]
    where [J] is the left-operand Jacobian output of
    [manifoldMinusAndJacobian], that is the inverse of the left Jacobian at
    [eps] (its second-order approximation in approximate mode), and returns
    [plus(T_k, Delta)]. *)
Theorem interpolate_inverse_left_jacobian (approximate approx : bool)
    (T_k T_kp1 : Transformation) (twist_k twist_kp1 : Vec T 6) (hat candle : Mat T 6 12) :
  interpolate approximate approx T_k T_kp1 twist_k twist_kp1 hat candle
  = (eps <- manifoldMinus approximate T_kp1 T_k ;;
     Ok (manifoldPlus approx T_k
           (block 6 6 0 6 hat *v twist_k +v block 6 6 0 0 candle *v eps
            +v block 6 6 0 6 candle *m inverseLeftJacobian approximate eps *v twist_kp1))).
Proof. apply interpolate_unfold. Qed.

(** C7. Each setter reports a precondition violation when an entry of its
    input is not finite, and succeeds on every finite input. *)
Theorem setters_check_finiteness (approximate : bool) (self : Transformation) :
  (forall eulers translation : Vec T 3,
     (exists i, (i < 3)%nat /\
        (isFinite (vcoeff eulers i) = false \/ isFinite (vcoeff translation i) = false)) ->
     setFromEulerXYZ self eulers translation = Err InvalidArgument) /\
  (forall eulers translation : Vec T 3,
     (forall i, (i < 3)%nat ->
        isFinite (vcoeff eulers i) = true /\ isFinite (vcoeff translation i) = true) ->
     exists t, setFromEulerXYZ self eulers translation = Ok t) /\
  (forall input_matrix : Mat T 4 4,
     (exists i j, (i < 4)%nat /\ (j < 4)%nat /\ isFinite (coeff input_matrix i j) = false) ->
     setFromMatrix self input_matrix = Err InvalidArgument) /\
  (forall input_matrix : Mat T 4 4,
     (forall i j, (i < 4)%nat -> (j < 4)%nat -> isFinite (coeff input_matrix i j) = true) ->
     exists t, setFromMatrix self input_matrix = Ok t) /\
  (forall se3_vector : Vec T 6,
     (exists i, (i < 6)%nat /\ isFinite (vcoeff se3_vector i) = false) ->
     setFromExpMap approximate self se3_vector = Err InvalidArgument) /\
  (forall se3_vector : Vec T 6,
     (forall i, (i < 6)%nat -> isFinite (vcoeff se3_vector i) = true) ->
     exists t, setFromExpMap approximate self se3_vector = Ok t).
Proof.
  repeat split.
  - intros eulers translation [i [Hi [H | H]]]; unfold setFromEulerXYZ, checkVectorFinite.
    + assert (He : vallFinite eulers = false)
        by (apply vallFinite_false_iff; exists i; split; assumption).
      rewrite He. reflexivity.
    + assert (Ht : vallFinite translation = false)
        by (apply vallFinite_false_iff; exists i; split; assumption).
      rewrite Ht. destruct (vallFinite eulers); reflexivity.
  - intros eulers translation H. unfold setFromEulerXYZ, checkVectorFinite.
    assert (He : vallFinite eulers = true)
      by (apply vallFinite_true_iff; intros i Hi; apply (H i Hi)).
    assert (Ht : vallFinite translation = true)
      by (apply vallFinite_true_iff; intros i Hi; apply (H i Hi)).
    rewrite He, Ht. simpl. eexists; reflexivity.
  - intros m H. unfold setFromMatrix, checkMatrixFinite.
    apply allFinite_false_iff in H. rewrite H. reflexivity.
  - intros m H. unfold setFromMatrix, checkMatrixFinite.
    assert (Hm : allFinite m = true) by (apply allFinite_true_iff; exact H).
    rewrite Hm. simpl. eexists; reflexivity.
  - intros v H. unfold setFromExpMap, checkVectorFinite.
    apply vallFinite_false_iff in H. rewrite H. reflexivity.
  - intros v H. unfold setFromExpMap, checkVectorFinite.
    apply vallFinite_true_iff in H. rewrite H. simpl. eexists; reflexivity.
Qed.

(** C8. When [(trace(R) - 1) / 2 > 1], [logMap] does not call [acos]: it
    uses the rotation angle zero, and its result is the same whatever
    [acos] would return. *)
Theorem logMap_upper_guard (approximate : bool) (self : Transformation) (tolerance : T) :
  (logMap_arg self >? dec 10 1) = true ->
  logMap_angle self = zero /\
  logMap approximate self tolerance = logMap_from approximate zero self tolerance /\
  forall f : T -> T,
    @logMap T (withAcos f SC) approximate self tolerance
    = logMap approximate self tolerance.
Proof.
  intros H.
  assert (Ha : logMap_angle self = zero) by (unfold logMap_angle; rewrite H; reflexivity).
  split; [exact Ha|]. split.
  - unfold logMap. rewrite Ha. reflexivity.
  - intros f. unfold logMap. rewrite Ha.
    assert (Hf : @logMap_angle T (withAcos f SC) self = zero).
    { change (@logMap_angle T (withAcos f SC) self)
        with (if logMap_arg self >? dec 10 1 then zero else f (logMap_arg self)).
      rewrite H. reflexivity. }
    rewrite Hf. change (@zero T (withAcos f SC)) with (@zero T SC).
    clear. destruct_T self. wave_unfold. reflexivity.
Qed.

End Generic.

(** ** Exact real arithmetic *)

Ltac aux_unfold :=
  unfold T_identity, T_halfTurn, T_quarterTurn, T_shift, T_shrunk, T_stretched,
    T_overturned, twist_zero, twist_ey, twist_ex, hat_zero, candle_last,
    rotZ90, rotX180, diag3, cosAngle, angle,
    mkT, mkTwist, vee, rodrigues, kop, normSq3, scale3, cross, v3 in *.

(** Decimal literals as quotients of integers. *)
Ltac dec_norm :=
  repeat match goal with
  | |- context [Rdec ?m ?k] =>
      let v := eval vm_compute in (10 ^ Z.of_nat k)%Z in
      change (Rdec m k) with (IZR m / IZR v)
  end.

Ltac tuple_eq :=
  repeat match goal with
  | |- (_, _) = (_, _) => apply f_equal2
  | |- tt = tt => reflexivity
  end.

Ltac destruct_vec3 v :=
  let a := fresh v "0" in let b := fresh v "1" in let c := fresh v "2" in
  destruct v as [a [b [c []]]].

Ltac destruct_mat3 M :=
  let a := fresh M "00" in let b := fresh M "01" in let c := fresh M "02" in
  let d := fresh M "10" in let e := fresh M "11" in let f := fresh M "12" in
  let g := fresh M "20" in let h := fresh M "21" in let i := fresh M "22" in
  destruct M as [[a [b [c []]]] [[d [e [f []]]] [[g [h [i []]]] []]]].

Lemma Rgtb_true (x y : R) : y < x -> Rgtb x y = true.
Proof. intros H; unfold Rgtb; destruct (Rlt_dec y x); [reflexivity | contradiction]. Qed.

Lemma Rgtb_false (x y : R) : x <= y -> Rgtb x y = false.
Proof. intros H; unfold Rgtb; destruct (Rlt_dec y x); [lra | reflexivity]. Qed.

Lemma Rdec_10_1 : Rdec 10 1 = 1.
Proof. unfold Rdec; simpl; lra. Qed.

Lemma Rdec_1_0 : Rdec 1 0 = 1.
Proof. unfold Rdec; simpl; lra. Qed.

Lemma Rdec_1_4 : Rdec 1 4 = 1 / 10000.
Proof. unfold Rdec; simpl; lra. Qed.

(** *** Matrix algebra in dimension three *)

Lemma mkT_blocks (t : Mat R 3 4) : mkT (getRotationMatrix t) (getTranslation t) = t.
Proof. destruct_T t. reflexivity. Qed.

Lemma getRotationMatrix_mkT (M : Mat R 3 3) (t : Vec R 3) : getRotationMatrix (mkT M t) = M.
Proof. destruct_mat3 M. destruct_vec3 t. reflexivity. Qed.

Lemma getTranslation_mkT (M : Mat R 3 3) (t : Vec R 3) : getTranslation (mkT M t) = t.
Proof. destruct_mat3 M. destruct_vec3 t. reflexivity. Qed.

Lemma mmul_assoc3 (A B C : Mat R 3 3) : mmul (mmul A B) C = mmul A (mmul B C).
Proof.
  destruct_mat3 A. destruct_mat3 B. destruct_mat3 C. wave_unfold. tuple_eq; ring.
Qed.

Lemma mmul_identity_r3 (A : Mat R 3 3) : mmul A (identity 3) = A.
Proof. destruct_mat3 A. wave_unfold. tuple_eq; ring. Qed.

Lemma transpose_mmul3 (A B : Mat R 3 3) :
  transpose (mmul A B) = mmul (transpose B) (transpose A).
Proof. destruct_mat3 A. destruct_mat3 B. wave_unfold. tuple_eq; ring. Qed.

Lemma transpose_transpose3 (A : Mat R 3 3) : transpose (transpose A) = A.
Proof. destruct_mat3 A. reflexivity. Qed.

Lemma determinant_mmul3 (A B : Mat R 3 3) :
  determinant (mmul A B) = determinant A * determinant B.
Proof. destruct_mat3 A. destruct_mat3 B. wave_unfold. ring. Qed.

Lemma determinant_transpose3 (A : Mat R 3 3) : determinant (transpose A) = determinant A.
Proof. destruct_mat3 A. wave_unfold. ring. Qed.

(** *** Rotations *)

Lemma rotation_equations (M : Mat R 3 3) :
  isRotation M ->
  coeff M 0 0 * coeff M 0 0 + coeff M 0 1 * coeff M 0 1 + coeff M 0 2 * coeff M 0 2 = 1 /\
  coeff M 0 0 * coeff M 1 0 + coeff M 0 1 * coeff M 1 1 + coeff M 0 2 * coeff M 1 2 = 0 /\
  coeff M 0 0 * coeff M 2 0 + coeff M 0 1 * coeff M 2 1 + coeff M 0 2 * coeff M 2 2 = 0 /\
  coeff M 1 0 * coeff M 1 0 + coeff M 1 1 * coeff M 1 1 + coeff M 1 2 * coeff M 1 2 = 1 /\
  coeff M 1 0 * coeff M 2 0 + coeff M 1 1 * coeff M 2 1 + coeff M 1 2 * coeff M 2 2 = 0 /\
  coeff M 2 0 * coeff M 2 0 + coeff M 2 1 * coeff M 2 1 + coeff M 2 2 * coeff M 2 2 = 1 /\
  coeff M 0 0 * (coeff M 1 1 * coeff M 2 2 - coeff M 1 2 * coeff M 2 1)
    - coeff M 0 1 * (coeff M 1 0 * coeff M 2 2 - coeff M 1 2 * coeff M 2 0)
    + coeff M 0 2 * (coeff M 1 0 * coeff M 2 1 - coeff M 1 1 * coeff M 2 0) = 1.
Proof.
  destruct_mat3 M. intros [Ho Hd]. wave_unfold_in Ho. wave_unfold_in Hd.
  wave_unfold.
  injection Ho as E00 E01 E02 E10 E11 E12 E20 E21 E22.
  repeat split; assumption.
Qed.

Section RotationIdentities.

Variables r00 r01 r02 r10 r11 r12 r20 r21 r22 : R.
Hypothesis H00 : r00 * r00 + r01 * r01 + r02 * r02 = 1.
Hypothesis H01 : r00 * r10 + r01 * r11 + r02 * r12 = 0.
Hypothesis H02 : r00 * r20 + r01 * r21 + r02 * r22 = 0.
Hypothesis H11 : r10 * r10 + r11 * r11 + r12 * r12 = 1.
Hypothesis H12 : r10 * r20 + r11 * r21 + r12 * r22 = 0.
Hypothesis H22 : r20 * r20 + r21 * r21 + r22 * r22 = 1.
Hypothesis Hdet : r00 * (r11 * r22 - r12 * r21) - r01 * (r10 * r22 - r12 * r20)
                  + r02 * (r10 * r21 - r11 * r20) = 1.

Lemma rot_col00 : r00 * r00 + r10 * r10 + r20 * r20 = 1.
Proof. solve [nsatz]. Qed.
Lemma rot_col01 : r00 * r01 + r10 * r11 + r20 * r21 = 0.
Proof. solve [nsatz]. Qed.
Lemma rot_col02 : r00 * r02 + r10 * r12 + r20 * r22 = 0.
Proof. solve [nsatz]. Qed.
Lemma rot_col11 : r01 * r01 + r11 * r11 + r21 * r21 = 1.
Proof. solve [nsatz]. Qed.
Lemma rot_col12 : r01 * r02 + r11 * r12 + r21 * r22 = 0.
Proof. solve [nsatz]. Qed.
Lemma rot_col22 : r02 * r02 + r12 * r12 + r22 * r22 = 1.
Proof. solve [nsatz]. Qed.

Lemma rot_norm_vee :
  (r21 - r12) * (r21 - r12) + (r02 - r20) * (r02 - r20) + (r10 - r01) * (r10 - r01)
  = (3 - (r00 + r11 + r22)) * (1 + (r00 + r11 + r22)).
Proof. solve [nsatz]. Qed.
Lemma rot_diag0 :
  (r02 - r20) * (r02 - r20) + (r10 - r01) * (r10 - r01)
  = 2 * (1 + (r00 + r11 + r22)) * (1 - r00).
Proof. solve [nsatz]. Qed.
Lemma rot_diag1 :
  (r21 - r12) * (r21 - r12) + (r10 - r01) * (r10 - r01)
  = 2 * (1 + (r00 + r11 + r22)) * (1 - r11).
Proof. solve [nsatz]. Qed.
Lemma rot_diag2 :
  (r21 - r12) * (r21 - r12) + (r02 - r20) * (r02 - r20)
  = 2 * (1 + (r00 + r11 + r22)) * (1 - r22).
Proof. solve [nsatz]. Qed.
Lemma rot_off01 : (r21 - r12) * (r02 - r20) = (1 + (r00 + r11 + r22)) * (r01 + r10).
Proof. solve [nsatz]. Qed.
Lemma rot_off02 : (r21 - r12) * (r10 - r01) = (1 + (r00 + r11 + r22)) * (r02 + r20).
Proof. solve [nsatz]. Qed.
Lemma rot_off12 : (r02 - r20) * (r10 - r01) = (1 + (r00 + r11 + r22)) * (r12 + r21).
Proof. solve [nsatz]. Qed.

End RotationIdentities.

Ltac rotation_facts M H :=
  let E := fresh "E" in
  pose proof (rotation_equations M H) as E;
  destruct_mat3 M; wave_unfold_in E;
  destruct E as (?E & ?E & ?E & ?E & ?E & ?E & ?E).

Ltac rotation_identities :=
  match goal with
  | E1 : _ = 1, E2 : _ = 0, E3 : _ = 0, E4 : _ = 1, E5 : _ = 0, E6 : _ = 1, E7 : _ = 1 |- _ =>
      pose proof (rot_col00 _ _ _ _ _ _ _ _ _ E1 E2 E3 E4 E5 E6 E7);
      pose proof (rot_col01 _ _ _ _ _ _ _ _ _ E1 E2 E3 E4 E5 E6 E7);
      pose proof (rot_col02 _ _ _ _ _ _ _ _ _ E1 E2 E3 E4 E5 E6 E7);
      pose proof (rot_col11 _ _ _ _ _ _ _ _ _ E1 E2 E3 E4 E5 E6 E7);
      pose proof (rot_col12 _ _ _ _ _ _ _ _ _ E1 E2 E3 E4 E5 E6 E7);
      pose proof (rot_col22 _ _ _ _ _ _ _ _ _ E1 E2 E3 E4 E5 E6 E7);
      pose proof (rot_norm_vee _ _ _ _ _ _ _ _ _ E1 E2 E3 E4 E5 E6 E7);
      pose proof (rot_diag0 _ _ _ _ _ _ _ _ _ E1 E2 E3 E4 E5 E6 E7);
      pose proof (rot_diag1 _ _ _ _ _ _ _ _ _ E1 E2 E3 E4 E5 E6 E7);
      pose proof (rot_diag2 _ _ _ _ _ _ _ _ _ E1 E2 E3 E4 E5 E6 E7);
      pose proof (rot_off01 _ _ _ _ _ _ _ _ _ E1 E2 E3 E4 E5 E6 E7);
      pose proof (rot_off02 _ _ _ _ _ _ _ _ _ E1 E2 E3 E4 E5 E6 E7);
      pose proof (rot_off12 _ _ _ _ _ _ _ _ _ E1 E2 E3 E4 E5 E6 E7)
  end.

(** Columns of a rotation are orthonormal too. *)
Lemma rotation_transpose_mmul (M : Mat R 3 3) :
  isRotation M -> mmul (transpose M) M = identity 3.
Proof.
  intros H. rotation_facts M H. rotation_identities. wave_unfold.
  tuple_eq; lra.
Qed.

Lemma isRotation_transpose (M : Mat R 3 3) : isRotation M -> isRotation (transpose M).
Proof.
  intros H. split.
  - rewrite transpose_transpose3. apply rotation_transpose_mmul. exact H.
  - rewrite determinant_transpose3. apply H.
Qed.

Lemma isRotation_mmul (A B : Mat R 3 3) :
  isRotation A -> isRotation B -> isRotation (mmul A B).
Proof.
  intros [HA HdA] [HB HdB]. split.
  - rewrite transpose_mmul3, mmul_assoc3, <- (mmul_assoc3 B), HB.
    replace (mmul (identity 3) (transpose A)) with (transpose A)
      by (destruct_mat3 A; wave_unfold; tuple_eq; ring).
    exact HA.
  - rewrite determinant_mmul3, HdA, HdB. ring.
Qed.

Lemma normSq3_vee (M : Mat R 3 3) :
  isRotation M -> normSq3 (vee M) = (3 - trace M) * (1 + trace M).
Proof.
  intros H. rotation_facts M H. aux_unfold. wave_unfold.
  rotation_identities. lra.
Qed.

Lemma rodrigues_vee (M : Mat R 3 3) :
  isRotation M -> 1 + trace M <> 0 ->
  rodrigues (1 / 2) (1 / (2 * (1 + trace M))) (vee M) = M.
Proof.
  intros H. rotation_facts M H. aux_unfold. wave_unfold. intros Hne.
  rotation_identities.
  tuple_eq.
  all: field_simplify_eq; [ lra | exact Hne ].
Qed.

(** *** Vector identities *)

Lemma mkTwist_segments (w : Vec R 6) : mkTwist (segment 3 0 w) (segment 3 3 w) = w.
Proof. destruct w as [w0 [w1 [w2 [w3 [w4 [w5 []]]]]]]. reflexivity. Qed.

Lemma norm_segment_mkTwist (w v : Vec R 3) :
  norm (segment 3 0 (mkTwist w v)) = sqrt (normSq3 w).
Proof. destruct_vec3 w. destruct_vec3 v. reflexivity. Qed.

Lemma normSq3_nonneg (w : Vec R 3) : 0 <= normSq3 w.
Proof. destruct_vec3 w. aux_unfold. wave_unfold. nra. Qed.

Lemma normSq3_scale (k : R) (d : Vec R 3) : normSq3 (scale3 k d) = k * k * normSq3 d.
Proof. destruct_vec3 d. aux_unfold. wave_unfold. ring. Qed.

Lemma scale3_scale3 (s1 s2 : R) (w : Vec R 3) :
  s1 * s2 = 1 -> scale3 s1 (scale3 s2 w) = w.
Proof.
  destruct_vec3 w. intros H. aux_unfold. wave_unfold. tuple_eq.
  all: rewrite <- Rmult_assoc, H; ring.
Qed.

Lemma vee_rodrigues (A B : R) (w : Vec R 3) : vee (rodrigues A B w) = scale3 (2 * A) w.
Proof. destruct_vec3 w. aux_unfold. wave_unfold. tuple_eq; ring. Qed.

Lemma trace_rodrigues (A B : R) (w : Vec R 3) :
  trace (rodrigues A B w) = 3 - 2 * B * normSq3 w.
Proof. destruct_vec3 w. aux_unfold. wave_unfold. ring. Qed.

Lemma rodrigues_scale (A B k : R) (d : Vec R 3) :
  rodrigues A B (scale3 k d) = rodrigues (A * k) (B * (k * k)) d.
Proof. destruct_vec3 d. aux_unfold. wave_unfold. tuple_eq; ring. Qed.

(** Two operators [I + p [w] + q [w]^2] with the same [w] are inverse to
    each other when their coefficients satisfy two equations; this uses
    [[w]^3 = - |w|^2 [w]]. *)
Lemma kop_kop (p1 q1 p2 q2 n2 : R) (w x : Vec R 3) :
  normSq3 w = n2 ->
  p1 + p2 - n2 * (p1 * q2 + q1 * p2) = 0 ->
  q1 + q2 + p1 * p2 - n2 * (q1 * q2) = 0 ->
  kop p1 q1 w (kop p2 q2 w x) = x.
Proof.
  destruct_vec3 w. destruct_vec3 x. aux_unfold. wave_unfold.
  intros Hn H1 H2. tuple_eq.
  all: solve [nsatz].
Qed.

(** The coefficients of [V] in [expMap] and of [Vinv] in [logMap] satisfy
    these equations. *)
Lemma V_Vinv_coefficients (th : R) :
  0 < th -> 0 < sin th -> cos th < 1 ->
  - (1 / 2) + (1 - cos th) / (th * th)
    - th * th * (- (1 / 2) * ((1 - sin th / th) / (th * th))
                 + logQ th * ((1 - cos th) / (th * th))) = 0 /\
  logQ th + (1 - sin th / th) / (th * th) + - (1 / 2) * ((1 - cos th) / (th * th))
    - th * th * (logQ th * ((1 - sin th / th) / (th * th))) = 0.
Proof.
  intros Hth Hs Hc. pose proof (sin2_cos2 th) as Hsc. unfold Rsqr in Hsc.
  unfold logQ.
  generalize dependent (sin th). generalize dependent (cos th). intros c Hc s Hs Hsc.
  split.
  - field. repeat split; lra.
  - field_simplify_eq; [ | repeat split; lra ].
    assert (Hs2 : s ^ 2 = 1 - c ^ 2) by (simpl; lra).
    rewrite Hs2. ring.
Qed.

(** *** Closed forms of the two maps in exact mode *)

Lemma expMap_exact_closed (w v : Vec R 3) (tol : R) :
  tol < sqrt (normSq3 w) ->
  block 3 4 0 0 (expMap false (mkTwist w v) tol) =
  mkT (rodrigues (sin (sqrt (normSq3 w)) / sqrt (normSq3 w))
                 ((1 - cos (sqrt (normSq3 w))) / (sqrt (normSq3 w) * sqrt (normSq3 w))) w)
      (kop ((1 - cos (sqrt (normSq3 w))) / (sqrt (normSq3 w) * sqrt (normSq3 w)))
           ((1 - sin (sqrt (normSq3 w)) / sqrt (normSq3 w))
            / (sqrt (normSq3 w) * sqrt (normSq3 w))) w v).
Proof.
  intros Htol.
  unfold expMap. rewrite norm_segment_mkTwist.
  set (th := sqrt (normSq3 w)) in *.
  change (@gtb R RScalar th tol) with (Rgtb th tol).
  rewrite (Rgtb_true _ _ Htol).
  cbv beta iota zeta. clearbody th.
  destruct_vec3 w. destruct_vec3 v. aux_unfold.
  wave_unfold. dec_norm.
  replace (10 / 10) with 1 by lra.
  tuple_eq; ring.
Qed.

Lemma logMap_arg_mkT (M : Mat R 3 3) (t : Vec R 3) : logMap_arg (mkT M t) = cosAngle M.
Proof.
  destruct_mat3 M. destruct_vec3 t. aux_unfold. wave_unfold. dec_norm. field.
Qed.

Lemma logMap_angle_mkT (M : Mat R 3 3) (t : Vec R 3) :
  cosAngle M <= 1 -> logMap_angle (mkT M t) = angle M.
Proof.
  intros H. unfold logMap_angle. rewrite logMap_arg_mkT.
  change (@gtb R RScalar (cosAngle M) (dec 10 1)) with (Rgtb (cosAngle M) (Rdec 10 1)).
  rewrite Rgtb_false by (unfold Rdec; simpl; lra).
  reflexivity.
Qed.

Lemma logMap_exact_closed (M : Mat R 3 3) (t : Vec R 3) (tol : R) :
  cosAngle M <= 1 -> tol < angle M ->
  logMap false (mkT M t) tol =
  mkTwist (scale3 (angle M / (2 * sin (angle M))) (vee M))
          (kop (- (1 / 2)) (logQ (angle M))
               (scale3 (angle M / (2 * sin (angle M))) (vee M)) t).
Proof.
  intros Hc Htol.
  unfold logMap. rewrite (logMap_angle_mkT M t Hc).
  set (th := angle M) in *. clearbody th.
  unfold logMap_from.
  change (@gtb R RScalar th tol) with (Rgtb th tol).
  rewrite (Rgtb_true _ _ Htol).
  cbv beta iota zeta. unfold logQ.
  destruct_mat3 M. destruct_vec3 t. aux_unfold.
  wave_unfold. dec_norm.
  replace (2 / 1) with 2 by lra. replace (1 / 1) with 1 by lra.
  replace (4 / 1) with 4 by lra.
  set (A := th / (2 * sin th)).
  set (Q := 1 / (th * th) * (1 - 1 / (4 * A * ((1 - cos th) / (th * th))))).
  clearbody A Q.
  tuple_eq; try ring; field.
Qed.

(** *** The two round trips *)

Lemma log_exp_exact (w v : Vec R 3) (tolE tolL : R) :
  0 < sqrt (normSq3 w) < PI -> tolE < sqrt (normSq3 w) -> tolL < sqrt (normSq3 w) ->
  logMap false (block 3 4 0 0 (expMap false (mkTwist w v) tolE)) tolL = mkTwist w v.
Proof.
  intros Hth HE HL.
  rewrite expMap_exact_closed by exact HE.
  set (th := sqrt (normSq3 w)) in *.
  assert (Hth2 : normSq3 w = th * th).
  { unfold th. symmetry. apply sqrt_def. apply normSq3_nonneg. }
  assert (Hs : 0 < sin th) by (apply sin_gt_0; lra).
  pose proof (sin2_cos2 th) as Hsc. unfold Rsqr in Hsc.
  assert (Hc : cos th < 1).
  { destruct (COS_bound th) as [_ Hle]. destruct Hle as [Hlt|Heq]; [exact Hlt|].
    rewrite Heq in Hsc. nra. }
  assert (Hcos : cosAngle (rodrigues (sin th / th) ((1 - cos th) / (th * th)) w) = cos th).
  { unfold cosAngle. rewrite trace_rodrigues, Hth2. field. lra. }
  assert (Hang : angle (rodrigues (sin th / th) ((1 - cos th) / (th * th)) w) = th).
  { unfold angle. rewrite Hcos. apply acos_cos. lra. }
  rewrite logMap_exact_closed; rewrite ?Hcos, ?Hang; try lra.
  rewrite vee_rodrigues.
  rewrite scale3_scale3 by (field; lra).
  f_equal.
  destruct (V_Vinv_coefficients th) as [E1 E2]; try lra.
  apply kop_kop with (n2 := th * th); [exact Hth2 | rewrite <- E1; ring | rewrite <- E2; ring].
Qed.

Lemma exp_log_exact (M : Mat R 3 3) (t : Vec R 3) (tolE tolL : R) :
  isRotation M -> -1 < cosAngle M < 1 -> tolL < angle M -> tolE < angle M ->
  block 3 4 0 0 (expMap false (logMap false (mkT M t) tolL) tolE) = mkT M t.
Proof.
  intros Hrot Hc HL HE.
  rewrite logMap_exact_closed by (lra || exact HL).
  remember (cosAngle M) as c eqn:Hcdef.
  assert (Hth : 0 < angle M < PI) by (unfold angle; rewrite <- Hcdef; apply acos_bound_lt; exact Hc).
  assert (Hcos : cos (angle M) = c) by (unfold angle; rewrite <- Hcdef; apply cos_acos; lra).
  set (th := angle M) in *. clearbody th.
  assert (Hs : 0 < sin th) by (apply sin_gt_0; lra).
  pose proof (sin2_cos2 th) as Hsc. unfold Rsqr in Hsc. rewrite Hcos in Hsc.
  assert (Htr : trace M = 2 * c + 1) by (rewrite Hcdef; unfold cosAngle; field).
  assert (Hs2 : sin th ^ 2 = 1 - c ^ 2) by (simpl; lra).
  set (a := scale3 (th / (2 * sin th)) (vee M)).
  assert (Hn : normSq3 a = th * th).
  { unfold a. rewrite normSq3_scale, normSq3_vee by exact Hrot. rewrite Htr.
    field_simplify_eq; [ | lra ]. rewrite Hs2. ring. }
  assert (Hsq : sqrt (normSq3 a) = th).
  { rewrite Hn. apply sqrt_square. lra. }
  rewrite expMap_exact_closed by (rewrite Hsq; exact HE).
  rewrite Hsq, Hcos.
  f_equal.
  - unfold a. rewrite rodrigues_scale.
    rewrite <- (rodrigues_vee M Hrot) at 2 by (rewrite Htr; lra).
    f_equal.
    + field. lra.
    + rewrite Htr. field_simplify_eq; [ | repeat split; lra ].
      rewrite Hs2. ring.
  - destruct (V_Vinv_coefficients th) as [E1 E2]; try lra.
    rewrite Hcos in E1, E2.
    apply kop_kop with (n2 := th * th); [ exact Hn | rewrite <- E1; ring | rewrite <- E2; ring ].
Qed.

Lemma angle_bounds (M : Mat R 3 3) : 0 < angle M < PI -> -1 < cosAngle M < 1.
Proof.
  unfold angle, acos. intros H.
  destruct (Rle_dec (cosAngle M) (-1)); [lra|].
  destruct (Rle_dec 1 (cosAngle M)); lra.
Qed.

(** The twist with no rotational part and the transformation with no
    rotation: both maps take their series branch and are exact there. *)
Lemma expMap_exact_zero (v : Vec R 3) (tol : R) :
  0 <= tol -> block 3 4 0 0 (expMap false (mkTwist (v3 0 0 0) v) tol) = mkT (identity 3) v.
Proof.
  intros Htol. unfold expMap. rewrite norm_segment_mkTwist.
  replace (normSq3 (v3 0 0 0)) with 0 by (aux_unfold; wave_unfold; ring).
  rewrite sqrt_0.
  change (@gtb R RScalar 0 tol) with (Rgtb 0 tol).
  rewrite (Rgtb_false _ _ Htol).
  cbv beta iota zeta. destruct_vec3 v. aux_unfold. wave_unfold. dec_norm.
  tuple_eq; field.
Qed.

Lemma logMap_exact_identity (t : Vec R 3) (tol : R) :
  0 <= tol -> logMap false (mkT (identity 3) t) tol = mkTwist (v3 0 0 0) t.
Proof.
  intros Htol.
  assert (Hc : cosAngle (identity 3) = 1) by (unfold cosAngle; wave_unfold; field).
  assert (Ha : angle (identity 3) = 0) by (unfold angle; rewrite Hc; apply acos_1).
  unfold logMap. rewrite logMap_angle_mkT by lra. rewrite Ha.
  unfold logMap_from.
  change (@gtb R RScalar 0 tol) with (Rgtb 0 tol).
  rewrite (Rgtb_false _ _ Htol).
  cbv beta iota zeta. destruct_vec3 t. aux_unfold. wave_unfold. dec_norm.
  tuple_eq; field.
Qed.

(** Unfolding extended to the functions of the second part of the
    definitions. *)
Declare Reduction wave_more :=
  cbv beta iota zeta delta
    [ vec vtab vget vall Vec Mat vtabulate mtab vcoeff coeff vzero mzero identity
      madd msub mopp smul transpose vadd sum_acc sumn mmul mvmul trace squaredNorm norm
      det3_helper determinant inBlock block setBlock colBlock setColBlock segment
      setSegment setCoeff setVCoeff allFinite vallFinite
      Transformation getRotationMatrix getTranslation getMatrix setIdentity
      Transformation_default deepCopy checkMatrixFinite checkVectorFinite
      angleAxisX angleAxisY angleAxisZ setFromEulerXYZ setFromMatrix skewSymmetric3
      skewSymmetric6 Adjoint expMap setFromExpMap adjBlocks SE3LeftJacobian
      SE3ApproxLeftJacobian SE3ApproxInvLeftJacobian logMap_arg logMap_angle logMap_from
      logMap compose invert inverse manifoldPlus manifoldMinus J_comp_inv_blocks
      manifoldMinusAndJacobian composeAndJacobian inverseAndJacobian normalizeMaybe
      interpolate bind
      leftJacobian inverseLeftJacobian interpolate_with adjoint_blocks
      compose_J_right minus_J_right_claimed minus_J_right_chain
      zero one add sub mul div opp fsqrt fsin fcos facos gtb isFinite dec
      RScalar XScalar withAcos
      fst snd andb Nat.eqb Nat.leb Nat.ltb Nat.add Nat.sub
      vsub transform transformAndJacobian inverseTransform isNear adjointRep
      Jinterpolated J_lift expMapAdjoint bsfactor interpolateAndJacobians columnMajor
      Pose2D_position Pose2D_orientation Landmark2D_position evaluate hatTimes residual_at
      Nat.modulo Nat.div Nat.divmod ].
Ltac wave_unfold ::=
  match goal with |- ?g => let g' := eval wave_more in g in change g' end.
Ltac wave_unfold_in H ::=
  let t := type of H in let t' := eval wave_more in t in change t' in H.

(** *** The two maps in exact mode, on both branches *)

Lemma expMap_exact_form (w v : Vec R 3) (tol : R) :
  block 3 4 0 0 (expMap false (mkTwist w v) tol) =
  mkT (rodrigues (expA (sqrt (normSq3 w)) tol) (expB (sqrt (normSq3 w)) tol) w)
      (kop (expB (sqrt (normSq3 w)) tol) (expC (sqrt (normSq3 w)) tol) w v).
Proof.
  unfold expA, expB, expC.
  destruct (Rlt_dec tol (sqrt (normSq3 w))) as [Hlt | Hge].
  - rewrite (Rgtb_true _ _ Hlt). apply expMap_exact_closed. exact Hlt.
  - apply Rnot_lt_le in Hge. rewrite (Rgtb_false _ _ Hge).
    unfold expMap. rewrite norm_segment_mkTwist.
    set (th := sqrt (normSq3 w)) in *.
    change (@gtb R RScalar th tol) with (Rgtb th tol).
    rewrite (Rgtb_false _ _ Hge).
    cbv beta iota zeta. clearbody th.
    destruct_vec3 w. destruct_vec3 v. aux_unfold. wave_unfold.
    tuple_eq; ring.
Qed.

Lemma logMap_exact_form (M : Mat R 3 3) (t : Vec R 3) (tol : R) :
  cosAngle M <= 1 ->
  logMap false (mkT M t) tol =
  mkTwist (scale3 (logA (angle M) tol) (vee M))
          (kop (- (1 / 2)) (logV (angle M) tol)
               (scale3 (logA (angle M) tol) (vee M)) t).
Proof.
  intros Hc. unfold logA, logV.
  destruct (Rlt_dec tol (angle M)) as [Hlt | Hge].
  - rewrite (Rgtb_true _ _ Hlt). apply logMap_exact_closed; assumption.
  - apply Rnot_lt_le in Hge. rewrite (Rgtb_false _ _ Hge).
    unfold logMap. rewrite (logMap_angle_mkT M t Hc).
    set (th := angle M) in *. clearbody th.
    unfold logMap_from.
    change (@gtb R RScalar th tol) with (Rgtb th tol).
    rewrite (Rgtb_false _ _ Hge).
    cbv beta iota zeta.
    destruct_mat3 M. destruct_vec3 t. aux_unfold. wave_unfold.
    set (A := Rdec 5 1 + th * th / Rdec 120 1 + th * th * th * th * (Rdec 70 1 / Rdec 7200 1)).
    clearbody A. dec_norm.
    tuple_eq; field.
Qed.

(** *** Algebra of the operators [I + p [w] + q [w]^2] *)

Lemma kop_scale_kop (p1 q1 p2 q2 k : R) (w x : Vec R 3) :
  kop p1 q1 (scale3 k w) (kop p2 q2 w x)
  = kop (k * p1 + p2 - normSq3 w * (k * p1 * q2 + k * k * q1 * p2))
        (k * k * q1 + q2 + k * p1 * p2 - normSq3 w * (k * k * q1 * q2)) w x.
Proof.
  destruct_vec3 w. destruct_vec3 x. aux_unfold. wave_unfold. tuple_eq; ring.
Qed.

Lemma kop_compose (p1 q1 p2 q2 : R) (w x : Vec R 3) :
  kop p1 q1 w (kop p2 q2 w x)
  = kop (p1 + p2 - normSq3 w * (p1 * q2 + q1 * p2))
        (q1 + q2 + p1 * p2 - normSq3 w * (q1 * q2)) w x.
Proof.
  destruct_vec3 w. destruct_vec3 x. aux_unfold. wave_unfold. tuple_eq; ring.
Qed.

Lemma scale3_compose (s1 s2 : R) (w : Vec R 3) :
  scale3 s1 (scale3 s2 w) = scale3 (s1 * s2) w.
Proof. destruct_vec3 w. aux_unfold. wave_unfold. tuple_eq; ring. Qed.

Lemma normSq3_cross_le (w x : Vec R 3) :
  normSq3 (cross w x) <= normSq3 w * normSq3 x.
Proof.
  destruct_vec3 w. destruct_vec3 x. aux_unfold. wave_unfold.
  assert (H : (w0 * w0 + w1 * w1 + w2 * w2) * (x0 * x0 + x1 * x1 + x2 * x2)
              - ((w1 * x2 - w2 * x1) * (w1 * x2 - w2 * x1)
                 + (w2 * x0 - w0 * x2) * (w2 * x0 - w0 * x2)
                 + (w0 * x1 - w1 * x0) * (w0 * x1 - w1 * x0))
              = (w0 * x0 + w1 * x1 + w2 * x2) * (w0 * x0 + w1 * x1 + w2 * x2)) by ring.
  pose proof (Rle_0_sqr (w0 * x0 + w1 * x1 + w2 * x2)) as Hs. unfold Rsqr in Hs. lra.
Qed.

(** The displacement [kop p q w x - x] has squared norm
    [(p^2 + q^2 |w|^2) |w x x|^2]. *)
Lemma normSq3_kop_sub (p q : R) (w x : Vec R 3) :
  normSq3 (vsub (kop p q w x) x)
  = (p * p + q * q * normSq3 w) * normSq3 (cross w x).
Proof.
  destruct_vec3 w. destruct_vec3 x. aux_unfold. wave_unfold. ring.
Qed.

Lemma normSq3_kop_sub_le (p q E : R) (w x : Vec R 3) :
  (p * p + q * q * normSq3 w) * normSq3 w <= E ->
  normSq3 (vsub (kop p q w x) x) <= E * normSq3 x.
Proof.
  intros H. rewrite normSq3_kop_sub.
  pose proof (normSq3_cross_le w x) as Hc.
  pose proof (normSq3_nonneg w) as Hw. pose proof (normSq3_nonneg x) as Hx.
  pose proof (normSq3_nonneg (cross w x)) as Hy.
  assert (Hpq : 0 <= p * p + q * q * normSq3 w).
  { pose proof (Rle_0_sqr p) as Hp. pose proof (Rle_0_sqr q) as Hq. unfold Rsqr in *. nra. }
  apply Rle_trans with ((p * p + q * q * normSq3 w) * (normSq3 w * normSq3 x)).
  - apply Rmult_le_compat_l; assumption.
  - rewrite <- Rmult_assoc. apply Rmult_le_compat_r; assumption.
Qed.

Lemma normSq3_scale_sub (s : R) (w : Vec R 3) :
  normSq3 (vsub (scale3 s w) w) = (s - 1) * (s - 1) * normSq3 w.
Proof. destruct_vec3 w. aux_unfold. wave_unfold. ring. Qed.

Lemma squaredNorm_vsub_mkTwist (w' v' w v : Vec R 3) :
  squaredNorm (vsub (mkTwist w' v') (mkTwist w v))
  = normSq3 (vsub w' w) + normSq3 (vsub v' v).
Proof.
  destruct_vec3 w'. destruct_vec3 v'. destruct_vec3 w. destruct_vec3 v.
  aux_unfold. wave_unfold. ring.
Qed.

Lemma squaredNorm_mkTwist (w v : Vec R 3) :
  squaredNorm (mkTwist w v) = normSq3 w + normSq3 v.
Proof. destruct_vec3 w. destruct_vec3 v. aux_unfold. wave_unfold. ring. Qed.

(** The difference of two matrices [I + a [u] + b [u]^2] with the same
    [u]. *)
Lemma frobenius_rodrigues_sub (a1 b1 a2 b2 : R) (u : Vec R 3) :
  trace (mmul (msub (rodrigues a1 b1 u) (rodrigues a2 b2 u))
              (transpose (msub (rodrigues a1 b1 u) (rodrigues a2 b2 u))))
  = 2 * normSq3 u * ((a1 - a2) * (a1 - a2) + (b1 - b2) * (b1 - b2) * normSq3 u).
Proof. destruct_vec3 u. aux_unfold. wave_unfold. ring. Qed.
Lemma squaredNorm3 (x : Vec R 3) : squaredNorm x = normSq3 x.
Proof. destruct_vec3 x. reflexivity. Qed.

(** *** Bounds on sine and cosine near zero *)

Lemma one_le_PI2 : 1 <= PI / 2.
Proof. pose proof PI2_3_2. lra. Qed.

Lemma sin_lb_value (x : R) :
  sin_lb x = x - x ^ 3 / 6 + x ^ 5 / 120 - x ^ 7 / 5040.
Proof.
  unfold sin_lb, sin_approx. cbn [sum_f_R0]. unfold sin_term.
  change (2 * 0 + 1)%nat with 1%nat. change (2 * 1 + 1)%nat with 3%nat.
  change (2 * 2 + 1)%nat with 5%nat. change (2 * 3 + 1)%nat with 7%nat.
  rewrite !INR_IZR_INZ.
  change (Z.of_nat (Factorial.fact 1)) with 1%Z.
  change (Z.of_nat (Factorial.fact 3)) with 6%Z.
  change (Z.of_nat (Factorial.fact 5)) with 120%Z.
  change (Z.of_nat (Factorial.fact 7)) with 5040%Z.
  field.
Qed.

Lemma sin_bounds_01 (x : R) :
  0 <= x <= 1 -> x - x * x * x / 6 <= sin x <= x.
Proof.
  intros [H0 H1]. pose proof one_le_PI2 as HP.
  split.
  - destruct (SIN x H0) as [Hl _]; [lra|].
    rewrite sin_lb_value in Hl.
    assert (H2 : 0 <= x * x <= 1) by nra.
    assert (H5 : 0 <= x ^ 5) by (apply pow_le; exact H0).
    assert (H7 : x ^ 7 <= x ^ 5).
    { replace (x ^ 7) with (x ^ 5 * (x * x)) by ring. nra. }
    replace (x * x * x) with (x ^ 3) by ring. lra.
  - destruct (Req_dec x 0) as [-> | Hne]; [rewrite sin_0; lra|].
    left. apply sin_lt_x. lra.
Qed.

Lemma cos_half_angle (x : R) : cos x = 1 - 2 * (sin (x / 2) * sin (x / 2)).
Proof.
  replace x with (2 * (x / 2)) at 1 by field.
  rewrite cos_2a_sin. ring.
Qed.

Lemma cos_bounds_01 (x : R) :
  0 <= x <= 1 -> 1 - x * x / 2 <= cos x <= 1 - x * x / 2 + x * x * x * x / 24.
Proof.
  intros [H0 H1].
  destruct (sin_bounds_01 (x / 2)) as [Hl Hu]; [lra|].
  rewrite cos_half_angle.
  set (s := sin (x / 2)) in *. clearbody s.
  assert (Hs0 : 0 <= x / 2 - x / 2 * (x / 2) * (x / 2) / 6) by nra.
  split.
  - assert (s * s <= x / 2 * (x / 2)) by nra. lra.
  - assert ((x / 2 - x / 2 * (x / 2) * (x / 2) / 6) * (x / 2 - x / 2 * (x / 2) * (x / 2) / 6)
            <= s * s) by nra.
    assert (0 <= x * x * x * x * x * x) by (apply Rmult_le_pos; nra).
    nra.
Qed.

(** *** Bounds on the coefficients of the two maps *)

Lemma div_bounds (n d lo hi : R) :
  0 < d -> lo * d <= n -> n <= hi * d -> lo <= n / d <= hi.
Proof.
  intros Hd Hl Hu. split.
  - apply Rmult_le_reg_r with d; [exact Hd|].
    unfold Rdiv. rewrite Rmult_assoc, Rinv_l, Rmult_1_r by lra. exact Hl.
  - apply Rmult_le_reg_r with d; [exact Hd|].
    unfold Rdiv. rewrite Rmult_assoc, Rinv_l, Rmult_1_r by lra. exact Hu.
Qed.

Lemma expA_bounds (th tol : R) :
  0 <= th <= 1 -> 0 <= tol -> 1 - th * th / 5 <= expA th tol <= 1.
Proof.
  intros Hth Htol. unfold expA.
  destruct (Rlt_dec tol th) as [Hlt | Hge].
  - rewrite (Rgtb_true _ _ Hlt).
    destruct (sin_bounds_01 th Hth) as [Hl Hu].
    assert (H0 : 0 < th) by lra.
    apply div_bounds; [exact H0 | nra | lra].
  - apply Rnot_lt_le in Hge. rewrite (Rgtb_false _ _ Hge). dec_norm.
    assert (H2 : 0 <= th * th <= 1) by nra.
    assert (H4 : 0 <= th * th * th * th <= th * th) by nra.
    lra.
Qed.

Lemma expB_bounds (th tol : R) :
  0 <= th <= 1 -> 0 <= tol -> 1 / 2 - th * th / 20 <= expB th tol <= 1 / 2.
Proof.
  intros Hth Htol. unfold expB.
  destruct (Rlt_dec tol th) as [Hlt | Hge].
  - rewrite (Rgtb_true _ _ Hlt).
    destruct (cos_bounds_01 th Hth) as [Hl Hu].
    assert (H0 : 0 < th * th) by nra.
    assert (H2 : th * th <= 1) by nra.
    apply div_bounds; [exact H0 | nra | lra].
  - apply Rnot_lt_le in Hge. rewrite (Rgtb_false _ _ Hge). dec_norm.
    assert (H2 : 0 <= th * th <= 1) by nra.
    assert (H4 : 0 <= th * th * th * th <= th * th) by nra.
    lra.
Qed.

Lemma expC_bounds (th tol : R) :
  0 <= th <= 1 -> 0 <= tol -> 0 <= expC th tol <= 1 / 5.
Proof.
  intros Hth Htol. unfold expC.
  destruct (Rlt_dec tol th) as [Hlt | Hge].
  - rewrite (Rgtb_true _ _ Hlt).
    destruct (expA_bounds th tol Hth Htol) as [Hl Hu].
    unfold expA in Hl, Hu. rewrite (Rgtb_true _ _ Hlt) in Hl, Hu.
    assert (H0 : 0 < th * th) by nra.
    apply div_bounds; [exact H0 | nra | nra].
  - apply Rnot_lt_le in Hge. rewrite (Rgtb_false _ _ Hge). dec_norm.
    assert (H2 : 0 <= th * th <= 1) by nra.
    assert (H4 : 0 <= th * th * th * th <= th * th) by nra.
    lra.
Qed.

Lemma logA_bounds (x tol : R) :
  0 <= x <= 1 -> 0 <= tol -> 1 / 2 <= logA x tol <= 1 / 2 + x * x / 10.
Proof.
  intros Hx Htol. unfold logA.
  destruct (Rlt_dec tol x) as [Hlt | Hge].
  - rewrite (Rgtb_true _ _ Hlt).
    destruct (sin_bounds_01 x Hx) as [Hl Hu].
    assert (H0 : 0 < x) by lra.
    assert (H2 : 0 < x * x <= 1) by nra.
    assert (Hs : 0 < sin x) by nra.
    assert (Hk : x <= (1 + x * x / 5) * (x - x * x * x / 6)).
    { assert (0 <= x * (x * x) * (1 - x * x)) by (apply Rmult_le_pos; nra). nra. }
    apply div_bounds; [lra | lra | nra].
  - apply Rnot_lt_le in Hge. rewrite (Rgtb_false _ _ Hge). dec_norm.
    assert (H2 : 0 <= x * x <= 1) by nra.
    assert (H4 : 0 <= x * x * x * x <= x * x) by nra.
    lra.
Qed.

Lemma logQ_simplified (x : R) :
  0 < x -> sin x <> 0 -> 1 - cos x <> 0 ->
  logQ x = (2 * (1 - cos x) - x * sin x) / (2 * (x * x) * (1 - cos x)).
Proof. intros H0 Hs Hc. unfold logQ. field. repeat split; lra. Qed.

Lemma logV_bounds (x tol : R) :
  0 <= x <= 1 -> 0 <= tol -> - (1 / 5) <= logV x tol <= 1 / 5.
Proof.
  intros Hx Htol. unfold logV.
  destruct (Rlt_dec tol x) as [Hlt | Hge].
  - rewrite (Rgtb_true _ _ Hlt).
    destruct (sin_bounds_01 x Hx) as [Hsl Hsu].
    destruct (cos_bounds_01 x Hx) as [Hcl Hcu].
    assert (H0 : 0 < x) by lra.
    assert (H2 : 0 < x * x <= 1) by nra.
    assert (H4 : 0 < x * x * x * x <= x * x) by nra.
    assert (Hs : 0 < sin x) by nra.
    assert (Hc : 0 < 1 - cos x) by nra.
    rewrite logQ_simplified by lra.
    assert (HD : 11 / 12 * (x * x * x * x) <= 2 * (x * x) * (1 - cos x)) by nra.
    assert (HDpos : 0 < 2 * (x * x) * (1 - cos x)) by nra.
    assert (HNu : 2 * (1 - cos x) - x * sin x <= x * x * x * x / 6) by nra.
    assert (HNl : - (x * x * x * x / 12) <= 2 * (1 - cos x) - x * sin x) by nra.
    apply div_bounds; [exact HDpos | nra | nra].
  - apply Rnot_lt_le in Hge. rewrite (Rgtb_false _ _ Hge). lra.
Qed.

(** The angle that [logMap] reads off [I + a [w] + b [w]^2]. *)
Lemma angle_small (c th : R) :
  0 <= th <= 1 / 2 -> 1 - th * th / 2 <= c <= 1 -> 0 <= acos c <= 2 * th.
Proof.
  intros Hth Hc.
  destruct (acos_bound c) as [Ha0 HaP]. split; [exact Ha0|].
  destruct (Rle_dec (acos c) (2 * th)) as [Hle | Hgt]; [exact Hle|].
  apply Rnot_le_lt in Hgt. exfalso.
  pose proof one_le_PI2 as HP.
  assert (Hcos : cos (acos c) = c) by (apply cos_acos; nra).
  assert (Hd : cos (acos c) < cos (2 * th))
    by (apply cos_decreasing_1; lra).
  destruct (cos_bounds_01 (2 * th)) as [_ Hu]; [lra|].
  rewrite Hcos in Hd.
  assert (H2 : 0 <= th * th <= 1 / 4) by nra.
  assert (H4 : 0 <= th * th * th * th <= th * th / 4) by nra.
  nra.
Qed.

(** *** [logMap] after [expMap], on every branch *)

Lemma cosAngle_rodrigues (a b : R) (w : Vec R 3) :
  cosAngle (rodrigues a b w) = 1 - b * normSq3 w.
Proof. unfold cosAngle. rewrite trace_rodrigues. field. Qed.

Lemma log_exp_form (w v : Vec R 3) (tolE tolL : R) :
  let th := sqrt (normSq3 w) in
  let a := expA th tolE in
  let b := expB th tolE in
  let c := expC th tolE in
  let wn := acos (1 - b * normSq3 w) in
  let s := logA wn tolL * (2 * a) in
  0 <= b ->
  logMap false (block 3 4 0 0 (expMap false (mkTwist w v) tolE)) tolL
  = mkTwist (scale3 s w)
      (kop (s * - (1 / 2) + b
            - normSq3 w * (s * - (1 / 2) * c + s * s * logV wn tolL * b))
           (s * s * logV wn tolL + c + s * - (1 / 2) * b
            - normSq3 w * (s * s * logV wn tolL * c)) w v).
Proof.
  intros th a b c wn s Hb.
  rewrite expMap_exact_form. fold th. fold a. fold b. fold c.
  assert (Hc : cosAngle (rodrigues a b w) <= 1).
  { rewrite cosAngle_rodrigues. pose proof (normSq3_nonneg w). nra. }
  rewrite logMap_exact_form by exact Hc.
  unfold angle. rewrite cosAngle_rodrigues. fold wn.
  rewrite vee_rodrigues, scale3_compose. fold s.
  rewrite kop_scale_kop. reflexivity.
Qed.

(** The coefficients of the composite, from bounds on the coefficients of
    the two maps. *)
Lemma log_exp_coeff_bounds (th wn a b c A V : R) :
  0 <= th <= 1 / 2 -> 0 <= wn <= 2 * th ->
  1 - th * th / 5 <= a <= 1 -> 1 / 2 - th * th / 20 <= b <= 1 / 2 ->
  0 <= c <= 1 / 5 -> 1 / 2 <= A <= 1 / 2 + wn * wn / 10 -> - (1 / 5) <= V <= 1 / 5 ->
  let s := A * (2 * a) in
  let P := s * - (1 / 2) + b - th * th * (s * - (1 / 2) * c + s * s * V * b) in
  let Q := s * s * V + c + s * - (1 / 2) * b - th * th * (s * s * V * c) in
  (s - 1) * (s - 1) <= 4 * (th * th * th * th) /\
  (P * P + Q * Q * (th * th)) * (th * th) <= 4 * (th * th * th * th).
Proof.
  intros Hth Hwn Ha Hb Hc HA HV s P Q.
  assert (H2 : 0 <= th * th <= 1 / 4) by nra.
  assert (Hw2 : 0 <= wn * wn <= 4 * (th * th)) by nra.
  assert (Hs : 1 - th * th / 5 <= s <= 1 + 4 / 5 * (th * th)) by (unfold s; nra).
  assert (Hs1 : 19 / 20 <= s <= 6 / 5) by lra.
  assert (Hss : 0 <= s * s <= 36 / 25) by nra.
  assert (Hsc : 0 <= s * c <= 6 / 25) by nra.
  assert (HssV : - (36 / 125) <= s * s * V <= 36 / 125) by nra.
  assert (HssVb : - (18 / 125) <= s * s * V * b <= 18 / 125) by nra.
  assert (HssVc : - (36 / 625) <= s * s * V * c <= 36 / 625) by nra.
  assert (Hsb : 0 <= s * b <= 3 / 5) by nra.
  assert (HP : - (th * th) <= P <= th * th) by (unfold P; nra).
  assert (HQ : -1 <= Q <= 1) by (unfold Q; nra).
  assert (HPP : P * P <= th * th * (th * th)) by nra.
  assert (HQQ : Q * Q <= 1) by nra.
  split.
  - assert (- (4 / 5 * (th * th)) <= s - 1 <= 4 / 5 * (th * th)) by lra. nra.
  - assert (0 <= th * th * (th * th) <= th * th / 4) by nra.
    nra.
Qed.

Lemma normSq3_zero (w : Vec R 3) : normSq3 w = 0 -> w = v3 0 0 0.
Proof.
  destruct_vec3 w. aux_unfold. wave_unfold. intros H.
  assert (w0 = 0) by nra. assert (w1 = 0) by nra. assert (w2 = 0) by nra.
  subst. reflexivity.
Qed.

Lemma pow4_le (x y : R) : 0 <= x <= y -> x * x * x * x <= y * y * y * y.
Proof. intros H. assert (0 <= x * x <= y * y) by nra. nra. Qed.

(** At or below one of the tolerances. *)
Lemma log_exp_small (w v : Vec R 3) (tolE tolL tau : R) :
  0 <= tolE <= tau -> 0 <= tolL <= tau -> tau <= 1 / 2 ->
  sqrt (normSq3 w) <= tau ->
  squaredNorm (vsub (logMap false (block 3 4 0 0 (expMap false (mkTwist w v) tolE)) tolL)
                    (mkTwist w v))
  <= 4 * (tau * tau * tau * tau) * squaredNorm (mkTwist w v).
Proof.
  intros HE HL Htau Hth.
  pose proof (normSq3_nonneg w) as Hn0. pose proof (normSq3_nonneg v) as Hv0.
  pose proof (sqrt_pos (normSq3 w)) as Hth0.
  assert (Hn : normSq3 w = sqrt (normSq3 w) * sqrt (normSq3 w))
    by (symmetry; apply sqrt_def; exact Hn0).
  set (th := sqrt (normSq3 w)) in *.
  assert (Hth1 : 0 <= th <= 1) by lra.
  destruct (expA_bounds th tolE Hth1) as [Hal Hau]; [lra|].
  destruct (expB_bounds th tolE Hth1) as [Hbl Hbu]; [lra|].
  destruct (expC_bounds th tolE Hth1) as [Hcl Hcu]; [lra|].
  assert (H2 : 0 <= th * th <= 1 / 4) by nra.
  assert (Hb0 : 0 <= expB th tolE) by lra.
  pose proof (log_exp_form w v tolE tolL) as Hform. cbv zeta in Hform. fold th in Hform.
  rewrite (Hform Hb0). clear Hform.
  set (a := expA th tolE) in *. set (b := expB th tolE) in *. set (c := expC th tolE) in *.
  set (wn := acos (1 - b * normSq3 w)).
  assert (Hwn : 0 <= wn <= 2 * th).
  { apply angle_small; [lra|]. rewrite Hn. nra. }
  assert (Hwn1 : 0 <= wn <= 1) by lra.
  destruct (logA_bounds wn tolL Hwn1) as [HAl HAu]; [lra|].
  destruct (logV_bounds wn tolL Hwn1) as [HVl HVu]; [lra|].
  set (A := logA wn tolL) in *. set (V := logV wn tolL) in *.
  destruct (log_exp_coeff_bounds th wn a b c A V) as [Hs HPQ]; try lra.
  cbv zeta in Hs, HPQ.
  rewrite squaredNorm_vsub_mkTwist, squaredNorm_mkTwist, normSq3_scale_sub.
  assert (Ht4 : th * th * th * th <= tau * tau * tau * tau) by (apply pow4_le; lra).
  assert (Hth4 : 0 <= th * th * th * th) by (apply Rmult_le_pos; nra).
  set (E := 4 * (tau * tau * tau * tau)).
  assert (HE4 : 4 * (th * th * th * th) <= E) by (unfold E; lra).
  assert (Hrot : (A * (2 * a) - 1) * (A * (2 * a) - 1) * normSq3 w <= E * normSq3 w).
  { apply Rmult_le_compat_r; [exact Hn0 | lra]. }
  assert (Htr : normSq3 (vsub (kop
            (A * (2 * a) * - (1 / 2) + b
             - normSq3 w * (A * (2 * a) * - (1 / 2) * c + A * (2 * a) * (A * (2 * a)) * V * b))
            (A * (2 * a) * (A * (2 * a)) * V + c + A * (2 * a) * - (1 / 2) * b
             - normSq3 w * (A * (2 * a) * (A * (2 * a)) * V * c)) w v) v)
          <= E * normSq3 v).
  { apply normSq3_kop_sub_le. rewrite Hn. lra. }
  lra.
Qed.

(** The squared distance between [logMap(expMap(w))] and [w]. *)
Lemma log_exp_bound (w v : Vec R 3) (tolE tolL tau : R) :
  0 <= tolE <= tau -> 0 <= tolL <= tau -> tau <= 1 / 2 ->
  sqrt (normSq3 w) < PI ->
  squaredNorm (vsub (logMap false (block 3 4 0 0 (expMap false (mkTwist w v) tolE)) tolL)
                    (mkTwist w v))
  <= 4 * (tau * tau * tau * tau) * squaredNorm (mkTwist w v).
Proof.
  intros HE HL Htau Hpi.
  pose proof (normSq3_nonneg w) as Hn0. pose proof (normSq3_nonneg v) as Hv0.
  assert (Ht4 : 0 <= tau * tau * tau * tau) by (apply Rmult_le_pos; nra).
  destruct (Rlt_dec tolE (sqrt (normSq3 w))) as [HEc | HEs];
    [destruct (Rlt_dec tolL (sqrt (normSq3 w))) as [HLc | HLs] |].
  - (* both closed forms *)
    rewrite log_exp_exact by lra.
    rewrite squaredNorm_vsub_mkTwist, squaredNorm_mkTwist.
    replace (normSq3 (vsub w w)) with 0
      by (destruct_vec3 w; aux_unfold; wave_unfold; ring).
    replace (normSq3 (vsub v v)) with 0
      by (destruct_vec3 v; aux_unfold; wave_unfold; ring).
    nra.
  - apply Rnot_lt_le in HLs. apply (log_exp_small w v tolE tolL tau); try assumption. lra.
  - apply Rnot_lt_le in HEs. apply (log_exp_small w v tolE tolL tau); try assumption. lra.
Qed.

(** *** [expMap] after [logMap], on every branch *)

Lemma trace_rotation_bounds (M : Mat R 3 3) : isRotation M -> -1 <= trace M <= 3.
Proof.
  intros H. pose proof (normSq3_vee M H) as Hv.
  pose proof (normSq3_nonneg (vee M)) as H0. rewrite Hv in H0.
  assert (Hu : trace M <= 3).
  { rotation_facts M H. wave_unfold.
    assert (M00 <= 1) by (clear - E; nra). assert (M11 <= 1) by (clear - E2; nra).
    assert (M22 <= 1) by (clear - E4; nra). lra. }
  nra.
Qed.

Lemma cosAngle_rotation (M : Mat R 3 3) : isRotation M -> -1 <= cosAngle M <= 1.
Proof. intros H. pose proof (trace_rotation_bounds M H). unfold cosAngle. lra. Qed.

Lemma acos_m1 : acos (-1) = PI.
Proof.
  replace (-1) with (Ropp 1) by lra. rewrite acos_opp, acos_1. ring.
Qed.

Lemma cosAngle_below_pi (M : Mat R 3 3) :
  isRotation M -> angle M < PI -> -1 < cosAngle M.
Proof.
  intros H Ha. destruct (cosAngle_rotation M H) as [Hl _].
  destruct Hl as [Hlt | Heq]; [exact Hlt|].
  unfold angle in Ha. rewrite <- Heq, acos_m1 in Ha. lra.
Qed.

Lemma rotation_trace3 (M : Mat R 3 3) : isRotation M -> trace M = 3 -> M = identity 3.
Proof.
  intros H. rotation_facts M H. wave_unfold. intros Ht.
  assert (Hd0 : M00 <= 1) by (clear - E; nra).
  assert (Hd1 : M11 <= 1) by (clear - E2; nra).
  assert (Hd2 : M22 <= 1) by (clear - E4; nra).
  assert (M00 = 1) by lra. assert (M11 = 1) by lra. assert (M22 = 1) by lra.
  subst M00 M11 M22.
  assert (M01 = 0) by (clear - E; nra). assert (M02 = 0) by (clear - E; nra).
  assert (M10 = 0) by (clear - E2; nra). assert (M12 = 0) by (clear - E2; nra).
  assert (M20 = 0) by (clear - E4; nra). assert (M21 = 0) by (clear - E4; nra).
  subst. reflexivity.
Qed.

Lemma rotation_angle_zero (M : Mat R 3 3) : isRotation M -> angle M = 0 -> M = identity 3.
Proof.
  intros H Ha. apply rotation_trace3; [exact H|].
  assert (Hc : cos (angle M) = cosAngle M)
    by (unfold angle; apply cos_acos; apply cosAngle_rotation; exact H).
  rewrite Ha, cos_0 in Hc. unfold cosAngle in Hc. lra.
Qed.

Lemma exp_log_form (M : Mat R 3 3) (t : Vec R 3) (tolE tolL : R) :
  let A := logA (angle M) tolL in
  let V := logV (angle M) tolL in
  let om := scale3 A (vee M) in
  let th := sqrt (normSq3 om) in
  let a := expA th tolE in
  let b := expB th tolE in
  let c := expC th tolE in
  cosAngle M <= 1 ->
  block 3 4 0 0 (expMap false (logMap false (mkT M t) tolL) tolE)
  = mkT (rodrigues (a * A) (b * (A * A)) (vee M))
        (kop (b + - (1 / 2) - normSq3 om * (b * V + c * - (1 / 2)))
             (c + V + b * - (1 / 2) - normSq3 om * (c * V)) om t).
Proof.
  intros A V om th a b c Hc.
  rewrite logMap_exact_form by exact Hc. fold A. fold V. fold om.
  rewrite expMap_exact_form. fold th. fold a. fold b. fold c.
  unfold om at 1. rewrite rodrigues_scale, kop_compose. reflexivity.
Qed.

Lemma exp_log_coeff_bounds (x cphi nu a b c A V : R) :
  0 <= x <= 1 / 2 -> 1 - x * x / 2 <= cphi <= 1 -> nu = 4 * (1 - cphi * cphi) ->
  1 / 2 <= A <= 1 / 2 + x * x / 10 -> - (1 / 5) <= V <= 1 / 5 ->
  1 - A * A * nu / 5 <= a <= 1 -> 1 / 2 - A * A * nu / 20 <= b <= 1 / 2 ->
  0 <= c <= 1 / 5 ->
  let nw := A * A * nu in
  let P := b + - (1 / 2) - nw * (b * V + c * - (1 / 2)) in
  let Q := c + V + b * - (1 / 2) - nw * (c * V) in
  2 * nu * ((a * A - 1 / 2) * (a * A - 1 / 2)
            + (b * (A * A) - 1 / (2 * (1 + (2 * cphi + 1))))
              * (b * (A * A) - 1 / (2 * (1 + (2 * cphi + 1)))) * nu)
  <= 4 * (x * x * x * x) /\
  (P * P + Q * Q * nw) * nw <= 4 * (x * x * x * x).
Proof.
  intros Hx Hc Hnu HA HV Ha Hb Hcc nw P Q.
  assert (H2 : 0 <= x * x <= 1 / 4) by nra.
  assert (Hnu0 : 0 <= nu <= 4 * (x * x)) by nra.
  assert (HAA : 1 / 4 <= A * A <= 3 / 10) by nra.
  assert (Hnw : 0 <= nw <= 6 / 5 * (x * x)) by (unfold nw; nra).
  fold nw in Ha, Hb.
  assert (Hnw1 : nw <= 3 / 10) by lra.
  (* rotation *)
  assert (HaA : - (3 / 25 * (x * x)) <= a * A - 1 / 2 <= x * x / 10) by nra.
  assert (Hb0 : 1 / 8 <= 1 / (2 * (1 + (2 * cphi + 1))) <= 1 / 7).
  { apply div_bounds; nra. }
  assert (HbAA : 1 / 10 <= b * (A * A) <= 3 / 20) by nra.
  set (be := b * (A * A) - 1 / (2 * (1 + (2 * cphi + 1)))) in *.
  assert (Hbe : - (1 / 4) <= be <= 1 / 4) by (unfold be; lra).
  assert (Hbe2 : be * be <= 1 / 16) by nra.
  assert (Hal2 : (a * A - 1 / 2) * (a * A - 1 / 2) <= 1 / 50 * (x * x) * (x * x)) by nra.
  (* translation *)
  assert (HbV : - (1 / 10) <= b * V <= 1 / 10) by nra.
  assert (HcV : - (1 / 25) <= c * V <= 1 / 25) by nra.
  assert (HP : - nw <= P <= nw) by (unfold P; nra).
  assert (HQ : -1 <= Q <= 1) by (unfold Q; nra).
  assert (HPP : P * P <= nw * nw) by nra.
  assert (HQQ : Q * Q <= 1) by nra.
  assert (Hx4 : 0 <= x * x * (x * x)) by nra.
  pose proof (Rle_0_sqr (a * A - 1 / 2)) as Hal0. unfold Rsqr in Hal0.
  pose proof (Rle_0_sqr be) as Hbe0. unfold Rsqr in Hbe0.
  pose proof (Rle_0_sqr P) as HP0. unfold Rsqr in HP0.
  pose proof (Rle_0_sqr Q) as HQ0. unfold Rsqr in HQ0.
  set (al2 := (a * A - 1 / 2) * (a * A - 1 / 2)) in *.
  set (be2 := be * be) in *. set (P2 := P * P) in *. set (Q2 := Q * Q) in *.
  replace (x * x * x * x) with (x * x * (x * x)) by ring.
  set (y := x * x) in *.
  clearbody al2 be2 P2 Q2 y nw. clear - H2 Hnu0 Hnw Hal2 Hbe2 HPP HQQ Hal0 Hbe0 HP0 HQ0.
  split.
  - assert (Hbn : 0 <= be2 * nu <= 1 / 16 * nu) by nra.
    assert (Hsum : 0 <= al2 + be2 * nu <= 1 / 50 * y * y + 1 / 4 * y) by nra.
    assert (Hprod : nu * (al2 + be2 * nu) <= 4 * y * (1 / 50 * y * y + 1 / 4 * y)) by nra.
    assert (Hy3 : 0 <= y * y * y <= 1 / 4 * (y * y)) by nra.
    replace (2 * nu * (al2 + be2 * nu)) with (2 * (nu * (al2 + be2 * nu))) by ring.
    nra.
  - assert (Hq : 0 <= Q2 * nw <= nw) by nra.
    assert (Hs : 0 <= P2 + Q2 * nw <= nw * nw + nw) by nra.
    assert (Hprod : (P2 + Q2 * nw) * nw <= (nw * nw + nw) * nw) by nra.
    assert (Hn2 : nw * nw <= 36 / 25 * (y * y)) by nra.
    assert (Hn3 : nw * nw * nw <= 3 / 10 * (nw * nw)) by nra.
    nra.
Qed.

Lemma cos_angle (M : Mat R 3 3) : isRotation M -> cos (angle M) = cosAngle M.
Proof. intros H. unfold angle. apply cos_acos. apply cosAngle_rotation. exact H. Qed.

Lemma angle_nonneg (M : Mat R 3 3) : 0 <= angle M.
Proof. unfold angle. apply acos_bound. Qed.

(** At or below one of the tolerances. *)
Lemma exp_log_small (M : Mat R 3 3) (t : Vec R 3) (tolE tolL tau : R) :
  isRotation M ->
  0 <= tolE <= tau -> 0 <= tolL <= tau -> tau <= 1 / 2 -> angle M <= tau ->
  trace (mmul (msub (getRotationMatrix
                       (block 3 4 0 0 (expMap false (logMap false (mkT M t) tolL) tolE))) M)
              (transpose (msub (getRotationMatrix
                       (block 3 4 0 0 (expMap false (logMap false (mkT M t) tolL) tolE))) M)))
    <= 4 * (tau * tau * tau * tau) /\
  normSq3 (vsub (getTranslation
                   (block 3 4 0 0 (expMap false (logMap false (mkT M t) tolL) tolE))) t)
    <= 4 * (tau * tau * tau * tau) * normSq3 t.
Proof.
  intros Hrot HE HL Htau Hphi.
  pose proof (angle_nonneg M) as Hphi0.
  pose proof (cos_angle M Hrot) as Hcos.
  destruct (cosAngle_rotation M Hrot) as [Hcl Hcu].
  pose proof (exp_log_form M t tolE tolL) as Hform. cbv zeta in Hform.
  rewrite (Hform Hcu). clear Hform.
  rewrite getRotationMatrix_mkT, getTranslation_mkT.
  set (x := angle M) in *.
  assert (Hx : 0 <= x <= 1 / 2) by lra.
  destruct (cos_bounds_01 x) as [Hcb _]; [lra|]. rewrite Hcos in Hcb.
  assert (Htr : trace M = 2 * cosAngle M + 1) by (unfold cosAngle; field).
  set (cphi := cosAngle M) in *.
  pose proof (normSq3_vee M Hrot) as Hnu. rewrite Htr in Hnu.
  assert (Hnu' : normSq3 (vee M) = 4 * (1 - cphi * cphi)) by (rewrite Hnu; ring).
  clear Hnu.
  destruct (logA_bounds x tolL) as [HAl HAu]; [lra | lra |].
  destruct (logV_bounds x tolL) as [HVl HVu]; [lra | lra |].
  set (A := logA x tolL) in *. set (V := logV x tolL) in *.
  assert (Hnw : normSq3 (scale3 A (vee M)) = A * A * normSq3 (vee M))
    by apply normSq3_scale.
  set (nu := normSq3 (vee M)) in *.
  assert (H2 : 0 <= x * x <= 1 / 4) by nra.
  assert (Hnu0 : 0 <= nu <= 4 * (x * x)) by nra.
  assert (HAA : 1 / 4 <= A * A <= 3 / 10) by nra.
  assert (Hnw0 : 0 <= A * A * nu <= 3 / 10) by nra.
  set (th := sqrt (normSq3 (scale3 A (vee M)))) in *.
  assert (Hth2 : th * th = A * A * nu).
  { unfold th. rewrite sqrt_def; [exact Hnw | rewrite Hnw; lra]. }
  assert (Hth : 0 <= th <= 1).
  { split; [apply sqrt_pos|]. assert (0 <= th) by apply sqrt_pos. nra. }
  destruct (expA_bounds th tolE Hth) as [Hal Hau]; [lra|].
  destruct (expB_bounds th tolE Hth) as [Hbl Hbu]; [lra|].
  destruct (expC_bounds th tolE Hth) as [Hcl' Hcu']; [lra|].
  rewrite Hth2 in Hal, Hbl.
  set (a := expA th tolE) in *. set (b := expB th tolE) in *. set (c := expC th tolE) in *.
  destruct (exp_log_coeff_bounds x cphi nu a b c A V) as [HR HT]; try lra; try assumption.
  cbv zeta in HR, HT.
  assert (Ht4 : x * x * x * x <= tau * tau * tau * tau) by (apply pow4_le; lra).
  split.
  - rewrite <- (rodrigues_vee M Hrot) at 2 4 by (rewrite Htr; fold cphi; lra).
    rewrite frobenius_rodrigues_sub. fold nu. rewrite Htr. fold cphi. lra.
  - apply normSq3_kop_sub_le. rewrite Hnw. fold nu. lra.
Qed.

Lemma sqrt_bound (X S tau : R) :
  0 <= tau -> 0 <= S -> X <= 4 * (tau * tau * tau * tau) * S ->
  sqrt X <= 2 * (tau * tau) * sqrt S.
Proof.
  intros Ht HS HX.
  apply Rle_trans with (sqrt (4 * (tau * tau * tau * tau) * S)).
  - apply sqrt_le_1_alt. exact HX.
  - replace (4 * (tau * tau * tau * tau)) with ((2 * (tau * tau)) * (2 * (tau * tau))) by ring.
    rewrite sqrt_mult_alt by nra.
    rewrite sqrt_square by nra. lra.
Qed.

Lemma norm_sqrt {n} (x : Vec R n) : norm x = sqrt (squaredNorm x).
Proof. reflexivity. Qed.

Lemma squaredNorm_nonneg6 (w : Vec R 6) : 0 <= squaredNorm w.
Proof.
  rewrite <- (mkTwist_segments w), squaredNorm_mkTwist.
  pose proof (normSq3_nonneg (segment 3 0 w)). pose proof (normSq3_nonneg (segment 3 3 w)).
  lra.
Qed.

Lemma rotation_angle_pos (M : Mat R 3 3) :
  isRotation M -> 0 < angle M -> cosAngle M < 1.
Proof.
  intros H Ha. destruct (cosAngle_rotation M H) as [_ Hu].
  destruct Hu as [Hlt | Heq]; [exact Hlt|].
  unfold angle in Ha. rewrite Heq, acos_1 in Ha. lra.
Qed.

(** The two round trips, in squared norms, with the cases in which they
    are exact. *)
Lemma log_exp_exact_cases (w v : Vec R 3) (tolE tolL : R) :
  0 <= tolE -> 0 <= tolL -> sqrt (normSq3 w) < PI ->
  sqrt (normSq3 w) = 0 \/ (tolE < sqrt (normSq3 w) /\ tolL < sqrt (normSq3 w)) ->
  logMap false (block 3 4 0 0 (expMap false (mkTwist w v) tolE)) tolL = mkTwist w v.
Proof.
  intros HE HL Hpi [H0 | [H1 H2]].
  - assert (Hw : w = v3 0 0 0).
    { apply normSq3_zero. apply sqrt_eq_0; [apply normSq3_nonneg | exact H0]. }
    subst w. rewrite expMap_exact_zero by lra. apply logMap_exact_identity. lra.
  - apply log_exp_exact; [| exact H1 | exact H2].
    split; [lra | exact Hpi].
Qed.

Lemma exp_log_exact_cases (M : Mat R 3 3) (a : Vec R 3) (tolE tolL : R) :
  isRotation M -> 0 <= tolE -> 0 <= tolL -> angle M < PI ->
  angle M = 0 \/ (tolE < angle M /\ tolL < angle M) ->
  block 3 4 0 0 (expMap false (logMap false (mkT M a) tolL) tolE) = mkT M a.
Proof.
  intros Hrot HE HL Hpi [H0 | [H1 H2]].
  - rewrite (rotation_angle_zero M Hrot H0).
    rewrite logMap_exact_identity by lra. apply expMap_exact_zero. lra.
  - apply exp_log_exact; try assumption.
    split; [apply cosAngle_below_pi; assumption
           | apply rotation_angle_pos; [assumption | lra]].
Qed.

Lemma exp_log_bound (M : Mat R 3 3) (a : Vec R 3) (tolE tolL tau : R) :
  isRotation M -> 0 <= tolE <= tau -> 0 <= tolL <= tau -> tau <= 1 / 2 -> angle M < PI ->
  trace (mmul (msub (getRotationMatrix
                       (block 3 4 0 0 (expMap false (logMap false (mkT M a) tolL) tolE))) M)
              (transpose (msub (getRotationMatrix
                       (block 3 4 0 0 (expMap false (logMap false (mkT M a) tolL) tolE))) M)))
    <= 4 * (tau * tau * tau * tau) /\
  normSq3 (vsub (getTranslation
                   (block 3 4 0 0 (expMap false (logMap false (mkT M a) tolL) tolE))) a)
    <= 4 * (tau * tau * tau * tau) * normSq3 a.
Proof.
  intros Hrot HE HL Htau Hpi.
  destruct (Rlt_dec tolE (angle M)) as [HEc | HEs];
    [destruct (Rlt_dec tolL (angle M)) as [HLc | HLs] |].
  - rewrite (exp_log_exact_cases M a tolE tolL)
      by (first [assumption | lra | right; split; assumption]).
    rewrite getRotationMatrix_mkT, getTranslation_mkT.
    assert (Ht4 : 0 <= tau * tau * tau * tau) by (apply Rmult_le_pos; nra).
    pose proof (normSq3_nonneg a) as Ha.
    replace (trace (mmul (msub M M) (transpose (msub M M)))) with 0
      by (destruct_mat3 M; wave_unfold; ring).
    replace (normSq3 (vsub a a)) with 0
      by (destruct_vec3 a; aux_unfold; wave_unfold; ring).
    split; nra.
  - apply Rnot_lt_le in HLs. apply exp_log_small; try assumption. lra.
  - apply Rnot_lt_le in HEs. apply exp_log_small; try assumption. lra.
Qed.



Lemma isRotation_rotZ90 : isRotation rotZ90.
Proof.
  split.
  - unfold rotZ90. wave_unfold. tuple_eq; ring.
  - unfold rotZ90. wave_unfold. ring.
Defined.

Lemma angle_rotZ90 : angle rotZ90 = PI / 2.
Proof.
  unfold angle.
  replace (cosAngle rotZ90) with 0 by (unfold cosAngle, rotZ90; wave_unfold; field).
  apply acos_0.
Defined.

Lemma norm_twist_ex : norm (segment 3 0 twist_ex) = 1.
Proof.
  unfold twist_ex. rewrite norm_segment_mkTwist.
  replace (normSq3 (v3 1 0 0)) with 1 by (aux_unfold; wave_unfold; ring).
  apply sqrt_1.
Defined.


(** *** The half turn *)

Lemma logMap_half_turn (tol : R) : logMap false T_halfTurn tol = twist_zero.
Proof.
  unfold logMap, T_halfTurn, rotX180.
  generalize (logMap_angle (mkT (diag3 1 (-1) (-1)) (v3 0 0 0))). intros wn.
  unfold logMap_from.
  change (@gtb R RScalar wn tol) with (Rgtb wn tol).
  destruct (Rgtb wn tol); cbv beta iota zeta.
  - set (A := @div R RScalar wn _). set (Q := @mul R RScalar _ _). clearbody A Q.
    aux_unfold. wave_unfold. dec_norm. tuple_eq; ring.
  - set (A := @add R RScalar _ _). clearbody A.
    aux_unfold. wave_unfold. dec_norm. tuple_eq; ring.
Qed.

Lemma expMap_twist_zero (tol : R) : block 3 4 0 0 (expMap false twist_zero tol) = T_identity.
Proof.
  unfold expMap, twist_zero. rewrite norm_segment_mkTwist.
  replace (normSq3 (v3 0 0 0)) with 0 by (aux_unfold; wave_unfold; ring).
  rewrite sqrt_0.
  change (@gtb R RScalar 0 tol) with (Rgtb 0 tol).
  destruct (Rgtb 0 tol); cbv beta iota zeta.
  - set (A := @div R RScalar _ _). set (B := @div R RScalar _ _).
    set (C := @div R RScalar _ _). clearbody A B C.
    aux_unfold. wave_unfold. tuple_eq; ring.
  - set (A := @add R RScalar _ _). set (B := @add R RScalar _ _).
    set (C := @add R RScalar _ _). clearbody A B C.
    aux_unfold. wave_unfold. tuple_eq; ring.
Qed.

Lemma T_identity_neq_T_halfTurn : T_identity <> T_halfTurn.
Proof.
  intros H. assert (E : coeff T_identity 1 1 = coeff T_halfTurn 1 1) by (rewrite H; reflexivity).
  aux_unfold. wave_unfold_in E. lra.
Qed.

Lemma isRotation_identity : isRotation (identity 3).
Proof. split; wave_unfold; [tuple_eq; ring | ring]. Defined.

Lemma isRotation_rotX180 : isRotation rotX180.
Proof. split; unfold rotX180, diag3; wave_unfold; [tuple_eq; ring | ring]. Defined.

(** The half turn about the x axis is a valid group element; [R - R^T]
    vanishes on it, so its logarithm has no rotational part whatever the
    tolerance, and the exponential of that is the identity rotation. *)
Lemma exp_log_half_turn :
  isRotation (getRotationMatrix T_halfTurn) /\
  block 3 4 0 0 (expMap false (logMap false T_halfTurn (Rdec 1 4)) (Rdec 1 5)) <> T_halfTurn.
Proof.
  split.
  - unfold T_halfTurn. rewrite getRotationMatrix_mkT. exact isRotation_rotX180.
  - rewrite logMap_half_turn, expMap_twist_zero. exact T_identity_neq_T_halfTurn.
Qed.

(** With tolerances that are not small the series branches are far from
    the closed forms: for the rotation by 2 radians about the x axis, with
    [expMap] on its closed form (tolerance 1) and [logMap] on its series
    (tolerance 3), the round trip returns a rotational part of at most 1.98
    instead of 2. *)
Lemma exp_log_large_tolerance :
  norm (segment 3 0 (mkTwist (v3 2 0 0) (v3 0 0 0))) < PI /\
  vcoeff (logMap false
            (block 3 4 0 0 (expMap false (mkTwist (v3 2 0 0) (v3 0 0 0)) 1)) 3) 0
  <= 2 - 1 / 50.
Proof.
  pose proof PI2_3_2 as Hpi.
  assert (Hn : normSq3 (v3 2 0 0) = 2 * 2) by (aux_unfold; wave_unfold; ring).
  assert (Hth : sqrt (normSq3 (v3 2 0 0)) = 2) by (rewrite Hn; apply sqrt_square; lra).
  split.
  - rewrite norm_segment_mkTwist, Hth. lra.
  - pose proof (log_exp_form (v3 2 0 0) (v3 0 0 0) 1 3) as Hform. cbv zeta in Hform.
    rewrite Hth, Hn in Hform.
    assert (HB : expB 2 1 = (1 - cos 2) / (2 * 2)).
    { unfold expB. rewrite Rgtb_true by lra. reflexivity. }
    assert (HA : expA 2 1 = sin 2 / 2).
    { unfold expA. rewrite Rgtb_true by lra. reflexivity. }
    assert (Hc1 : cos 2 <= 1) by apply COS_bound.
    assert (Hs1 : sin 2 <= 1) by apply SIN_bound.
    assert (Hs0 : 0 <= sin 2) by (apply sin_ge_0; lra).
    rewrite Hform by (rewrite HB; apply Rmult_le_pos; [lra | lra]).
    rewrite HA, HB.
    replace (1 - (1 - cos 2) / (2 * 2) * (2 * 2)) with (cos 2) by field.
    rewrite acos_cos by lra.
    assert (HL : logA 2 3 = 89 / 90).
    { unfold logA. rewrite Rgtb_false by lra. dec_norm. field. }
    rewrite HL.
    set (q := kop _ _ _ _). clearbody q.
    destruct_vec3 q. aux_unfold. wave_unfold. nra.
Qed.


(** *** Inversion, composition and the manifold operators *)

Section RealTransformation.

Context {CST : Constants R} {BE : Backend RScalar}.

(** Every real is finite: [inverse] never fails. *)
Lemma inverse_real (t : Mat R 3 4) : inverse t = Ok (invert t).
Proof. destruct_T t. reflexivity. Qed.

Lemma invert_mkT (M : Mat R 3 3) (t : Vec R 3) :
  invert (mkT M t) = mkT (transpose M) (mvmul (mopp (transpose M)) t).
Proof. destruct_mat3 M. destruct_vec3 t. reflexivity. Qed.

Lemma compose_mkT (A B : Mat R 3 3) (a b : Vec R 3) :
  compose (mkT A a) (mkT B b) = mkT (mmul A B) (vadd (mvmul A b) a).
Proof. destruct_mat3 A. destruct_mat3 B. destruct_vec3 a. destruct_vec3 b. reflexivity. Qed.

Lemma manifoldMinus_real (approximate : bool) (A B : Mat R 3 4) :
  manifoldMinus approximate A B
  = Ok (logMap approximate (compose A (invert B)) logMap_default_tolerance).
Proof. unfold manifoldMinus. rewrite inverse_real. reflexivity. Qed.

(** The translation of [(A * B^-1) * B] is the translation of [A]. *)
Lemma undo_translation (A B : Mat R 3 3) (a b : Vec R 3) :
  vadd (mvmul (mmul A (transpose B)) b) (vadd (mvmul A (mvmul (mopp (transpose B)) b)) a) = a.
Proof.
  destruct_mat3 A. destruct_mat3 B. destruct_vec3 a. destruct_vec3 b.
  wave_unfold. tuple_eq; ring.
Qed.

(** *** Norms of sums and of products *)

Lemma dot_sq_le (e0 e1 e2 a0 a1 a2 : R) :
  (e0 * a0 + e1 * a1 + e2 * a2) * (e0 * a0 + e1 * a1 + e2 * a2)
  <= (e0 * e0 + e1 * e1 + e2 * e2) * (a0 * a0 + a1 * a1 + a2 * a2).
Proof.
  pose proof (Rle_0_sqr (e1 * a2 - e2 * a1)) as H0.
  pose proof (Rle_0_sqr (e2 * a0 - e0 * a2)) as H1.
  pose proof (Rle_0_sqr (e0 * a1 - e1 * a0)) as H2.
  unfold Rsqr in *.
  replace ((e0 * e0 + e1 * e1 + e2 * e2) * (a0 * a0 + a1 * a1 + a2 * a2))
    with ((e0 * a0 + e1 * a1 + e2 * a2) * (e0 * a0 + e1 * a1 + e2 * a2)
          + ((e1 * a2 - e2 * a1) * (e1 * a2 - e2 * a1)
             + (e2 * a0 - e0 * a2) * (e2 * a0 - e0 * a2)
             + (e0 * a1 - e1 * a0) * (e0 * a1 - e1 * a0))) by ring.
  lra.
Qed.

Lemma normSq3_mvmul_le (E : Mat R 3 3) (a : Vec R 3) :
  normSq3 (mvmul E a) <= trace (mmul E (transpose E)) * normSq3 a.
Proof.
  destruct_mat3 E. destruct_vec3 a. aux_unfold. wave_unfold.
  pose proof (dot_sq_le E00 E01 E02 a0 a1 a2) as H0.
  pose proof (dot_sq_le E10 E11 E12 a0 a1 a2) as H1.
  pose proof (dot_sq_le E20 E21 E22 a0 a1 a2) as H2.
  replace ((E00 * E00 + E01 * E01 + E02 * E02 + (E10 * E10 + E11 * E11 + E12 * E12)
            + (E20 * E20 + E21 * E21 + E22 * E22)) * (a0 * a0 + a1 * a1 + a2 * a2))
    with ((E00 * E00 + E01 * E01 + E02 * E02) * (a0 * a0 + a1 * a1 + a2 * a2)
          + (E10 * E10 + E11 * E11 + E12 * E12) * (a0 * a0 + a1 * a1 + a2 * a2)
          + (E20 * E20 + E21 * E21 + E22 * E22) * (a0 * a0 + a1 * a1 + a2 * a2)) by ring.
  lra.
Qed.

Lemma norm3_triangle (p q : Vec R 3) :
  sqrt (normSq3 (vadd p q)) <= sqrt (normSq3 p) + sqrt (normSq3 q).
Proof.
  pose proof (normSq3_nonneg p) as Hp. pose proof (normSq3_nonneg q) as Hq.
  pose proof (sqrt_pos (normSq3 p)) as HP. pose proof (sqrt_pos (normSq3 q)) as HQ.
  pose proof (sqrt_def (normSq3 p) Hp) as HP2. pose proof (sqrt_def (normSq3 q) Hq) as HQ2.
  set (P := sqrt (normSq3 p)) in *. set (Q := sqrt (normSq3 q)) in *.
  rewrite <- (sqrt_square (P + Q)) by lra.
  apply sqrt_le_1_alt.
  revert HP2 HQ2. clear Hp Hq.
  destruct_vec3 p. destruct_vec3 q. aux_unfold. wave_unfold. intros HP2 HQ2.
  pose proof (dot_sq_le p0 p1 p2 q0 q1 q2) as Hcs. rewrite <- HP2, <- HQ2 in Hcs.
  set (d := p0 * q0 + p1 * q1 + p2 * q2) in *.
  assert (Hd : d <= P * Q).
  { destruct (Rle_dec d (P * Q)) as [H | H]; [exact H|]. apply Rnot_le_lt in H.
    assert (0 <= P * Q) by nra. nra. }
  replace ((p0 + q0) * (p0 + q0) + (p1 + q1) * (p1 + q1) + (p2 + q2) * (p2 + q2))
    with ((p0 * p0 + p1 * p1 + p2 * p2) + 2 * d + (q0 * q0 + q1 * q1 + q2 * q2))
    by (unfold d; ring).
  rewrite <- HP2, <- HQ2. nra.
Qed.

Lemma msub_mmul_r3 (X Y M : Mat R 3 3) :
  msub (mmul X M) (mmul Y M) = mmul (msub X Y) M.
Proof. destruct_mat3 X. destruct_mat3 Y. destruct_mat3 M. wave_unfold. tuple_eq; ring. Qed.

Lemma mmul_identity_l3 (A : Mat R 3 3) : mmul (identity 3) A = A.
Proof. destruct_mat3 A. wave_unfold. tuple_eq; ring. Qed.

(** The Frobenius norm does not change under a rotation on the right. *)
Lemma frobenius_rotate (X Y M : Mat R 3 3) :
  isRotation M ->
  trace (mmul (msub (mmul X M) (mmul Y M)) (transpose (msub (mmul X M) (mmul Y M))))
  = trace (mmul (msub X Y) (transpose (msub X Y))).
Proof.
  intros [Ho _]. rewrite msub_mmul_r3, transpose_mmul3, mmul_assoc3.
  rewrite <- (mmul_assoc3 M), Ho, mmul_identity_l3. reflexivity.
Qed.

Lemma vsub_vadd_mvmul (X Y : Mat R 3 3) (a u v : Vec R 3) :
  vsub (vadd (mvmul X a) u) (vadd (mvmul Y a) v) = vadd (mvmul (msub X Y) a) (vsub u v).
Proof.
  destruct_mat3 X. destruct_mat3 Y. destruct_vec3 a. destruct_vec3 u. destruct_vec3 v.
  wave_unfold. tuple_eq; ring.
Qed.

(** [plus(T, minus(T', T))] against [T'], through the round trip of the
    relative element [T' * inverse(T)]. *)
Lemma plus_minus_bound (t t' : Mat R 3 4) (tau : R) :
  0 <= TOL <= tau -> 0 <= logMap_default_tolerance <= tau -> tau <= 1 / 2 ->
  isRotation (getRotationMatrix t) -> isRotation (getRotationMatrix t') ->
  angle (mmul (getRotationMatrix t') (transpose (getRotationMatrix t))) < PI ->
  exists w,
    manifoldMinus false t' t = Ok w /\
    frobenius (msub (getRotationMatrix (manifoldPlus false t w)) (getRotationMatrix t'))
      <= 2 * (tau * tau) /\
    norm (vsub (getTranslation (manifoldPlus false t w)) (getTranslation t'))
      <= 2 * (tau * tau)
         * (norm (getTranslation t) + norm (getTranslation (compose t' (invert t)))) /\
    (angle (mmul (getRotationMatrix t') (transpose (getRotationMatrix t))) = 0 \/
     (TOL < angle (mmul (getRotationMatrix t') (transpose (getRotationMatrix t))) /\
      logMap_default_tolerance
        < angle (mmul (getRotationMatrix t') (transpose (getRotationMatrix t)))) ->
     manifoldPlus false t w = t').
Proof.
  intros HE HL Htau.
  rewrite <- (mkT_blocks t), <- (mkT_blocks t'), !getRotationMatrix_mkT, !getTranslation_mkT.
  generalize (getRotationMatrix t) (getTranslation t) (getRotationMatrix t')
    (getTranslation t').
  clear t t'. intros M a M' a' Hrot Hrot' Hpi.
  assert (Ht0 : 0 <= tau) by lra.
  rewrite manifoldMinus_real. eexists. split; [reflexivity|].
  rewrite manifoldPlus_compose, invert_mkT, compose_mkT.
  rewrite getTranslation_mkT.
  set (RD := mmul M' (transpose M)) in *.
  set (tD := vadd (mvmul M' (mvmul (mopp (transpose M)) a)) a').
  assert (HX : isRotation RD)
    by (apply isRotation_mmul; [exact Hrot' | apply isRotation_transpose; exact Hrot]).
  assert (HM' : mmul RD M = M').
  { unfold RD. rewrite mmul_assoc3, (rotation_transpose_mmul M Hrot).
    apply mmul_identity_r3. }
  assert (Ha' : vadd (mvmul RD a) tD = a') by apply undo_translation.
  destruct (exp_log_bound RD tD TOL logMap_default_tolerance tau) as [HR HT];
    try assumption.
  pose proof (exp_log_exact_cases RD tD TOL logMap_default_tolerance HX) as Hexact.
  set (D := block 3 4 0 0 (expMap false (logMap false (mkT RD tD) logMap_default_tolerance) TOL))
    in *.
  rewrite <- (mkT_blocks D) at 1 2 3.
  rewrite compose_mkT, getRotationMatrix_mkT, getTranslation_mkT.
  split; [| split].
  - unfold frobenius. rewrite <- HM' at 1 2. rewrite frobenius_rotate by exact Hrot.
    replace (2 * (tau * tau)) with (2 * (tau * tau) * sqrt 1) by (rewrite sqrt_1; ring).
    apply sqrt_bound; [exact Ht0 | lra | lra].
  - rewrite <- Ha' at 1. rewrite vsub_vadd_mvmul.
    rewrite !norm_sqrt, !squaredNorm3.
    eapply Rle_trans; [apply norm3_triangle|].
    rewrite Rmult_plus_distr_l. apply Rplus_le_compat.
    + apply sqrt_bound; [exact Ht0 | apply normSq3_nonneg |].
      eapply Rle_trans; [apply normSq3_mvmul_le|].
      apply Rmult_le_compat_r; [apply normSq3_nonneg | exact HR].
    + apply sqrt_bound; [exact Ht0 | apply normSq3_nonneg | exact HT].
  - intros Hcase.
    rewrite Hexact by (first [lra | assumption]).
    rewrite getRotationMatrix_mkT, getTranslation_mkT, HM', Ha'. reflexivity.
Qed.


(** The relative rotation of the half turn and the identity: the computed
    difference is the zero twist and adding it changes nothing. *)
Lemma minus_half_turn : manifoldMinus false T_halfTurn T_identity = Ok twist_zero.
Proof.
  rewrite manifoldMinus_real.
  replace (compose T_halfTurn (invert T_identity)) with T_halfTurn.
  - rewrite logMap_half_turn. reflexivity.
  - aux_unfold. wave_unfold. tuple_eq; ring.
Qed.

Lemma plus_twist_zero : manifoldPlus false T_identity twist_zero = T_identity.
Proof.
  rewrite manifoldPlus_compose, expMap_twist_zero.
  aux_unfold. wave_unfold. tuple_eq; ring.
Qed.

End RealTransformation.

(** Section 8 of the specification: two translations compose to their sum. *)
Example compose_two_shifts :
  getTranslation (compose T_shift (mkT (identity 3) (v3 0 1 0))) = v3 1 1 0.
Proof. aux_unfold. wave_unfold. tuple_eq; ring. Qed.

Lemma norm_twist_zero : norm (segment 3 0 twist_zero) = 0.
Proof.
  unfold twist_zero. rewrite norm_segment_mkTwist.
  replace (normSq3 (v3 0 0 0)) with 0 by (aux_unfold; wave_unfold; ring).
  apply sqrt_0.
Qed.

(** At a relative rotation of exactly pi, which the statement above leaves
    out: with [T] the identity and [T'] the half turn about the x axis, both
    valid, [minus(T', T)] is the zero twist and [plus(T, minus(T', T))] is
    [T], not [T']. *)
Lemma plus_minus_half_turn :
  isRotation (getRotationMatrix T_identity) /\
  isRotation (getRotationMatrix T_halfTurn) /\
  @manifoldMinus R RScalar some_constants false T_halfTurn T_identity = Ok twist_zero /\
  norm (segment 3 0 twist_zero) < PI /\
  @manifoldPlus R RScalar some_constants false T_identity twist_zero <> T_halfTurn.
Proof.
  repeat split.
  - unfold T_identity. rewrite getRotationMatrix_mkT. apply isRotation_identity.
  - unfold T_identity. rewrite getRotationMatrix_mkT. apply isRotation_identity.
  - unfold T_halfTurn. rewrite getRotationMatrix_mkT. apply isRotation_rotX180.
  - unfold T_halfTurn. rewrite getRotationMatrix_mkT. apply isRotation_rotX180.
  - apply minus_half_turn.
  - rewrite norm_twist_zero. apply PI_RGT_0.
  - rewrite plus_twist_zero. exact T_identity_neq_T_halfTurn.
Qed.

Lemma angle_quarter_turn :
  angle (mmul (getRotationMatrix T_quarterTurn) (transpose (getRotationMatrix T_identity)))
  = PI / 2.
Proof.
  replace (mmul (getRotationMatrix T_quarterTurn) (transpose (getRotationMatrix T_identity)))
    with rotZ90 by (aux_unfold; wave_unfold; tuple_eq; ring).
  exact angle_rotZ90.
Defined.


(** *** Interpolation between the identity and a unit shift *)

Lemma SE3LeftJacobian_small (W : Vec R 6) (tol : R) :
  norm (segment 3 0 W) <= tol ->
  SE3LeftJacobian W tol = madd (identity 6) (smul (Rdec 5 1) (adjBlocks W)).
Proof.
  intros H. unfold SE3LeftJacobian.
  change (@gtb R RScalar (norm (segment 3 0 W)) tol) with (Rgtb (norm (segment 3 0 W)) tol).
  rewrite (Rgtb_false _ _ H). reflexivity.
Qed.

Lemma logMap_approx_shift (tol : R) :
  logMap true T_shift tol = mkTwist (v3 0 0 0) (v3 1 0 0).
Proof.
  unfold logMap. generalize (logMap_angle T_shift). intros wn.
  unfold logMap_from. aux_unfold. wave_unfold. dec_norm. tuple_eq; ring.
Qed.

Lemma norm_shift_twist : norm (segment 3 0 (mkTwist (v3 0 0 0) (v3 1 0 0))) = 0.
Proof.
  rewrite norm_segment_mkTwist.
  replace (normSq3 (v3 0 0 0)) with 0 by (aux_unfold; wave_unfold; ring).
  apply sqrt_0.
Qed.

Section Interpolation.

Context {CST : Constants R} {BE : Backend RScalar}.

Lemma minus_shift_identity :
  manifoldMinus true T_shift T_identity = Ok (mkTwist (v3 0 0 0) (v3 1 0 0)).
Proof.
  rewrite manifoldMinus_real.
  replace (compose T_shift (invert T_identity)) with T_shift
    by (aux_unfold; wave_unfold; tuple_eq; ring).
  rewrite logMap_approx_shift. reflexivity.
Qed.

(** Adding a twist without rotational part to the identity. *)
Lemma plus_pure_translation (v : Vec R 3) :
  manifoldPlus true T_identity (mkTwist (v3 0 0 0) v) = mkT (identity 3) v.
Proof.
  unfold manifoldPlus, expMap.
  generalize (norm (segment 3 0 (mkTwist (v3 0 0 0) v))). intros wn.
  destruct_vec3 v. aux_unfold. wave_unfold. dec_norm. tuple_eq; ring.
Qed.

(** The increment of the code: the last coordinate is [-1/2]. *)
Lemma increment_code :
  vadd (vadd (mvmul (block 6 6 0 6 hat_zero) twist_zero)
             (mvmul (block 6 6 0 0 candle_last) (mkTwist (v3 0 0 0) (v3 1 0 0))))
       (mvmul (mmul (block 6 6 0 6 candle_last)
                    (inverseLeftJacobian true (mkTwist (v3 0 0 0) (v3 1 0 0))))
              twist_ey)
  = mkTwist (v3 0 0 0) (v3 0 0 (- (1 / 2))).
Proof.
  unfold inverseLeftJacobian. aux_unfold. wave_unfold. dec_norm. tuple_eq; field.
Qed.

(** The increment of the claim, with either left Jacobian: [+1/2]. *)
Lemma increment_claimed (b : bool) :
  vadd (vadd (mvmul (block 6 6 0 6 hat_zero) twist_zero)
             (mvmul (block 6 6 0 0 candle_last) (mkTwist (v3 0 0 0) (v3 1 0 0))))
       (mvmul (mmul (block 6 6 0 6 candle_last)
                    (leftJacobian b (mkTwist (v3 0 0 0) (v3 1 0 0))))
              twist_ey)
  = mkTwist (v3 0 0 0) (v3 0 0 (1 / 2)).
Proof.
  unfold leftJacobian. destruct b.
  - aux_unfold. wave_unfold. dec_norm. tuple_eq; field.
  - rewrite SE3LeftJacobian_small
      by (rewrite norm_shift_twist; unfold dec, RScalar, Rdec; simpl; lra).
    aux_unfold. wave_unfold. dec_norm. tuple_eq; field.
Qed.

(** What the code returns: the last coordinate moves by [-1/2]. *)
Lemma interpolate_shift_code :
  interpolate true true T_identity T_shift twist_zero twist_ey hat_zero candle_last
  = Ok (mkT (identity 3) (v3 0 0 (- (1 / 2)))).
Proof.
  rewrite interpolate_unfold. unfold interpolate_with.
  rewrite minus_shift_identity. unfold bind.
  rewrite increment_code, plus_pure_translation. reflexivity.
Qed.

(** What the claim describes, with either left Jacobian: [+1/2]. *)
Lemma interpolate_shift_claimed (b : bool) :
  interpolate_with (leftJacobian b) true true
    T_identity T_shift twist_zero twist_ey hat_zero candle_last
  = Ok (mkT (identity 3) (v3 0 0 (1 / 2))).
Proof.
  unfold interpolate_with.
  rewrite minus_shift_identity. unfold bind.
  rewrite increment_claimed, plus_pure_translation. reflexivity.
Qed.

End Interpolation.

Lemma shift_results_differ :
  mkT (identity 3) (v3 0 0 (- (1 / 2))) <> mkT (identity 3) (v3 0 0 (1 / 2)).
Proof.
  intros H.
  assert (E : coeff (mkT (identity 3) (v3 0 0 (- (1 / 2)))) 2 3
              = coeff (mkT (identity 3) (v3 0 0 (1 / 2))) 2 3) by (rewrite H; reflexivity).
  aux_unfold. wave_unfold_in E. lra.
Qed.

(** C1 (counterexample). Interpolating in approximate mode between the
    identity and the unit shift along x, with [twist_kp1] the unit rotation
    about y, [hat = 0] and [candle] selecting the last coordinate, the code
    moves the last coordinate by [-1/2] while the increment built with the left
    Jacobian, exact or approximate, moves it by [+1/2]. *)
Lemma interpolate_left_jacobian_counterexample :
  @interpolate R RScalar some_constants some_backend true true
     T_identity T_shift twist_zero twist_ey hat_zero candle_last
  <> @interpolate_with R RScalar some_constants (leftJacobian false) true true
       T_identity T_shift twist_zero twist_ey hat_zero candle_last /\
  @interpolate R RScalar some_constants some_backend true true
     T_identity T_shift twist_zero twist_ey hat_zero candle_last
  <> @interpolate_with R RScalar some_constants (leftJacobian true) true true
       T_identity T_shift twist_zero twist_ey hat_zero candle_last.
Proof.
  rewrite interpolate_shift_code, !interpolate_shift_claimed.
  split; intros H; apply shift_results_differ;
    exact (f_equal (fun r => match r with Ok t => t | Err _ => T_identity end) H).
Qed.

(** *** The Jacobians of the manifold difference *)

Section MinusJacobians.

Context {CST : Constants R} {BE : Backend RScalar}.

Lemma inverseAndJacobian_real (B : Mat R 3 4) (J : Mat R 6 6) :
  exists J_inv, inverseAndJacobian B J = Ok (invert B, J_inv).
Proof. unfold inverseAndJacobian. rewrite inverse_real. eexists. reflexivity. Qed.

(** [J_comp_inv] is the product of the right Jacobian of the composition
    and the Jacobian of the inversion. *)
Lemma J_comp_inv_chain (A B : Mat R 3 4) (J0 J1 J_inv : Mat R 6 6) :
  inverseAndJacobian B J1 = Ok (invert B, J_inv) ->
  J_comp_inv_blocks J0 A B (invert B) = mmul (compose_J_right A (invert B)) J_inv.
Proof.
  unfold inverseAndJacobian. rewrite inverse_real. unfold bind.
  intros H. injection H as H. subst J_inv.
  destruct_T A. destruct_T B. wave_unfold. tuple_eq; ring.
Qed.

(** C3 (amended). [manifoldMinusAndJacobian(A, B)] returns the twist
    [log(A * inverse(B))], as left Jacobian the inverse left Jacobian at that
    twist, and as right Jacobian that same matrix times the Jacobian of
    [compose(A, inverse(B))] with respect to [B]: the Jacobian with respect to
    the right operand of the composition times the Jacobian of the inversion
    of [B] (as [inverseAndJacobian] returns it). *)
Theorem manifoldMinusAndJacobian_outputs (approximate : bool) (A B : Mat R 3 4) :
  exists d J_right,
    manifoldMinus approximate A B = Ok d /\
    d = logMap approximate (compose A (invert B)) logMap_default_tolerance /\
    inverse B = Ok (invert B) /\
    minus_J_right_chain approximate A B = Ok J_right /\
    manifoldMinusAndJacobian approximate A B
    = Ok (d, inverseLeftJacobian approximate d, J_right).
Proof.
  destruct (inverseAndJacobian_real B (mzero 6 6)) as [J_inv HJ].
  eexists. eexists.
  split; [apply manifoldMinus_real|].
  split; [reflexivity|].
  split; [apply inverse_real|].
  split.
  - unfold minus_J_right_chain. rewrite HJ. reflexivity.
  - unfold manifoldMinusAndJacobian. rewrite inverse_real. unfold bind, deepCopy.
    rewrite (J_comp_inv_chain A B _ _ _ HJ).
    unfold inverseLeftJacobian. destruct approximate; reflexivity.
Qed.

Lemma logMap_approx_identity (tol : R) :
  logMap true (compose T_identity (invert T_identity)) tol = twist_zero.
Proof.
  unfold logMap. generalize (logMap_angle (compose T_identity (invert T_identity))).
  intros wn.
  unfold logMap_from. aux_unfold. wave_unfold. dec_norm. tuple_eq; ring.
Qed.

(** At the identity the code returns [-I] as right Jacobian. *)
Lemma minus_J_right_identity_code :
  bind (manifoldMinusAndJacobian true T_identity T_identity) (fun r => Ok (snd r))
  = Ok (mopp (identity 6)).
Proof.
  unfold manifoldMinusAndJacobian. rewrite inverse_real. unfold bind, deepCopy, snd.
  rewrite logMap_approx_identity.
  f_equal. aux_unfold. wave_unfold. dec_norm. tuple_eq; field.
Qed.

(** The right Jacobian of the claim is [+I] there. *)
Lemma minus_J_right_identity_claimed :
  minus_J_right_claimed true T_identity T_identity = Ok (identity 6).
Proof.
  unfold minus_J_right_claimed. rewrite inverse_real. unfold bind.
  rewrite logMap_approx_identity.
  f_equal. unfold inverseLeftJacobian. aux_unfold. wave_unfold. dec_norm. tuple_eq; field.
Qed.

End MinusJacobians.

(** C3 (counterexample). For [A = B =] identity, in approximate mode, the
    right Jacobian returned by the code is [-I], whereas the inverse left
    Jacobian times the Jacobian of [compose(A, inverse(B))] with respect to
    its right operand is [+I]. *)
Lemma minus_J_right_counterexample :
  bind (@manifoldMinusAndJacobian R RScalar some_constants some_backend true
          T_identity T_identity) (fun r => Ok (snd r))
  <> @minus_J_right_claimed R RScalar some_constants some_backend true
       T_identity T_identity.
Proof.
  rewrite minus_J_right_identity_code, minus_J_right_identity_claimed.
  intros H.
  assert (E : coeff (mopp (identity 6) : Mat R 6 6) 0 0 = coeff (identity 6 : Mat R 6 6) 0 0).
  { exact (f_equal (fun r => match r with Ok m => coeff m 0 0 | Err _ => 0 end) H). }
  wave_unfold_in E. lra.
Qed.

(** *** Normalisation *)

(** C4 (the failing input). The rotation block [diag(1/2, 1, 1)] has
    determinant [1/2], which differs from 1 by more than the tolerance
    [1e-4], and [normalizeMaybe] leaves the element as it is. *)
Theorem normalizeMaybe_keeps_shrunk_rotation (BE : Backend RScalar) :
  normalizeMaybe T_shrunk (Rdec 1 4) = T_shrunk /\
  determinant (getRotationMatrix T_shrunk) = 1 / 2 /\
  Rdec 1 4 < Rabs (determinant (getRotationMatrix T_shrunk) - 1).
Proof.
  assert (Hd : determinant (getRotationMatrix T_shrunk) = 1 / 2).
  { aux_unfold. wave_unfold. field. }
  split; [| split].
  - unfold normalizeMaybe.
    change (block 3 3 0 0 T_shrunk) with (getRotationMatrix T_shrunk).
    rewrite Hd.
    change (@gtb R RScalar (@sub R RScalar (1 / 2) (dec 1 0)) (Rdec 1 4))
      with (Rgtb (1 / 2 - Rdec 1 0) (Rdec 1 4)).
    rewrite Rgtb_false by (unfold Rdec; simpl; lra).
    reflexivity.
  - exact Hd.
  - rewrite Hd. unfold Rdec; simpl.
    replace (1 / 2 - 1) with (- (1 / 2)) by lra.
    rewrite Rabs_Ropp, Rabs_pos_eq; lra.
Qed.

(** *** The guard of [acos] *)

Lemma logMap_arg_real (t : Mat R 3 4) :
  logMap_arg t = (trace (getRotationMatrix t) - 1) / 2.
Proof. destruct_T t. wave_unfold. dec_norm. field. Qed.

(** C10. Below the domain the argument goes to [acos] as it is: for every
    element with [(trace(R) - 1) / 2 < -1] the angle that [logMap] uses is
    whatever [acos] returns on that argument; in the arithmetic with a
    non-finite value it is NaN, whereas above [1] the angle is zero. *)
Theorem logMap_lower_side_unguarded :
  (forall (f : R -> R) (approximate : bool) (t : Mat R 3 4) (tol : R),
     (trace (getRotationMatrix t) - 1) / 2 < -1 ->
     @logMap R (withAcos f RScalar) approximate t tol
     = @logMap_from R (withAcos f RScalar) approximate
         (f ((trace (getRotationMatrix t) - 1) / 2)) t tol) /\
  (forall (t : Mat xreal 3 4) (x : R),
     logMap_arg t = Some x -> x < -1 -> logMap_angle t = None) /\
  (forall (t : Mat xreal 3 4) (x : R),
     logMap_arg t = Some x -> 1 < x -> logMap_angle t = Some 0).
Proof.
  split; [| split].
  - intros f approximate t tol H. rewrite <- logMap_arg_real in *.
    unfold logMap. f_equal.
    change (@logMap_angle R (withAcos f RScalar) t)
      with (if Rgtb (logMap_arg t) (Rdec 10 1) then 0 else f (logMap_arg t)).
    rewrite Rgtb_false by (rewrite Rdec_10_1; lra).
    reflexivity.
  - intros t x Hx Hlt. unfold logMap_angle. rewrite Hx.
    change (@gtb xreal XScalar (Some x) (dec 10 1)) with (Rgtb x (Rdec 10 1)).
    rewrite Rgtb_false by (rewrite Rdec_10_1; lra).
    change (@facos xreal XScalar (Some x)) with (xacos (Some x)).
    unfold xacos. destruct (Rlt_dec x (-1)); [reflexivity | contradiction].
  - intros t x Hx Hgt. unfold logMap_angle. rewrite Hx.
    change (@gtb xreal XScalar (Some x) (dec 10 1)) with (Rgtb x (Rdec 10 1)).
    rewrite Rgtb_true by (rewrite Rdec_10_1; lra).
    reflexivity.
Qed.

Lemma trace_T_overturned : (trace (getRotationMatrix T_overturned) - 1) / 2 = - (11 / 10).
Proof. aux_unfold. wave_unfold. field. Defined.

Lemma logMap_lower_side_unguarded_witness :
  @logMap R (withAcos (fun _ => 0) RScalar) false T_overturned 0
  = @logMap_from R (withAcos (fun _ => 0) RScalar) false 0 T_overturned 0.
Proof.
  destruct logMap_lower_side_unguarded as [H _].
  apply (H (fun _ => 0) false T_overturned 0).
  rewrite trace_T_overturned. lra.
Defined.

Lemma logMap_arg_T_stretched : logMap_arg T_stretched = 23 / 20.
Proof. aux_unfold. wave_unfold. dec_norm. field. Defined.

Lemma logMap_upper_guard_witness :
  logMap_angle T_stretched = 0 /\
  logMap false T_stretched 0 = logMap_from false 0 T_stretched 0 /\
  forall f : R -> R,
    @logMap R (withAcos f RScalar) false T_stretched 0 = logMap false T_stretched 0.
Proof.
  apply (@logMap_upper_guard R RScalar false T_stretched 0).
  rewrite logMap_arg_T_stretched.
  change (Rgtb (23 / 20) (Rdec 10 1) = true).
  apply Rgtb_true. rewrite Rdec_10_1; lra.
Defined.

Lemma setters_check_finiteness_witness :
  @setFromExpMap xreal XScalar x_constants false (mzero 3 4) x_twist_nan
    = Err InvalidArgument /\
  exists t, @setFromExpMap xreal XScalar x_constants false (mzero 3 4) x_twist_zero = Ok t.
Proof.
  destruct (@setters_check_finiteness xreal XScalar x_constants false (mzero 3 4))
    as (_ & _ & _ & _ & Hbad & Hgood).
  split.
  - apply Hbad. exists O. split; [lia | reflexivity].
  - apply Hgood. intros i Hi.
    do 6 (destruct i as [|i]; [reflexivity|]). lia.
Defined.

(** *** Normalisation of an upward drift *)

Lemma getRotationMatrix_setBlock (M : Mat R 3 3) (t : Mat R 3 4) :
  getRotationMatrix (setBlock 0 0 M t) = M.
Proof. destruct_mat3 M. destruct_T t. reflexivity. Qed.

Lemma determinant_identity3 : determinant (identity 3 : Mat R 3 3) = 1.
Proof. wave_unfold. ring. Qed.

(** When the determinant exceeds [1] by more than the tolerance and the
    backend returns a symmetric [X] with [X (R R^T) X = I] and positive
    determinant for [(R R^T)^(-1/2)], the normalised block is a rotation and
    a second call changes nothing. *)
Lemma normalizeMaybe_upward_drift (BE : Backend RScalar) (t : Mat R 3 4) (tol : R) :
  let M := getRotationMatrix t in
  let X := inverse3 (sqrt3 (mmul M (transpose M))) in
  0 <= tol -> tol < determinant M - 1 ->
  transpose X = X -> mmul (mmul X (mmul M (transpose M))) X = identity 3 ->
  0 < determinant X ->
  normalizeMaybe t tol = setBlock 0 0 (mmul X M) t /\
  isRotation (getRotationMatrix (normalizeMaybe t tol)) /\
  normalizeMaybe (normalizeMaybe t tol) tol = normalizeMaybe t tol.
Proof.
  intros M X Htol Hdrift Hsym Hinv Hpos.
  assert (Hn : normalizeMaybe t tol = setBlock 0 0 (mmul X M) t).
  { unfold normalizeMaybe.
    change (block 3 3 0 0 t) with M.
    change (@gtb R RScalar (@sub R RScalar (determinant M) (dec 1 0)) tol)
      with (Rgtb (determinant M - Rdec 1 0) tol).
    rewrite Rgtb_true by (rewrite Rdec_1_0; lra).
    reflexivity. }
  assert (Ho : mmul (mmul X M) (transpose (mmul X M)) = identity 3).
  { rewrite transpose_mmul3, Hsym, mmul_assoc3, <- (mmul_assoc3 M).
    rewrite <- mmul_assoc3. exact Hinv. }
  assert (Hd : determinant (mmul X M) = 1).
  { assert (Hsq : determinant (mmul X M) * determinant (mmul X M) = 1).
    { rewrite <- (determinant_transpose3 (mmul X M)) at 2.
      rewrite <- determinant_mmul3, Ho. apply determinant_identity3. }
    rewrite determinant_mmul3 in *.
    assert (0 < determinant X * determinant M) by (apply Rmult_lt_0_compat; lra).
    nra. }
  split; [exact Hn|]. split.
  - rewrite Hn, getRotationMatrix_setBlock. split; assumption.
  - rewrite Hn. unfold normalizeMaybe at 1.
    change (block 3 3 0 0 (setBlock 0 0 (mmul X M) t))
      with (getRotationMatrix (setBlock 0 0 (mmul X M) t)).
    rewrite getRotationMatrix_setBlock, Hd.
    change (@gtb R RScalar (@sub R RScalar 1 (dec 1 0)) tol)
      with (Rgtb (1 - Rdec 1 0) tol).
    rewrite Rgtb_false by (rewrite Rdec_1_0; lra).
    reflexivity.
Qed.

(** *** Interpolation in exact mode *)

(** In exact mode the same input gives the same two increments as soon as
    the backend inverts the matrix [I + adj / 2] it is given. *)
Lemma inverse_of_shift_jacobian (X : Mat R 6 6) :
  mmul X (SE3LeftJacobian (mkTwist (v3 0 0 0) (v3 1 0 0)) (Rdec 1 4)) = identity 6 ->
  X = SE3ApproxInvLeftJacobian (mkTwist (v3 0 0 0) (v3 1 0 0)).
Proof.
  rewrite SE3LeftJacobian_small
    by (rewrite norm_shift_twist, Rdec_1_4; lra).
  destruct X as [[x00 [x01 [x02 [x03 [x04 [x05 []]]]]]]
                 [[x10 [x11 [x12 [x13 [x14 [x15 []]]]]]]
                  [[x20 [x21 [x22 [x23 [x24 [x25 []]]]]]]
                   [[x30 [x31 [x32 [x33 [x34 [x35 []]]]]]]
                    [[x40 [x41 [x42 [x43 [x44 [x45 []]]]]]]
                     [[x50 [x51 [x52 [x53 [x54 [x55 []]]]]]] []]]]]]].
  intros H. aux_unfold. wave_unfold_in H. wave_unfold.
  repeat match goal with
  | H : context [Rdec ?m ?k] |- _ =>
      let v := eval vm_compute in (10 ^ Z.of_nat k)%Z in
      change (Rdec m k) with (IZR m / IZR v) in H
  end.
  dec_norm.
  injection H. intros.
  tuple_eq; lra.
Qed.

Section InterpolationExact.

Context {CST : Constants R} {BE : Backend RScalar}.

Lemma plus_pure_translation_exact (v : Vec R 3) :
  0 <= TOL -> manifoldPlus false T_identity (mkTwist (v3 0 0 0) v) = mkT (identity 3) v.
Proof.
  intros H. rewrite manifoldPlus_compose, expMap_exact_zero by exact H.
  destruct_vec3 v. aux_unfold. wave_unfold. tuple_eq; ring.
Qed.

Lemma minus_shift_identity_exact :
  0 <= logMap_default_tolerance ->
  manifoldMinus false T_shift T_identity = Ok (mkTwist (v3 0 0 0) (v3 1 0 0)).
Proof.
  intros H. rewrite manifoldMinus_real.
  replace (compose T_shift (invert T_identity)) with T_shift
    by (aux_unfold; wave_unfold; tuple_eq; ring).
  unfold T_shift. rewrite logMap_exact_identity by exact H. reflexivity.
Qed.

Lemma interpolate_shift_exact_mode :
  0 <= TOL -> 0 <= logMap_default_tolerance ->
  mmul (inverse6 (SE3LeftJacobian (mkTwist (v3 0 0 0) (v3 1 0 0)) (Rdec 1 4)))
       (SE3LeftJacobian (mkTwist (v3 0 0 0) (v3 1 0 0)) (Rdec 1 4)) = identity 6 ->
  interpolate false false T_identity T_shift twist_zero twist_ey hat_zero candle_last
  = Ok (mkT (identity 3) (v3 0 0 (- (1 / 2)))) /\
  interpolate_with (leftJacobian false) false false
    T_identity T_shift twist_zero twist_ey hat_zero candle_last
  = Ok (mkT (identity 3) (v3 0 0 (1 / 2))).
Proof.
  intros HT HL Hinv. split.
  - rewrite interpolate_unfold. unfold interpolate_with.
    rewrite minus_shift_identity_exact by exact HL. unfold bind.
    replace (inverseLeftJacobian false (mkTwist (v3 0 0 0) (v3 1 0 0)))
      with (inverseLeftJacobian true (mkTwist (v3 0 0 0) (v3 1 0 0)))
      by (symmetry; apply inverse_of_shift_jacobian; exact Hinv).
    rewrite increment_code, plus_pure_translation_exact by exact HT. reflexivity.
  - unfold interpolate_with.
    rewrite minus_shift_identity_exact by exact HL. unfold bind.
    rewrite increment_claimed, plus_pure_translation_exact by exact HT. reflexivity.
Qed.

End InterpolationExact.


(** * Further properties of the module

    The functions of the class that the statements above do not reach,
    and the distance factor of the optimization examples. *)

(** *** Points *)

Lemma transform_mkT (M : Mat R 3 3) (t p : Vec R 3) :
  transform (mkT M t) p = vadd (mvmul M p) t.
Proof. destruct_mat3 M. destruct_vec3 t. destruct_vec3 p. reflexivity. Qed.

Lemma mvmul_mmul3 (A B : Mat R 3 3) (p : Vec R 3) :
  mvmul (mmul A B) p = mvmul A (mvmul B p).
Proof.
  destruct_mat3 A. destruct_mat3 B. destruct_vec3 p. wave_unfold. tuple_eq; ring.
Qed.

Lemma mvmul_identity3 (p : Vec R 3) : mvmul (identity 3) p = p.
Proof. destruct_vec3 p. wave_unfold. tuple_eq; ring. Qed.

(** X1. Transforming by a composition is transforming by the right
    operand, then by the left one. *)
Theorem transform_compose (A B : Mat R 3 4) (p : Vec R 3) :
  transform (compose A B) p = transform A (transform B p).
Proof.
  destruct_T A. destruct_T B. destruct_vec3 p. wave_unfold. tuple_eq; ring.
Qed.

(** X2. [inverseTransform] gives the point that [transform] gives on the
    element returned by [inverse()], for every element, valid or not. *)
Theorem inverseTransform_is_transform_of_inverse (t : Mat R 3 4) (p : Vec R 3) :
  exists tinv, inverse t = Ok tinv /\ transform tinv p = inverseTransform t p.
Proof.
  exists (invert t). split; [apply inverse_real|].
  destruct_T t. destruct_vec3 p. wave_unfold. tuple_eq; ring.
Qed.

(** X3. On an element with an orthonormal rotation block of determinant
    [+1], [transform] and [inverseTransform] undo each other. *)
Theorem transform_inverseTransform_round_trip (t : Mat R 3 4) (p : Vec R 3) :
  isRotation (getRotationMatrix t) ->
  inverseTransform t (transform t p) = p /\ transform t (inverseTransform t p) = p.
Proof.
  rewrite <- (mkT_blocks t). rewrite getRotationMatrix_mkT.
  generalize (getRotationMatrix t) (getTranslation t). clear t. intros M a Hrot.
  rotation_facts M Hrot. rotation_identities.
  destruct_vec3 a. destruct_vec3 p. aux_unfold. wave_unfold.
  split; tuple_eq; nsatz.
Qed.

Lemma transform_inverseTransform_round_trip_witness :
  inverseTransform T_quarterTurn (transform T_quarterTurn (v3 1 0 0)) = v3 1 0 0 /\
  transform T_quarterTurn (inverseTransform T_quarterTurn (v3 1 0 0)) = v3 1 0 0.
Proof.
  apply transform_inverseTransform_round_trip.
  unfold T_quarterTurn. rewrite getRotationMatrix_mkT. exact isRotation_rotZ90.
Defined.

(** X4. The Jacobians of [transformAndJacobian]: [Jpoint] gives the exact
    change of the transformed point under a change of the input point, and
    [Jparam] applied to a twist [(w, v)] is [w x p' + v], the displacement of
    the transformed point [p'] generated by that twist. *)
Theorem transformAndJacobian_jacobians (t : Mat R 3 4) (p q : Vec R 3) (delta : Vec R 6)
    (J1 : Mat R 3 3) (J2 : Mat R 3 6) :
  fst (fst (transformAndJacobian t p J1 J2)) = transform t p /\
  transform t (vadd p q)
  = vadd (transform t p) (mvmul (snd (fst (transformAndJacobian t p J1 J2))) q) /\
  mvmul (snd (transformAndJacobian t p J1 J2)) delta
  = vadd (cross (segment 3 0 delta) (transform t p)) (segment 3 3 delta).
Proof.
  destruct_T t. destruct_vec3 p. destruct_vec3 q.
  destruct delta as [w0 [w1 [w2 [u0 [u1 [u2 []]]]]]].
  split; [reflexivity|]. split.
  - wave_unfold. tuple_eq; ring.
  - aux_unfold. wave_unfold. tuple_eq; ring.
Qed.

(** *** Group laws *)

Lemma compose_default_r (A : Mat R 3 4) : compose A Transformation_default = A.
Proof. destruct_T A. wave_unfold. tuple_eq; ring. Qed.

Lemma compose_default_l (A : Mat R 3 4) : compose Transformation_default A = A.
Proof. destruct_T A. wave_unfold. tuple_eq; ring. Qed.

(** X5. Composition is associative, and the default-constructed element is
    a unit on both sides. *)
Theorem compose_monoid (A B C : Mat R 3 4) :
  compose (compose A B) C = compose A (compose B C) /\
  compose A Transformation_default = A /\
  compose Transformation_default A = A.
Proof.
  split; [| split; [apply compose_default_r | apply compose_default_l]].
  destruct_T A. destruct_T B. destruct_T C. wave_unfold. tuple_eq; ring.
Qed.

Lemma compose_invert_r (M : Mat R 3 3) (a : Vec R 3) :
  isRotation M -> compose (mkT M a) (invert (mkT M a)) = T_identity.
Proof.
  intros Hrot. rotation_facts M Hrot. rotation_identities.
  destruct_vec3 a. aux_unfold. wave_unfold. tuple_eq; nsatz.
Qed.

Lemma compose_invert_l (M : Mat R 3 3) (a : Vec R 3) :
  isRotation M -> compose (invert (mkT M a)) (mkT M a) = T_identity.
Proof.
  intros Hrot. rotation_facts M Hrot. rotation_identities.
  destruct_vec3 a. aux_unfold. wave_unfold. tuple_eq; nsatz.
Qed.

Lemma invert_invert (M : Mat R 3 3) (a : Vec R 3) :
  isRotation M -> invert (invert (mkT M a)) = mkT M a.
Proof.
  intros Hrot. rotation_facts M Hrot. rotation_identities.
  destruct_vec3 a. aux_unfold. wave_unfold. tuple_eq; try reflexivity; nsatz.
Qed.

(** X6. For an element with an orthonormal rotation block of determinant
    [+1], [inverse()] succeeds, returns such an element again, composes with
    the element to the identity on both sides, and inverting twice gives the
    element back. *)
Theorem inverse_laws (t : Mat R 3 4) :
  isRotation (getRotationMatrix t) ->
  exists tinv,
    inverse t = Ok tinv /\
    isRotation (getRotationMatrix tinv) /\
    compose t tinv = T_identity /\
    compose tinv t = T_identity /\
    inverse tinv = Ok t.
Proof.
  rewrite <- (mkT_blocks t). rewrite getRotationMatrix_mkT.
  generalize (getRotationMatrix t) (getTranslation t). clear t. intros M a Hrot.
  exists (invert (mkT M a)). split; [apply inverse_real|]. split; [| split; [| split]].
  - rewrite invert_mkT, getRotationMatrix_mkT. apply isRotation_transpose. exact Hrot.
  - apply compose_invert_r. exact Hrot.
  - apply compose_invert_l. exact Hrot.
  - rewrite inverse_real. f_equal. apply invert_invert. exact Hrot.
Qed.

Lemma inverse_laws_witness :
  exists tinv,
    @inverse R RScalar T_quarterTurn = Ok tinv /\
    isRotation (getRotationMatrix tinv) /\
    compose T_quarterTurn tinv = T_identity /\
    compose tinv T_quarterTurn = T_identity /\
    @inverse R RScalar tinv = Ok T_quarterTurn.
Proof.
  apply inverse_laws.
  unfold T_quarterTurn. rewrite getRotationMatrix_mkT. exact isRotation_rotZ90.
Defined.

(** *** The difference of an element with itself *)

Lemma logMap_approx_T_identity (tol : R) : logMap true T_identity tol = twist_zero.
Proof.
  unfold logMap. generalize (logMap_angle T_identity). intros wn.
  unfold logMap_from. aux_unfold. wave_unfold. dec_norm. tuple_eq; ring.
Qed.

Lemma logMap_exact_T_identity (tol : R) : 0 <= tol -> logMap false T_identity tol = twist_zero.
Proof. intros H. unfold T_identity. rewrite logMap_exact_identity by exact H. reflexivity. Qed.

Lemma norm_twist_zero6 : norm twist_zero = 0.
Proof.
  unfold norm.
  replace (squaredNorm twist_zero) with 0 by (aux_unfold; wave_unfold; ring).
  apply sqrt_0.
Qed.

(** X7. For a valid element [T], [minus(T, T)] is the zero twist, in
    approximate mode and, when the default tolerance of [logMap] is not
    negative, in exact mode; and [T.isNear(T, threshold)] holds for every
    threshold that is not negative. *)
Theorem minus_self (CST : Constants R) (approximate : bool) (t : Mat R 3 4) (threshold : R) :
  isRotation (getRotationMatrix t) ->
  (approximate = false -> 0 <= logMap_default_tolerance) ->
  0 <= threshold ->
  manifoldMinus approximate t t = Ok twist_zero /\
  isNear approximate t t threshold = Ok true.
Proof.
  intros Hrot Htol Hthr.
  assert (Hm : manifoldMinus approximate t t = Ok twist_zero).
  { rewrite manifoldMinus_real. rewrite <- (mkT_blocks t).
    rewrite <- (mkT_blocks t) in Hrot. rewrite getRotationMatrix_mkT in Hrot.
    rewrite compose_invert_r by exact Hrot.
    destruct approximate.
    - rewrite logMap_approx_T_identity. reflexivity.
    - rewrite logMap_exact_T_identity by (apply Htol; reflexivity). reflexivity. }
  split; [exact Hm|].
  unfold isNear. rewrite Hm. unfold bind. rewrite norm_twist_zero6.
  change (@gtb R RScalar 0 threshold) with (Rgtb 0 threshold).
  rewrite Rgtb_false by exact Hthr. reflexivity.
Qed.

Lemma minus_self_witness :
  @manifoldMinus R RScalar some_constants false T_quarterTurn T_quarterTurn = Ok twist_zero /\
  @isNear R RScalar some_constants false T_quarterTurn T_quarterTurn (1 / 10) = Ok true.
Proof.
  apply (minus_self some_constants false T_quarterTurn (1 / 10)).
  - unfold T_quarterTurn. rewrite getRotationMatrix_mkT. exact isRotation_rotZ90.
  - intros _. unfold logMap_default_tolerance, some_constants. rewrite Rdec_1_4. lra.
  - lra.
Defined.

(** *** The exponential map and the group *)

Lemma isRotation_rodrigues (A B n2 : R) (w : Vec R 3) :
  normSq3 w = n2 -> 2 * B - A * A - B * B * n2 = 0 -> isRotation (rodrigues A B w).
Proof.
  destruct_vec3 w. aux_unfold. wave_unfold. intros Hn HE.
  split.
  - wave_unfold. tuple_eq; solve [nsatz].
  - wave_unfold. solve [nsatz].
Qed.

Lemma isRotation_expMap (w v : Vec R 3) (tol : R) :
  0 < sqrt (normSq3 w) -> tol < sqrt (normSq3 w) ->
  isRotation (getRotationMatrix (block 3 4 0 0 (expMap false (mkTwist w v) tol))).
Proof.
  intros Hth Htol.
  rewrite expMap_exact_closed by exact Htol. rewrite getRotationMatrix_mkT.
  set (th := sqrt (normSq3 w)) in *.
  assert (Hth2 : normSq3 w = th * th).
  { unfold th. symmetry. apply sqrt_def. apply normSq3_nonneg. }
  apply isRotation_rodrigues with (n2 := th * th); [exact Hth2|].
  pose proof (sin2_cos2 th) as Hsc. unfold Rsqr in Hsc.
  field_simplify_eq; [| lra].
  assert (Hs2 : sin th ^ 2 = 1 - cos th ^ 2) by (simpl; lra).
  rewrite Hs2. ring.
Qed.

Lemma getRotationMatrix_compose (A B : Mat R 3 4) :
  getRotationMatrix (compose A B) = mmul (getRotationMatrix A) (getRotationMatrix B).
Proof. destruct_T A. destruct_T B. reflexivity. Qed.

Lemma checkVectorFinite_real6 (w : Vec R 6) : checkVectorFinite w = Ok tt.
Proof.
  destruct w as [a [b [c [d [e [f []]]]]]]. reflexivity.
Qed.

Lemma setFromExpMap_real (CST : Constants R) (approximate : bool) (self : Mat R 3 4) (w : Vec R 6) :
  setFromExpMap approximate self w = Ok (block 3 4 0 0 (expMap approximate w TOL)).
Proof.
  unfold setFromExpMap. rewrite checkVectorFinite_real6. reflexivity.
Qed.

(** X8. In exact mode, for a twist whose rotational part has a nonzero norm
    above the tolerance [TOL], [setFromExpMap] produces an element whose
    rotation block is orthonormal with determinant [+1], and [manifoldPlus]
    keeps a valid element valid. *)
Theorem expMap_gives_rotation (CST : Constants R) (w : Vec R 6) :
  0 < norm (segment 3 0 w) -> TOL < norm (segment 3 0 w) ->
  (forall self, exists t, setFromExpMap false self w = Ok t /\
                          isRotation (getRotationMatrix t)) /\
  (forall t, isRotation (getRotationMatrix t) ->
             isRotation (getRotationMatrix (manifoldPlus false t w))).
Proof.
  intros Hth Htol.
  assert (Hn : norm (segment 3 0 w) = sqrt (normSq3 (segment 3 0 w))).
  { rewrite <- (mkTwist_segments w) at 1. apply norm_segment_mkTwist. }
  rewrite Hn in Hth, Htol.
  assert (Hrot : isRotation (getRotationMatrix (block 3 4 0 0 (expMap false w TOL)))).
  { rewrite <- (mkTwist_segments w). apply isRotation_expMap; assumption. }
  split.
  - intros self. eexists. split; [apply setFromExpMap_real | exact Hrot].
  - intros t Ht. rewrite manifoldPlus_compose, getRotationMatrix_compose.
    apply isRotation_mmul; assumption.
Qed.

Lemma Rdec_1_5 : Rdec 1 5 = 1 / 100000.
Proof. unfold Rdec; simpl; lra. Qed.

Lemma expMap_gives_rotation_witness :
  (forall self, exists t,
      @setFromExpMap R RScalar some_constants false self twist_ex = Ok t /\
      isRotation (getRotationMatrix t)) /\
  (forall t, isRotation (getRotationMatrix t) ->
             isRotation (getRotationMatrix
               (@manifoldPlus R RScalar some_constants false t twist_ex))).
Proof.
  apply (expMap_gives_rotation some_constants twist_ex).
  - rewrite norm_twist_ex. lra.
  - rewrite norm_twist_ex. change (@TOL R some_constants) with (Rdec 1 5).
    rewrite Rdec_1_5. lra.
Defined.

(** X9. [setFromExpMap(w)] is [manifoldPlus(w)] applied to the
    default-constructed element, in both modes. *)
Theorem setFromExpMap_is_plus_on_identity
    (CST : Constants R) (approximate : bool) (self : Mat R 3 4) (w : Vec R 6) :
  setFromExpMap approximate self w
  = Ok (manifoldPlus approximate Transformation_default w).
Proof.
  rewrite manifoldPlus_compose, compose_default_r. apply setFromExpMap_real.
Qed.

(** X11. In exact mode, on a valid element whose rotation angle lies
    strictly between the tolerance and pi, the rotational part of [logMap]
    has that angle as its norm. *)
Theorem logMap_rotation_norm (t : Mat R 3 4) (tol : R) :
  isRotation (getRotationMatrix t) ->
  0 < angle (getRotationMatrix t) < PI -> tol < angle (getRotationMatrix t) ->
  norm (segment 3 0 (logMap false t tol)) = angle (getRotationMatrix t).
Proof.
  rewrite <- (mkT_blocks t). rewrite getRotationMatrix_mkT.
  generalize (getRotationMatrix t) (getTranslation t). clear t. intros M a Hrot Hth HL.
  pose proof (angle_bounds M Hth) as Hc.
  rewrite logMap_exact_closed by (lra || exact HL).
  rewrite norm_segment_mkTwist.
  remember (cosAngle M) as c eqn:Hcdef.
  assert (Hcos : cos (angle M) = c) by (unfold angle; rewrite <- Hcdef; apply cos_acos; lra).
  set (th := angle M) in *. clearbody th.
  assert (Hs : 0 < sin th) by (apply sin_gt_0; lra).
  pose proof (sin2_cos2 th) as Hsc. unfold Rsqr in Hsc. rewrite Hcos in Hsc.
  assert (Htr : trace M = 2 * c + 1) by (rewrite Hcdef; unfold cosAngle; field).
  assert (Hs2 : sin th ^ 2 = 1 - c ^ 2) by (simpl; lra).
  assert (Hn : normSq3 (scale3 (th / (2 * sin th)) (vee M)) = th * th).
  { rewrite normSq3_scale, normSq3_vee by exact Hrot. rewrite Htr.
    field_simplify_eq; [ | lra ]. rewrite Hs2. ring. }
  rewrite Hn. apply sqrt_square. lra.
Qed.

Lemma logMap_rotation_norm_witness :
  norm (segment 3 0 (logMap false T_quarterTurn (1 / 10))) = PI / 2.
Proof.
  pose proof PI2_3_2 as Hpi.
  rewrite <- angle_rotZ90.
  replace rotZ90 with (getRotationMatrix T_quarterTurn)
    by (unfold T_quarterTurn; apply getRotationMatrix_mkT).
  apply logMap_rotation_norm.
  - unfold T_quarterTurn. rewrite getRotationMatrix_mkT. exact isRotation_rotZ90.
  - unfold T_quarterTurn. rewrite getRotationMatrix_mkT, angle_rotZ90. lra.
  - unfold T_quarterTurn. rewrite getRotationMatrix_mkT, angle_rotZ90. lra.
Defined.

(** ** Further properties that hold in every scalar arithmetic *)

Section MoreGeneric.

Context {T : Type} {SC : Scalar T} {CST : Constants T} {BE : Backend SC}.
Local Open Scope nat_scope.
Local Open Scope scalar_scope.
Local Open Scope mat_scope.

Lemma block_getMatrix (t : Mat T 3 4) : block 3 4 0 0 (getMatrix t) = t.
Proof. destruct_T t. reflexivity. Qed.

(** X10. [setFromMatrix(getMatrix())] gives the element back: when the
    padded 4x4 matrix of [t] has only finite entries, setting any object
    from it succeeds with [t]. *)
Theorem setFromMatrix_getMatrix (self t : Mat T 3 4) :
  allFinite (getMatrix t) = true ->
  setFromMatrix self (getMatrix t) = Ok t.
Proof.
  intros H. unfold setFromMatrix, checkMatrixFinite. rewrite H.
  unfold bind. rewrite block_getMatrix. reflexivity.
Qed.

(** X12. [adjointRep] never writes the upper right 3x3 block of its
    result, which keeps what the storage held; once that block is cleared
    the result is the right Jacobian that [composeAndJacobian] returns. *)
Theorem adjointRep_upper_right_unwritten
    (uninitialized J1 J2 : Mat T 6 6) (self other : Mat T 3 4) :
  block 3 3 0 3 (adjointRep uninitialized self) = block 3 3 0 3 uninitialized /\
  setBlock 0 3 (mzero 3 3) (adjointRep uninitialized self)
  = snd (composeAndJacobian self other J1 J2).
Proof.
  destruct_T self. split; reflexivity.
Qed.

(** X13. Whenever [interpolateAndJacobians] returns, its pose is the one
    [interpolate] returns on the same arguments. *)
Theorem interpolateAndJacobians_pose
    (approximate approximate_other approx : bool) (T_k T_kp1 : Mat T 3 4)
    (twist_k twist_kp1 : Vec T 6) (hat candle : Mat T 6 12) :
  bind (interpolateAndJacobians approximate approximate_other approx
          T_k T_kp1 twist_k twist_kp1 hat candle)
       (fun r => Ok (fst r))
  = bind (interpolateAndJacobians approximate approximate_other approx
            T_k T_kp1 twist_k twist_kp1 hat candle)
         (fun _ => interpolate approximate_other approx
                     T_k T_kp1 twist_k twist_kp1 hat candle).
Proof.
  unfold interpolateAndJacobians, interpolate.
  destruct (manifoldMinusAndJacobian approximate_other T_kp1 T_k)
    as [[[eps J_left] J_right] | e]; [| reflexivity].
  unfold bind at 2 3 5 6.
  destruct (setFromMatrix Transformation_default (getMatrix T_k)) as [r | e];
    [| reflexivity].
  unfold bind at 2 4.
  unfold setFromExpMap.
  destruct (checkVectorFinite _) as [[] | e]; [| reflexivity].
  unfold bind. unfold deepCopy. rewrite manifoldPlus_compose. reflexivity.
Qed.

End MoreGeneric.

Lemma setFromMatrix_getMatrix_witness :
  @setFromMatrix R RScalar T_identity (getMatrix T_quarterTurn) = Ok T_quarterTurn.
Proof.
  apply setFromMatrix_getMatrix. reflexivity.
Defined.

(** *** The adjoint representation *)

Lemma skewSymmetric3_rotate (M : Mat R 3 3) (t : Vec R 3) :
  isRotation M ->
  mmul (skewSymmetric3 (mvmul M t)) M = mmul M (skewSymmetric3 t).
Proof.
  intros H. rotation_facts M H. destruct_vec3 t. wave_unfold.
  tuple_eq; solve [nsatz].
Qed.

Lemma adjointRep_compose (A B : Mat R 3 4) :
  isRotation (getRotationMatrix A) ->
  adjointRep (mzero 6 6) (compose A B)
  = mmul (adjointRep (mzero 6 6) A) (adjointRep (mzero 6 6) B).
Proof.
  intros H.
  pose proof (skewSymmetric3_rotate (getRotationMatrix A) (getTranslation B) H) as E.
  destruct_T A. destruct_T B. wave_unfold_in E.
  injection E as E00 E01 E02 E10 E11 E12 E20 E21 E22.
  wave_unfold. tuple_eq; try ring; solve [nsatz].
Qed.

Lemma adjointRep_identity : adjointRep (mzero 6 6) T_identity = identity 6.
Proof. aux_unfold. wave_unfold. tuple_eq; ring. Qed.

(** X14. With zeroed storage, [adjointRep] is multiplicative on valid
    elements, [Ad(A * B) = Ad(A) Ad(B)], and the adjoint of the inverse is
    the inverse matrix. *)
Theorem adjointRep_homomorphism (A B : Mat R 3 4) :
  isRotation (getRotationMatrix A) ->
  adjointRep (mzero 6 6) (compose A B)
  = mmul (adjointRep (mzero 6 6) A) (adjointRep (mzero 6 6) B) /\
  mmul (adjointRep (mzero 6 6) A) (adjointRep (mzero 6 6) (invert A)) = identity 6 /\
  mmul (adjointRep (mzero 6 6) (invert A)) (adjointRep (mzero 6 6) A) = identity 6.
Proof.
  intros H. split; [apply adjointRep_compose; exact H|].
  assert (Hi : isRotation (getRotationMatrix (invert A))).
  { rewrite <- (mkT_blocks A), invert_mkT, getRotationMatrix_mkT.
    apply isRotation_transpose. exact H. }
  split.
  - rewrite <- adjointRep_compose by exact H.
    rewrite <- (mkT_blocks A), compose_invert_r by exact H. apply adjointRep_identity.
  - rewrite <- adjointRep_compose by exact Hi.
    rewrite <- (mkT_blocks A), compose_invert_l by exact H. apply adjointRep_identity.
Qed.

Lemma adjointRep_homomorphism_witness :
  adjointRep (mzero 6 6) (compose T_quarterTurn T_halfTurn)
  = mmul (adjointRep (mzero 6 6) T_quarterTurn) (adjointRep (mzero 6 6) T_halfTurn) /\
  mmul (adjointRep (mzero 6 6) T_quarterTurn) (adjointRep (mzero 6 6) (invert T_quarterTurn))
  = identity 6 /\
  mmul (adjointRep (mzero 6 6) (invert T_quarterTurn)) (adjointRep (mzero 6 6) T_quarterTurn)
  = identity 6.
Proof.
  apply adjointRep_homomorphism.
  unfold T_quarterTurn. rewrite getRotationMatrix_mkT. exact isRotation_rotZ90.
Defined.

(** X15. The Jacobian that [inverseAndJacobian] writes is minus the adjoint
    representation of the inverse it returns. *)
Theorem inverseAndJacobian_is_minus_adjoint (t : Mat R 3 4) (J_transformation : Mat R 6 6) :
  inverseAndJacobian t J_transformation
  = Ok (invert t, mopp (adjointRep (mzero 6 6) (invert t))).
Proof.
  unfold inverseAndJacobian. rewrite inverse_real. unfold bind.
  destruct_T t. wave_unfold. repeat f_equal; tuple_eq; ring.
Qed.

(** X16. [J_lift] is the derivative of a left perturbation: applied to a
    twist [delta] it gives, column after column, the entries of
    [delta^ T = [skew3(w) R, skew3(w) t + v]]. *)
Theorem J_lift_is_generator_action (t : Mat R 3 4) (retval : Mat R 12 6) (delta : Vec R 6) :
  mvmul (J_lift t retval) delta = columnMajor (hatTimes delta t).
Proof.
  destruct_T t. destruct delta as [d0 [d1 [d2 [d3 [d4 [d5 []]]]]]].
  unfold hatTimes. aux_unfold. wave_unfold. dec_norm. tuple_eq; field.
Qed.

(** X17. [Jinterpolated] vanishes at [alpha = 0] and is the identity at
    [alpha = 1], for every twist. *)
Theorem Jinterpolated_endpoints (twist : Vec R 6) (retval : Mat R 6 6) :
  Jinterpolated twist 0 retval = mzero 6 6 /\
  Jinterpolated twist 1 retval = identity 6.
Proof.
  destruct twist as [d0 [d1 [d2 [d3 [d4 [d5 []]]]]]].
  split; wave_unfold; dec_norm; tuple_eq; field.
Qed.

(** *** The distance factor *)

Lemma derivable_pt_lim_sqrt_minus (g : R -> R) (a l m : R) :
  derivable_pt_lim g a l -> 0 < g a ->
  derivable_pt_lim (fun u => sqrt (g u) - m) a (l / (2 * sqrt (g a))).
Proof.
  intros Hg Hpos.
  assert (Hs : 0 < sqrt (g a)) by (apply sqrt_lt_R0; exact Hpos).
  pose proof (derivable_pt_lim_comp g sqrt a l (/ (2 * sqrt (g a))) Hg
                (derivable_pt_lim_sqrt (g a) Hpos)) as Hc.
  pose proof (derivable_pt_lim_minus _ _ a _ _ Hc (derivable_pt_lim_const m a)) as Hm.
  unfold minus_fct, comp, fct_cte in Hm.
  replace (l / (2 * sqrt (g a))) with (/ (2 * sqrt (g a)) * l - 0) by (field; lra).
  exact Hm.
Qed.

Lemma derivable_pt_lim_square_left (c k a : R) :
  derivable_pt_lim (fun u => (u - c) * (u - c) + k) a (2 * (a - c)).
Proof.
  pose proof (derivable_pt_lim_minus _ _ a _ _ (derivable_pt_lim_id a)
                (derivable_pt_lim_const c a)) as H1.
  pose proof (derivable_pt_lim_mult _ _ a _ _ H1 H1) as H2.
  pose proof (derivable_pt_lim_plus _ _ a _ _ H2 (derivable_pt_lim_const k a)) as H3.
  unfold plus_fct, mult_fct, minus_fct, id, fct_cte in H3.
  replace (2 * (a - c)) with ((1 - 0) * (a - c) + (a - c) * (1 - 0) + 0) by ring.
  exact H3.
Qed.

Lemma derivable_pt_lim_square_right (c k a : R) :
  derivable_pt_lim (fun u => (c - u) * (c - u) + k) a (- (2 * (c - a))).
Proof.
  pose proof (derivable_pt_lim_minus _ _ a _ _ (derivable_pt_lim_const c a)
                (derivable_pt_lim_id a)) as H1.
  pose proof (derivable_pt_lim_mult _ _ a _ _ H1 H1) as H2.
  pose proof (derivable_pt_lim_plus _ _ a _ _ H2 (derivable_pt_lim_const k a)) as H3.
  unfold plus_fct, mult_fct, minus_fct, id, fct_cte in H3.
  replace (- (2 * (c - a))) with ((0 - 1) * (c - a) + (c - a) * (0 - 1) + 0) by ring.
  exact H3.
Qed.

Lemma derivable_pt_lim_ext_eq (f g : R -> R) (a l : R) :
  (forall u, f u = g u) -> derivable_pt_lim f a l -> derivable_pt_lim g a l.
Proof.
  intros E H eps Heps. destruct (H eps Heps) as [d Hd]. exists d.
  intros h Hh Hlt. rewrite <- !E. apply Hd; assumption.
Qed.

Lemma distance_positive (x y lx ly : R) :
  x <> lx \/ y <> ly -> 0 < (x - lx) * (x - lx) + (y - ly) * (y - ly).
Proof.
  intros [H | H].
  - assert (0 < (x - lx) * (x - lx)) by (apply Rsqr_pos_lt; lra).
    assert (0 <= (y - ly) * (y - ly)) by apply Rle_0_sqr. lra.
  - assert (0 < (y - ly) * (y - ly)) by (apply Rsqr_pos_lt; lra).
    assert (0 <= (x - lx) * (x - lx)) by apply Rle_0_sqr. lra.
Qed.

Lemma residual_at_value (meas x y th lx ly : R) :
  residual_at meas x y th lx ly
  = sqrt ((x - lx) * (x - lx) + (y - ly) * (y - ly)) - meas.
Proof. reflexivity. Qed.

Lemma residual_at_dx (meas x y th lx ly : R) :
  x <> lx \/ y <> ly ->
  derivable_pt_lim (fun u => residual_at meas u y th lx ly) x
    ((x - lx) / sqrt ((x - lx) * (x - lx) + (y - ly) * (y - ly))).
Proof.
  intros H. apply distance_positive in H.
  assert (Hs : 0 < sqrt ((x - lx) * (x - lx) + (y - ly) * (y - ly)))
    by (apply sqrt_lt_R0; exact H).
  apply (derivable_pt_lim_ext_eq
           (fun u => sqrt ((u - lx) * (u - lx) + (y - ly) * (y - ly)) - meas)).
  { intros u. symmetry. apply residual_at_value. }
  replace ((x - lx) / sqrt ((x - lx) * (x - lx) + (y - ly) * (y - ly)))
    with (2 * (x - lx) / (2 * sqrt ((x - lx) * (x - lx) + (y - ly) * (y - ly))))
    by (field; lra).
  apply (derivable_pt_lim_sqrt_minus
           (fun u => (u - lx) * (u - lx) + (y - ly) * (y - ly))).
  - apply derivable_pt_lim_square_left.
  - exact H.
Qed.

Lemma residual_at_dy (meas x y th lx ly : R) :
  x <> lx \/ y <> ly ->
  derivable_pt_lim (fun u => residual_at meas x u th lx ly) y
    ((y - ly) / sqrt ((x - lx) * (x - lx) + (y - ly) * (y - ly))).
Proof.
  intros H. apply distance_positive in H.
  assert (Hs : 0 < sqrt ((x - lx) * (x - lx) + (y - ly) * (y - ly)))
    by (apply sqrt_lt_R0; exact H).
  apply (derivable_pt_lim_ext_eq
           (fun u => sqrt ((u - ly) * (u - ly) + (x - lx) * (x - lx)) - meas)).
  { intros u. rewrite residual_at_value. f_equal. f_equal. ring. }
  replace ((x - lx) * (x - lx) + (y - ly) * (y - ly))
    with ((y - ly) * (y - ly) + (x - lx) * (x - lx)) in * by ring.
  replace ((y - ly) / sqrt ((y - ly) * (y - ly) + (x - lx) * (x - lx)))
    with (2 * (y - ly) / (2 * sqrt ((y - ly) * (y - ly) + (x - lx) * (x - lx))))
    by (field; lra).
  apply (derivable_pt_lim_sqrt_minus
           (fun u => (u - ly) * (u - ly) + (x - lx) * (x - lx))).
  - apply derivable_pt_lim_square_left.
  - exact H.
Qed.

Lemma residual_at_dlx (meas x y th lx ly : R) :
  x <> lx \/ y <> ly ->
  derivable_pt_lim (fun u => residual_at meas x y th u ly) lx
    (- ((x - lx) / sqrt ((x - lx) * (x - lx) + (y - ly) * (y - ly)))).
Proof.
  intros H. apply distance_positive in H.
  assert (Hs : 0 < sqrt ((x - lx) * (x - lx) + (y - ly) * (y - ly)))
    by (apply sqrt_lt_R0; exact H).
  apply (derivable_pt_lim_ext_eq
           (fun u => sqrt ((x - u) * (x - u) + (y - ly) * (y - ly)) - meas)).
  { intros u. symmetry. apply residual_at_value. }
  replace (- ((x - lx) / sqrt ((x - lx) * (x - lx) + (y - ly) * (y - ly))))
    with (- (2 * (x - lx)) / (2 * sqrt ((x - lx) * (x - lx) + (y - ly) * (y - ly))))
    by (field; lra).
  apply (derivable_pt_lim_sqrt_minus
           (fun u => (x - u) * (x - u) + (y - ly) * (y - ly))).
  - apply derivable_pt_lim_square_right.
  - exact H.
Qed.

Lemma residual_at_dly (meas x y th lx ly : R) :
  x <> lx \/ y <> ly ->
  derivable_pt_lim (fun u => residual_at meas x y th lx u) ly
    (- ((y - ly) / sqrt ((x - lx) * (x - lx) + (y - ly) * (y - ly)))).
Proof.
  intros H. apply distance_positive in H.
  assert (Hs : 0 < sqrt ((x - lx) * (x - lx) + (y - ly) * (y - ly)))
    by (apply sqrt_lt_R0; exact H).
  apply (derivable_pt_lim_ext_eq
           (fun u => sqrt ((y - u) * (y - u) + (x - lx) * (x - lx)) - meas)).
  { intros u. rewrite residual_at_value. f_equal. f_equal. ring. }
  replace ((x - lx) * (x - lx) + (y - ly) * (y - ly))
    with ((y - ly) * (y - ly) + (x - lx) * (x - lx)) in * by ring.
  replace (- ((y - ly) / sqrt ((y - ly) * (y - ly) + (x - lx) * (x - lx))))
    with (- (2 * (y - ly)) / (2 * sqrt ((y - ly) * (y - ly) + (x - lx) * (x - lx))))
    by (field; lra).
  apply (derivable_pt_lim_sqrt_minus
           (fun u => (y - u) * (y - u) + (x - lx) * (x - lx))).
  - apply derivable_pt_lim_square_right.
  - exact H.
Qed.

(** X18. When the pose and the landmark are at different positions, the
    pose Jacobian that [evaluate] writes is the gradient of the residual
    with respect to the pose [(x, y, th)]; the residual does not depend on
    the orientation. *)
Theorem evaluate_pose_jacobian_is_gradient
    (meas x y th lx ly : R) (j_landmark_requested : bool) :
  x <> lx \/ y <> ly ->
  exists jx jy jth,
    snd (fst (evaluate meas (x, (y, (th, tt))) (lx, (ly, tt)) true j_landmark_requested))
    = Some (jx, (jy, (jth, tt))) /\
    derivable_pt_lim (fun u => residual_at meas u y th lx ly) x jx /\
    derivable_pt_lim (fun u => residual_at meas x u th lx ly) y jy /\
    derivable_pt_lim (fun u => residual_at meas x y u lx ly) th jth.
Proof.
  intros H.
  exists ((x - lx) / sqrt ((x - lx) * (x - lx) + (y - ly) * (y - ly))),
         ((y - ly) / sqrt ((x - lx) * (x - lx) + (y - ly) * (y - ly))), 0.
  split; [reflexivity|].
  split; [| split].
  - apply residual_at_dx. exact H.
  - apply residual_at_dy. exact H.
  - apply (derivable_pt_lim_ext_eq (fct_cte (residual_at meas x y th lx ly))).
    + intros u. reflexivity.
    + apply derivable_pt_lim_const.
Qed.

Lemma evaluate_pose_jacobian_is_gradient_witness :
  exists jx jy jth,
    snd (fst (evaluate 1 (3, (4, (0, tt))) (0, (0, tt)) true true))
    = Some (jx, (jy, (jth, tt))) /\
    derivable_pt_lim (fun u => residual_at 1 u 4 0 0 0) 3 jx /\
    derivable_pt_lim (fun u => residual_at 1 3 u 0 0 0) 4 jy /\
    derivable_pt_lim (fun u => residual_at 1 3 4 u 0 0) 0 jth.
Proof.
  apply (evaluate_pose_jacobian_is_gradient 1 3 4 0 0 0 true). left. lra.
Defined.

(** X19. The landmark Jacobian that [evaluate] writes has the entries of
    the pose Jacobian's position part; it is minus the gradient of the
    residual with respect to the landmark, and in a coordinate in which the
    two positions differ it is not the partial derivative. *)
Theorem evaluate_landmark_jacobian_sign
    (meas x y th lx ly : R) (j_pose_requested : bool) :
  x <> lx \/ y <> ly ->
  exists jx jy,
    snd (evaluate meas (x, (y, (th, tt))) (lx, (ly, tt)) j_pose_requested true)
    = Some (jx, (jy, tt)) /\
    derivable_pt_lim (fun u => residual_at meas x y th u ly) lx (- jx) /\
    derivable_pt_lim (fun u => residual_at meas x y th lx u) ly (- jy) /\
    (x <> lx -> ~ derivable_pt_lim (fun u => residual_at meas x y th u ly) lx jx) /\
    (y <> ly -> ~ derivable_pt_lim (fun u => residual_at meas x y th lx u) ly jy).
Proof.
  intros H. pose proof (distance_positive x y lx ly H) as Hpos.
  assert (Hs : 0 < sqrt ((x - lx) * (x - lx) + (y - ly) * (y - ly)))
    by (apply sqrt_lt_R0; exact Hpos).
  exists ((x - lx) / sqrt ((x - lx) * (x - lx) + (y - ly) * (y - ly))),
         ((y - ly) / sqrt ((x - lx) * (x - lx) + (y - ly) * (y - ly))).
  split; [destruct j_pose_requested; reflexivity|].
  split; [apply residual_at_dlx; exact H|].
  split; [apply residual_at_dly; exact H|].
  split.
  - intros Hx Hd.
    pose proof (uniqueness_limite _ _ _ _ Hd (residual_at_dlx meas x y th lx ly H)) as E.
    assert (E0 : (x - lx) / sqrt ((x - lx) * (x - lx) + (y - ly) * (y - ly)) = 0) by lra.
    apply (f_equal (fun v => v * sqrt ((x - lx) * (x - lx) + (y - ly) * (y - ly)))) in E0.
    unfold Rdiv in E0. rewrite Rmult_assoc, Rinv_l, Rmult_1_r, Rmult_0_l in E0 by lra.
    lra.
  - intros Hy Hd.
    pose proof (uniqueness_limite _ _ _ _ Hd (residual_at_dly meas x y th lx ly H)) as E.
    assert (E0 : (y - ly) / sqrt ((x - lx) * (x - lx) + (y - ly) * (y - ly)) = 0) by lra.
    apply (f_equal (fun v => v * sqrt ((x - lx) * (x - lx) + (y - ly) * (y - ly)))) in E0.
    unfold Rdiv in E0. rewrite Rmult_assoc, Rinv_l, Rmult_1_r, Rmult_0_l in E0 by lra.
    lra.
Qed.

Lemma evaluate_landmark_jacobian_sign_witness :
  exists jx jy,
    snd (evaluate 1 (3, (4, (0, tt))) (0, (0, tt)) true true) = Some (jx, (jy, tt)) /\
    derivable_pt_lim (fun u => residual_at 1 3 4 0 u 0) 0 (- jx) /\
    derivable_pt_lim (fun u => residual_at 1 3 4 0 0 u) 0 (- jy) /\
    (3 <> 0 -> ~ derivable_pt_lim (fun u => residual_at 1 3 4 0 u 0) 0 jx) /\
    (4 <> 0 -> ~ derivable_pt_lim (fun u => residual_at 1 3 4 0 0 u) 0 jy).
Proof.
  apply (evaluate_landmark_jacobian_sign 1 3 4 0 0 0 true). left. lra.
Defined.

(** X20. [evaluate] does not guard the division by the distance: when the
    pose and the landmark are at the same finite position it still returns
    [true], with the residual [0 - meas], and the position entries of both
    Jacobians are not finite. *)
Theorem evaluate_coincident_positions (meas a b th : R) :
  @evaluate xreal XScalar (Some meas) (Some a, (Some b, (Some th, tt)))
    (Some a, (Some b, tt)) true true
  = (true, (Some (0 - meas), tt),
     Some (None, (None, (Some 0, tt))), Some (None, (None, tt))).
Proof.
  wave_unfold. unfold xlift2, xsqrt, xdiv.
  replace ((a - a) * (a - a) + (b - b) * (b - b)) with 0 by ring.
  destruct (Rlt_dec 0 0) as [Hlt | _]; [lra|].
  rewrite sqrt_0.
  destruct (Req_dec_T 0 0) as [_ | Hne]; [| contradiction Hne; reflexivity].
  reflexivity.
Qed.

(** *** Euler angles *)

Lemma isRotation_angleAxisX (a : R) : isRotation (angleAxisX a).
Proof.
  pose proof (sin2_cos2 a) as H. unfold Rsqr in H.
  split; wave_unfold; [tuple_eq|]; nsatz.
Qed.

Lemma isRotation_angleAxisY (a : R) : isRotation (angleAxisY a).
Proof.
  pose proof (sin2_cos2 a) as H. unfold Rsqr in H.
  split; wave_unfold; [tuple_eq|]; nsatz.
Qed.

Lemma isRotation_angleAxisZ (a : R) : isRotation (angleAxisZ a).
Proof.
  pose proof (sin2_cos2 a) as H. unfold Rsqr in H.
  split; wave_unfold; [tuple_eq|]; nsatz.
Qed.

Lemma checkVectorFinite_real3 (w : Vec R 3) : checkVectorFinite w = Ok tt.
Proof. destruct_vec3 w. reflexivity. Qed.

(** X21. For every triple of Euler angles and every translation,
    [setFromEulerXYZ] produces a valid element: its rotation block is
    orthonormal with determinant [+1] and its translation is the given one. *)
Theorem setFromEulerXYZ_valid (self : Mat R 3 4) (eulers translation : Vec R 3) :
  exists t, setFromEulerXYZ self eulers translation = Ok t /\
            isRotation (getRotationMatrix t) /\
            getTranslation t = translation.
Proof.
  unfold setFromEulerXYZ. rewrite !checkVectorFinite_real3. unfold bind.
  eexists. split; [reflexivity|].
  assert (Hrot : isRotation (mmul (mmul (angleAxisZ (vcoeff eulers 2))
                                        (angleAxisY (vcoeff eulers 1)))
                                  (angleAxisX (vcoeff eulers 0)))).
  { apply isRotation_mmul; [apply isRotation_mmul|].
    - apply isRotation_angleAxisZ.
    - apply isRotation_angleAxisY.
    - apply isRotation_angleAxisX. }
  revert Hrot.
  generalize (mmul (mmul (angleAxisZ (vcoeff eulers 2)) (angleAxisY (vcoeff eulers 1)))
                   (angleAxisX (vcoeff eulers 0))).
  intros M HM. destruct_mat3 M. destruct_T self. destruct_vec3 translation.
  split; [exact HM | reflexivity].
Qed.

(** *** The exponential of the adjoint *)

Lemma expMapAdjoint_closed (w v : Vec R 3) (tol : R) :
  tol < sqrt (normSq3 w) ->
  expMapAdjoint (mkTwist w v) tol =
  let th := sqrt (normSq3 w) in
  let s := sin th in let c := cos th in
  let skew := skewSymmetric6 (mkTwist w v) in
  madd (madd (madd (madd (identity 6)
    (smul ((Rdec 30 1 * s - th * c) / (Rdec 20 1 * th)) skew))
    (mmul (smul ((Rdec 40 1 - th * s - Rdec 40 1 * c) / (Rdec 20 1 * th * th)) skew) skew))
    (mmul (mmul (smul ((s - th * c) / (Rdec 20 1 * th * th * th)) skew) skew) skew))
    (mmul (mmul (mmul (smul ((Rdec 20 1 - th * s - Rdec 20 1 * c)
                              / (Rdec 20 1 * th * th * th * th)) skew) skew) skew) skew).
Proof.
  intros Htol. unfold expMapAdjoint.
  rewrite norm_segment_mkTwist.
  change (@gtb R RScalar (sqrt (normSq3 w)) tol) with (Rgtb (sqrt (normSq3 w)) tol).
  rewrite Rgtb_true by exact Htol. reflexivity.
Qed.

(** The fourth-order polynomial in [ad(W)] against the adjoint of the
    closed form of [expMap], for any [th], [s], [c] with [th^2 = |w|^2] and
    [s^2 + c^2 = 1]. *)
Lemma adjoint_series_algebra (w v : Vec R 3) (th s c : R) :
  normSq3 w = th * th -> s * s + c * c = 1 -> 0 < th ->
  (let skew := skewSymmetric6 (mkTwist w v) in
  madd (madd (madd (madd (identity 6)
    (smul ((Rdec 30 1 * s - th * c) / (Rdec 20 1 * th)) skew))
    (mmul (smul ((Rdec 40 1 - th * s - Rdec 40 1 * c) / (Rdec 20 1 * th * th)) skew) skew))
    (mmul (mmul (smul ((s - th * c) / (Rdec 20 1 * th * th * th)) skew) skew) skew))
    (mmul (mmul (mmul (smul ((Rdec 20 1 - th * s - Rdec 20 1 * c)
                              / (Rdec 20 1 * th * th * th * th)) skew) skew) skew) skew))
  = adjointRep (mzero 6 6)
      (mkT (rodrigues (s / th) ((1 - c) / (th * th)) w)
           (kop ((1 - c) / (th * th)) ((1 - s / th) / (th * th)) w v)).
Proof.
  destruct_vec3 w. destruct_vec3 v. aux_unfold. wave_unfold. intros Hn Hsc Hth.
  assert (E2 : th ^ 2 = w0 ^ 2 + w1 ^ 2 + w2 ^ 2) by (simpl; lra).
  assert (E3 : th ^ 3 = th * (w0 ^ 2 + w1 ^ 2 + w2 ^ 2)) by (rewrite <- E2; ring).
  assert (E4 : th ^ 4 = (w0 ^ 2 + w1 ^ 2 + w2 ^ 2) ^ 2) by (rewrite <- E2; ring).
  assert (E5 : th ^ 5 = th * (w0 ^ 2 + w1 ^ 2 + w2 ^ 2) ^ 2) by (rewrite <- E2; ring).
  assert (E6 : th ^ 6 = (w0 ^ 2 + w1 ^ 2 + w2 ^ 2) ^ 3) by (rewrite <- E2; ring).
  assert (E7 : th ^ 7 = th * (w0 ^ 2 + w1 ^ 2 + w2 ^ 2) ^ 3) by (rewrite <- E2; ring).
  assert (E8 : th ^ 8 = (w0 ^ 2 + w1 ^ 2 + w2 ^ 2) ^ 4) by (rewrite <- E2; ring).
  assert (Es2 : s ^ 2 = 1 - c ^ 2) by (simpl; lra).
  clear Hn Hsc.
  dec_norm. tuple_eq.
  all: (field_simplify_eq; [| lra]).
  all: rewrite ?E8, ?E7, ?E6, ?E5, ?E4, ?E3, ?E2, ?Es2.
  all: ring.
Qed.

(** X22. Above the tolerance, [expMapAdjoint(W)] is the adjoint
    representation of the element that [expMap(W)] returns in exact mode:
    [exp(ad(W)) = Ad(exp(W))]. *)
Theorem expMapAdjoint_is_adjoint_of_expMap (W : Vec R 6) (tol : R) :
  0 < norm (segment 3 0 W) -> tol < norm (segment 3 0 W) ->
  expMapAdjoint W tol = adjointRep (mzero 6 6) (block 3 4 0 0 (expMap false W tol)).
Proof.
  intros Hth Htol.
  assert (Hn : norm (segment 3 0 W) = sqrt (normSq3 (segment 3 0 W))).
  { rewrite <- (mkTwist_segments W) at 1. apply norm_segment_mkTwist. }
  rewrite Hn in Hth, Htol. clear Hn.
  rewrite <- (mkTwist_segments W).
  generalize dependent (segment 3 3 W). generalize dependent (segment 3 0 W).
  clear W. intros w Hth Htol v.
  rewrite expMapAdjoint_closed, expMap_exact_closed by exact Htol.
  apply adjoint_series_algebra.
  - symmetry. apply sqrt_def. apply normSq3_nonneg.
  - pose proof (sin2_cos2 (sqrt (normSq3 w))) as H. unfold Rsqr in H. exact H.
  - exact Hth.
Qed.

Lemma expMapAdjoint_is_adjoint_of_expMap_witness :
  expMapAdjoint twist_ex (1 / 10)
  = adjointRep (mzero 6 6) (block 3 4 0 0 (expMap false twist_ex (1 / 10))).
Proof.
  apply expMapAdjoint_is_adjoint_of_expMap; rewrite norm_twist_ex; lra.
Defined.

(** X23. The matrix that [Adjoint] writes is the adjoint action of the Lie
    algebra: it is antisymmetric in its two twists, [ad(x) y = - ad(y) x],
    so [ad(x) x = 0], and it maps the bracket to the commutator,
    [ad(ad(x) y) = ad(x) ad(y) - ad(y) ad(x)]. *)
Theorem Adjoint_is_lie_bracket (x y : Vec R 6) (J1 J2 J3 : Mat R 6 6) :
  mvmul (Adjoint x J1) y = mvmul (mopp (Adjoint y J2)) x /\
  mvmul (Adjoint x J1) x = vzero 6 /\
  Adjoint (mvmul (Adjoint x J1) y) J3
  = msub (mmul (Adjoint x J1) (Adjoint y J2)) (mmul (Adjoint y J2) (Adjoint x J1)).
Proof.
  destruct x as [x0 [x1 [x2 [x3 [x4 [x5 []]]]]]].
  destruct y as [y0 [y1 [y2 [y3 [y4 [y5 []]]]]]].
  repeat split; wave_unfold; tuple_eq; ring.
Qed.

(** *** The left Jacobian and the exponential of the adjoint *)

(** **** Algebra of 6x6 matrices *)

Ltac destruct_row6 r :=
  let a := fresh r "0" in let b := fresh r "1" in let c := fresh r "2" in
  let d := fresh r "3" in let e := fresh r "4" in let f := fresh r "5" in
  destruct r as [a [b [c [d [e [f []]]]]]].

Ltac destruct_mat6 M :=
  let a := fresh M "0" in let b := fresh M "1" in let c := fresh M "2" in
  let d := fresh M "3" in let e := fresh M "4" in let f := fresh M "5" in
  destruct M as [a [b [c [d [e [f []]]]]]];
  destruct_row6 a; destruct_row6 b; destruct_row6 c;
  destruct_row6 d; destruct_row6 e; destruct_row6 f.

Lemma mmul_smul_l6 (k : R) (A B : Mat R 6 6) : mmul (smul k A) B = smul k (mmul A B).
Proof. destruct_mat6 A. destruct_mat6 B. wave_unfold. tuple_eq; ring. Qed.

Lemma mmul_smul_r6 (k : R) (A B : Mat R 6 6) : mmul A (smul k B) = smul k (mmul A B).
Proof. destruct_mat6 A. destruct_mat6 B. wave_unfold. tuple_eq; ring. Qed.

Lemma mmul_madd_r6 (A B C : Mat R 6 6) : mmul A (madd B C) = madd (mmul A B) (mmul A C).
Proof. destruct_mat6 A. destruct_mat6 B. destruct_mat6 C. wave_unfold. tuple_eq; ring. Qed.

Lemma mmul_assoc6 (A B C : Mat R 6 6) : mmul (mmul A B) C = mmul A (mmul B C).
Proof. destruct_mat6 A. destruct_mat6 B. destruct_mat6 C. wave_unfold. tuple_eq; ring. Qed.

Lemma mmul_identity_r6 (A : Mat R 6 6) : mmul A (identity 6) = A.
Proof. destruct_mat6 A. wave_unfold. tuple_eq; ring. Qed.

(** The minimal polynomial of [ad(W)]: [ad^5 + 2 |w|^2 ad^3 + |w|^4 ad = 0]. *)
Lemma skewSymmetric6_pow5 (w v : Vec R 3) :
  let X := skewSymmetric6 (mkTwist w v) in
  mmul X (mmul X (mmul X (mmul X X)))
  = madd (smul (- (2 * normSq3 w)) (mmul X (mmul X X)))
         (smul (- (normSq3 w * normSq3 w)) X).
Proof.
  destruct_vec3 w. destruct_vec3 v. aux_unfold. wave_unfold. tuple_eq; ring.
Qed.

Lemma SE3LeftJacobian_closed (w v : Vec R 3) (tol : R) :
  tol < sqrt (normSq3 w) ->
  SE3LeftJacobian (mkTwist w v) tol =
  let th := sqrt (normSq3 w) in
  let s := sin th in let c := cos th in
  let adj := skewSymmetric6 (mkTwist w v) in
  madd (madd (madd (madd (identity 6)
    (smul ((Rdec 40 1 - th * s - Rdec 40 1 * c) / (Rdec 20 1 * th * th)) adj))
    (mmul (smul ((Rdec 40 1 * th - Rdec 50 1 * s + th * c) / (Rdec 20 1 * th * th * th)) adj)
          adj))
    (mmul (mmul (smul ((Rdec 20 1 - th * s - Rdec 20 1 * c)
                        / (Rdec 20 1 * th * th * th * th)) adj) adj) adj))
    (mmul (mmul (mmul (smul ((Rdec 20 1 * th - Rdec 30 1 * s + th * c)
                              / (Rdec 20 1 * th * th * th * th * th)) adj) adj) adj) adj).
Proof.
  intros Htol. unfold SE3LeftJacobian.
  rewrite norm_segment_mkTwist.
  change (@gtb R RScalar (sqrt (normSq3 w)) tol) with (Rgtb (sqrt (normSq3 w)) tol).
  rewrite Rgtb_true by exact Htol. reflexivity.
Qed.

(** Entry by entry, for matrices [X], [P2], [P3], [P4] standing for the
    powers of [ad(W)]. *)
Lemma left_jacobian_coefficients (X P2 P3 P4 : Mat R 6 6) (th s c : R) :
  0 < th ->
  madd (madd (madd (madd (identity 6)
    (smul ((Rdec 30 1 * s - th * c) / (Rdec 20 1 * th)) X))
    (smul ((Rdec 40 1 - th * s - Rdec 40 1 * c) / (Rdec 20 1 * th * th)) P2))
    (smul ((s - th * c) / (Rdec 20 1 * th * th * th)) P3))
    (smul ((Rdec 20 1 - th * s - Rdec 20 1 * c) / (Rdec 20 1 * th * th * th * th)) P4)
  = madd (identity 6)
      (madd (madd (madd (madd X
        (smul ((Rdec 40 1 - th * s - Rdec 40 1 * c) / (Rdec 20 1 * th * th)) P2))
        (smul ((Rdec 40 1 * th - Rdec 50 1 * s + th * c) / (Rdec 20 1 * th * th * th)) P3))
        (smul ((Rdec 20 1 - th * s - Rdec 20 1 * c) / (Rdec 20 1 * th * th * th * th)) P4))
        (smul ((Rdec 20 1 * th - Rdec 30 1 * s + th * c)
               / (Rdec 20 1 * th * th * th * th * th))
              (madd (smul (- (2 * (th * th))) P3) (smul (- (th * th * (th * th))) X)))).
Proof.
  intros Hth.
  destruct_mat6 X. destruct_mat6 P2. destruct_mat6 P3. destruct_mat6 P4.
  wave_unfold. dec_norm. tuple_eq; field; lra.
Qed.

(** X24. Above the tolerance, the closed forms of [expMapAdjoint] and of
    [SE3LeftJacobian] satisfy [exp(ad(W)) = I + ad(W) J(W)], with [ad(W)]
    the matrix of [skewSymmetric6]. *)
Theorem expMapAdjoint_left_jacobian (W : Vec R 6) (tol : R) :
  0 < norm (segment 3 0 W) -> tol < norm (segment 3 0 W) ->
  expMapAdjoint W tol
  = madd (identity 6) (mmul (skewSymmetric6 W) (SE3LeftJacobian W tol)).
Proof.
  intros Hth Htol.
  assert (Hn : norm (segment 3 0 W) = sqrt (normSq3 (segment 3 0 W))).
  { rewrite <- (mkTwist_segments W) at 1. apply norm_segment_mkTwist. }
  rewrite Hn in Hth, Htol. clear Hn.
  rewrite <- (mkTwist_segments W).
  generalize dependent (segment 3 3 W). generalize dependent (segment 3 0 W).
  clear W. intros w Hth Htol v.
  rewrite expMapAdjoint_closed, SE3LeftJacobian_closed by exact Htol.
  pose proof (skewSymmetric6_pow5 w v) as H5.
  assert (Hn2 : normSq3 w = sqrt (normSq3 w) * sqrt (normSq3 w))
    by (symmetry; apply sqrt_def; apply normSq3_nonneg).
  cbv zeta in *.
  set (th := sqrt (normSq3 w)) in *. clearbody th.
  rewrite Hn2 in H5. clear Hn2.
  set (X := skewSymmetric6 (mkTwist w v)) in *. clearbody X.
  rewrite !mmul_smul_l6, !mmul_assoc6.
  rewrite !mmul_madd_r6, !mmul_smul_r6, mmul_identity_r6.
  rewrite H5.
  apply left_jacobian_coefficients. exact Hth.
Qed.

Lemma expMapAdjoint_left_jacobian_witness :
  expMapAdjoint twist_ex (1 / 10)
  = madd (identity 6) (mmul (skewSymmetric6 twist_ex) (SE3LeftJacobian twist_ex (1 / 10))).
Proof.
  apply expMapAdjoint_left_jacobian; rewrite norm_twist_ex; lra.
Defined.
